(** * Valoretti: the Sapphire Reserve ROI valuation engine

    A shallow embedding of [src/components/SapphireReserveROICalculator.js]
    (the helpers [validateInputs], [isValidResults], the memoised
    [totalAnnualSpending] / [qualifiesForHighSpender] and the callback
    [calculateROI]) and the properties of the valuation engine.

    JavaScript numbers are IEEE 754 binary64 values: they are modelled by the
    primitive [float] type, whose operations round exactly as the engine's do.
    General facts about the arithmetic go through the specification
    [Prim2SF] of the primitive operations. *)

From Stdlib Require Import ZArith Lia Bool List String Floats.
From stdpp Require Import base option gmap strings list.

Set Warnings "-inexact-float,-register-all".
Local Open Scope string_scope.

(** ** JavaScript values *)

(** What the [inputs] state, or any of its properties, can hold. *)
Inductive jsval : Type :=
  | JSUndefined
  | JSNull
  | JSBoolean (b : bool)
  | JSNumber (x : float)
  | JSString (s : string)
  | JSObject (props : gmap string jsval).

(** The properties of the object built by [validateInputs] are numbers or
    booleans; reading a missing property gives [undefined], here [None]. *)
Inductive safeval : Type :=
  | SafeNumber (x : float)
  | SafeBoolean (b : bool).

Definition isNaN (x : float) : bool := is_nan x.
Definition isFinite (x : float) : bool := is_finite x.

(** [ToNumber] and [ToBoolean] of the language, on a property read. *)
Definition ToNumber (v : option safeval) : float :=
  match v with
  | Some (SafeNumber x) => x
  | Some (SafeBoolean true) => 1
  | Some (SafeBoolean false) => 0
  | None => nan
  end.

Definition ToBoolean (v : option safeval) : bool :=
  match v with
  | Some (SafeNumber x) => negb (is_zero x || is_nan x)
  | Some (SafeBoolean b) => b
  | None => false
  end.

(** [v || 0] *)
Definition or0 (v : option safeval) : option safeval :=
  if ToBoolean v then v else Some (SafeNumber 0).

(** [x || 0] for a number [x]. *)
Definition num_or0 (x : float) : float :=
  if is_zero x || is_nan x then 0%float else x.

(** [Math.max] and [Math.min] on two numbers: NaN is contagious and
    [-0] is below [+0]. *)
Definition Math_max (a b : float) : float :=
  if is_nan a || is_nan b then nan
  else if (a <? b)%float then b
  else if (b <? a)%float then a
  else if get_sign a then b else a.

Definition Math_min (a b : float) : float :=
  if is_nan a || is_nan b then nan
  else if (a <? b)%float then a
  else if (b <? a)%float then b
  else if get_sign a then a else b.

(** Strings built by concatenation with numbers: the decimal rendering of a
    number ([Number::toString], [toLocaleString]) is kept symbolic. *)
Inductive piece : Type :=
  | Lit (s : string)
  | Num (x : float)
  | Locale (x : float).

Definition ToString (v : option safeval) : piece :=
  match v with
  | Some (SafeNumber x) => Num x
  | Some (SafeBoolean true) => Lit "true"
  | Some (SafeBoolean false) => Lit "false"
  | None => Lit "undefined"
  end.

(** ** Static constants *)

Definition POINT_VALUES_min : float := 0.015.
Definition POINT_VALUES_max : float := 0.020.
Definition POINT_VALUES_avg : float := 0.0175.

Definition MULTIPLIERS_chaseTravel : float := 8.
Definition MULTIPLIERS_flightsHotels : float := 4.
Definition MULTIPLIERS_dining : float := 3.
Definition MULTIPLIERS_otherSpending : float := 1.

(** ** Data model *)

Module BenefitEntry.
Record t : Type := mk
  { value : float; min : float; max : float; details : list piece }.
End BenefitEntry.

(** An object whose properties are enumerated in insertion order. *)
Definition object (A : Type) : Type := list (string * A).

(** [o.k = v] : replaces the property in place, or appends it. *)
Fixpoint obj_set {A : Type} (k : string) (v : A) (o : object A) : object A :=
  match o with
  | [] => [(k, v)]
  | (k', v') :: o' =>
      if String.eqb k k' then (k, v) :: o' else (k', v') :: obj_set k v o'
  end.

Fixpoint obj_get {A : Type} (k : string) (o : object A) : option A :=
  match o with
  | [] => None
  | (k', v') :: o' => if String.eqb k k' then Some v' else obj_get k o'
  end.

(** [if (c) { o.k = v }] *)
Definition set_when {A : Type} (c : bool) (k : string) (v : A) (o : object A)
    : object A :=
  if c then obj_set k v o else o.

Definition Object_keys {A : Type} (o : object A) : list string := map fst o.
Definition Object_values {A : Type} (o : object A) : list A := map snd o.

Record ResultSet : Type := mkResultSet
  { totalValue : float;
    totalCost : float;
    roi : float;
    minROI : float;
    maxROI : float;
    breakdown : object BenefitEntry.t }.

(** The property names of the object literal [results]. *)
Definition ResultSet_keys : list string :=
  ["totalValue"; "totalCost"; "roi"; "minROI"; "maxROI"; "breakdown"].

(** ** Exceptions *)

Definition exn : Type := string.
Definition throws (A : Type) : Type := exn + A.
Definition throw {A : Type} (e : exn) : throws A := inl e.
Definition ret {A : Type} (a : A) : throws A := inr a.
Definition bind {A B : Type} (c : throws A) (k : A -> throws B) : throws B :=
  match c with
  | inl e => inl e
  | inr a => k a
  end.

Notation "'do' x <- c ; k" := (bind c (fun x => k))
  (at level 10, x name, c at level 100, k at level 200).

(** ** Validation helpers *)

Definition sanitize (value : jsval) : safeval :=
  match value with
  | JSNumber x => SafeNumber (if isNaN x || negb (isFinite x) then 0%float else x)
  | JSBoolean b => SafeBoolean b
  | _ => SafeNumber 0
  end.

(** [safe[key] = ...] creates the property [key] of [safe], but for the key
    ["__proto__"]: that assignment goes to the setter of [Object.prototype],
    which ignores a number or a boolean, and [safe] gets no such property. *)
Definition validateInputs (inputs : jsval) : throws (gmap string safeval) :=
  match inputs with
  | JSObject props => ret (sanitize <$> delete "__proto__" props)
  | _ => throw "Invalid inputs: must be an object"
  end.

Definition requiredKeys : list string :=
  ["totalValue"; "totalCost"; "roi"; "minROI"; "maxROI"; "breakdown"].

Definition isValidResults (results : ResultSet) : bool :=
  forallb (fun key => bool_decide (key ∈ ResultSet_keys)) requiredKeys.

(** ** The memoised spending total *)

(** [inputs.k] : a [TypeError] on [undefined] and [null]; a primitive has no
    such property. *)
Definition get_prop (o : jsval) (k : string) : throws jsval :=
  match o with
  | JSUndefined | JSNull => throw "TypeError"
  | JSObject props => ret (default JSUndefined (props !! k))
  | _ => ret JSUndefined
  end.

(** The primitive values: what the operands of [+] are converted to. *)
Inductive prim : Type :=
  | PUndefined
  | PNull
  | PBoolean (b : bool)
  | PNumber (x : float)
  | PString (s : string).

(** The conversions between texts and numbers are the language's own
    ([Number] on a string, [parseInt], [Number::toString]); so are the
    conversions of an object, which may run code of the object and throw.
    They are left open: the component is modelled for whatever these
    return. *)
Record Conversions : Type := mkConversions
  { StringToNumber : string -> float;
    parseInt : string -> float;
    NumberToString : float -> string;
    ObjectToNumber : gmap string jsval -> throws float;
    ObjectToPrimitive : gmap string jsval -> throws prim }.

(** [ToPrimitive], then [ToNumber] and [ToString] on a primitive. *)
Definition ToPrimitive (B : Conversions) (v : jsval) : throws prim :=
  match v with
  | JSUndefined => ret PUndefined
  | JSNull => ret PNull
  | JSBoolean b => ret (PBoolean b)
  | JSNumber x => ret (PNumber x)
  | JSString s => ret (PString s)
  | JSObject o => ObjectToPrimitive B o
  end.

Definition ToNumber_prim (B : Conversions) (p : prim) : float :=
  match p with
  | PUndefined => nan
  | PNull => 0%float
  | PBoolean b => if b then 1%float else 0%float
  | PNumber x => x
  | PString s => StringToNumber B s
  end.

Definition ToString_prim (B : Conversions) (p : prim) : string :=
  match p with
  | PUndefined => "undefined"
  | PNull => "null"
  | PBoolean b => if b then "true" else "false"
  | PNumber x => NumberToString B x
  | PString s => s
  end.

(** [l + r] on primitives: the concatenation of the texts if one of them is
    a text, the sum of the numbers otherwise. *)
Definition plus (B : Conversions) (l r : prim) : prim :=
  match l, r with
  | PString _, _ | _, PString _ => PString (ToString_prim B l ++ ToString_prim B r)
  | _, _ => PNumber (ToNumber_prim B l + ToNumber_prim B r)
  end.

(** [useMemo(() => { try { ... } catch { return 0 } }, [inputs.chaseTravel,
    ...])]: the dependency array is evaluated by the body of the component,
    outside the [try]; the callback then adds the four fields, left to
    right, and returns 0 for a total that [isNaN] or when a conversion
    throws. The total is a number, or a text. *)
Definition totalAnnualSpending (B : Conversions) (inputs : jsval) : throws prim :=
  do _ <- get_prop inputs "chaseTravel";
  do _ <- get_prop inputs "flightsHotels";
  do _ <- get_prop inputs "dining";
  do _ <- get_prop inputs "otherSpending";
  ret match
        (do a <- get_prop inputs "chaseTravel";
         do b <- get_prop inputs "flightsHotels";
         do a <- ToPrimitive B a;
         do b <- ToPrimitive B b;
         do c <- get_prop inputs "dining";
         do c <- ToPrimitive B c;
         do d <- get_prop inputs "otherSpending";
         do d <- ToPrimitive B d;
         let total := plus B (plus B (plus B a b) c) d in
         ret (if isNaN (ToNumber_prim B total) then PNumber 0 else total))
      with
      | inr total => total
      | inl _ => PNumber 0
      end.

(** [totalAnnualSpending >= 75000] *)
Definition qualifiesForHighSpender (B : Conversions) (inputs : jsval) : throws bool :=
  do total <- totalAnnualSpending B inputs;
  ret (75000 <=? ToNumber_prim B total)%float.

(** ** The valuation engine *)

(** The three [reduce] passes over [Object.values(breakdown)]. *)
Definition reduce_sum (field : BenefitEntry.t -> float)
    (benefitValues : list BenefitEntry.t) : float :=
  fold_left
    (fun sum benefit =>
       let value := num_or0 (field benefit) in
       (sum + (if isNaN value then 0 else value))%float)
    benefitValues 0%float.

Definition roi_of (v : float) : float :=
  if (0 <? v)%float then ((v - 795) / 795 * 100)%float else (-100)%float.

(** The object returned by the [catch] block. *)
Definition fallback : ResultSet :=
  {| totalValue := 0; totalCost := 795;
     roi := -100; minROI := -100; maxROI := -100;
     breakdown := [] |}.

(** The body of the [try] block of [calculateROI]; [qualifiesForHighSpender]
    is the memoised flag the callback closes over. *)
Definition calculateROI_try (inputs : jsval) (qualifiesForHighSpender : bool)
    : throws ResultSet :=
  do safeInputs <- validateInputs inputs;
  let breakdown : object BenefitEntry.t := [] in

  let totalPoints :=
    (ToNumber (safeInputs !! "chaseTravel") * MULTIPLIERS_chaseTravel
     + ToNumber (safeInputs !! "flightsHotels") * MULTIPLIERS_flightsHotels
     + ToNumber (safeInputs !! "dining") * MULTIPLIERS_dining
     + ToNumber (safeInputs !! "otherSpending") * MULTIPLIERS_otherSpending)%float in

  if isNaN totalPoints || negb (isFinite totalPoints)
  then throw "Invalid points calculation" else

  let pointsValue := (totalPoints * POINT_VALUES_avg)%float in

  let breakdown := obj_set "points"
    (BenefitEntry.mk pointsValue
       (totalPoints * POINT_VALUES_min)%float
       (totalPoints * POINT_VALUES_max)%float
       [Locale totalPoints; Lit " points earned"]) breakdown in

  let travelCredit :=
    Math_min (Math_max (ToNumber (or0 (safeInputs !! "travelCreditUsage"))) 0) 300 in
  let breakdown := obj_set "travelCredit"
    (BenefitEntry.mk travelCredit travelCredit travelCredit
       [Lit "$"; Num travelCredit; Lit " travel credit used"]) breakdown in

  let diningCreditValue :=
    Math_min (Math_max (ToNumber (or0 (safeInputs !! "diningCredit"))) 0) 300 in
  let breakdown := obj_set "diningCredit"
    (BenefitEntry.mk diningCreditValue diningCreditValue diningCreditValue
       [Lit "$"; Num diningCreditValue; Lit " annual dining credit"]) breakdown in

  let editCredit :=
    Math_min (Math_max (ToNumber (or0 (safeInputs !! "editStaysValue"))) 0) 500 in
  let breakdown :=
    set_when (0 <? editCredit)%float "editCredit"
      (BenefitEntry.mk editCredit editCredit editCredit
         [Lit "$"; Num editCredit; Lit " Edit stays credit"]) breakdown in

  let stubhubCredit :=
    Math_min (Math_max (ToNumber (or0 (safeInputs !! "stubhubSpending"))) 0) 300 in
  let breakdown :=
    set_when (0 <? stubhubCredit)%float "stubhubCredit"
      (BenefitEntry.mk stubhubCredit stubhubCredit stubhubCredit
         [Lit "$"; Num stubhubCredit; Lit " StubHub credit"]) breakdown in

  let dashpassValue := (ToNumber (or0 (safeInputs !! "dashpassUsage")) * 9.99)%float in
  let breakdown :=
    set_when (0 <? dashpassValue)%float "dashpass"
      (BenefitEntry.mk dashpassValue (dashpassValue * 0.5)%float dashpassValue
         [ToString (or0 (safeInputs !! "dashpassUsage")); Lit " months of DashPass"])
      breakdown in

  let restaurantCredits :=
    ((if ToBoolean (safeInputs !! "restaurantOrders") then 1 else 0) * 5 * 12)%float in
  let nonRestaurantCredits :=
    ((if ToBoolean (safeInputs !! "nonRestaurantOrders") then 2 else 0) * 10 * 12)%float in
  let totalDoorDashCredits := (restaurantCredits + nonRestaurantCredits)%float in
  let breakdown :=
    set_when (0 <? totalDoorDashCredits)%float "doorDashCredits"
      (BenefitEntry.mk totalDoorDashCredits (totalDoorDashCredits * 0.7)%float
         totalDoorDashCredits
         [Lit "DoorDash credits: $"; Num totalDoorDashCredits; Lit "/year"])
      breakdown in

  let lyftCredits :=
    Math_min (ToNumber (or0 (safeInputs !! "lyftRides")) * 10)%float 120 in
  let lyftBonusPoints := (ToNumber (or0 (safeInputs !! "lyftRides")) * 20 * 4)%float in
  let lyftTotal := (lyftCredits + lyftBonusPoints * POINT_VALUES_avg)%float in
  let breakdown :=
    set_when (0 <? lyftTotal)%float "lyft"
      (BenefitEntry.mk lyftTotal
         (lyftCredits + lyftBonusPoints * POINT_VALUES_min)%float
         (lyftCredits + lyftBonusPoints * POINT_VALUES_max)%float
         [Lit "Lyft credits and bonus points"]) breakdown in

  let pelotonValue := 0%float in
  let pelotonValue :=
    if ToBoolean (safeInputs !! "pelotonMembership")
    then (pelotonValue + 120)%float else pelotonValue in
  let pelotonValue :=
    if (0 <? ToNumber (safeInputs !! "pelotonEquipment"))%float then
      let bonusPoints :=
        (Math_min (ToNumber (safeInputs !! "pelotonEquipment")) 5000 * 9)%float in
      (pelotonValue + bonusPoints * POINT_VALUES_avg)%float
    else pelotonValue in
  let breakdown :=
    set_when (0 <? pelotonValue)%float "peloton"
      (BenefitEntry.mk pelotonValue (pelotonValue * 0.8)%float
         (pelotonValue * 1.2)%float [Lit "Peloton benefits"]) breakdown in

  let priorityPassValue :=
    (ToNumber (or0 (safeInputs !! "priorityPassVisits")) * 35)%float in
  let breakdown :=
    set_when (0 <? priorityPassValue)%float "priorityPass"
      (BenefitEntry.mk priorityPassValue (priorityPassValue * 0.5)%float
         (priorityPassValue * 1.5)%float
         [ToString (or0 (safeInputs !! "priorityPassVisits")); Lit " lounge visits"])
      breakdown in

  let globalEntryValue :=
    if ToBoolean (safeInputs !! "globalEntryValue") then 24%float else 0%float in
  let breakdown :=
    set_when (0 <? globalEntryValue)%float "globalEntry"
      (BenefitEntry.mk globalEntryValue globalEntryValue globalEntryValue
         [Lit "Global Entry credit ($120 every 5 years)"]) breakdown in

  let appleServicesValue :=
    if ToBoolean (safeInputs !! "appleServices")
    then ((6.99 + 10.99) * 12)%float else 0%float in
  let breakdown :=
    set_when (0 <? appleServicesValue)%float "appleServices"
      (BenefitEntry.mk appleServicesValue (appleServicesValue * 0.3)%float
         appleServicesValue [Lit "Apple TV+ and Apple Music"]) breakdown in

  let highSpenderValue := 0%float in
  let highSpenderValue :=
    if qualifiesForHighSpender then
      let highSpenderValue :=
        if ToBoolean (safeInputs !! "useShopsCredit")
        then (highSpenderValue + 250)%float else highSpenderValue in
      let highSpenderValue :=
        if ToBoolean (safeInputs !! "useSouthwestCredit")
        then (highSpenderValue + 500)%float else highSpenderValue in
      let highSpenderValue :=
        if ToBoolean (safeInputs !! "useIHGDiamond")
        then (highSpenderValue + 200)%float else highSpenderValue in
      if ToBoolean (safeInputs !! "useSouthwestAList")
      then (highSpenderValue + 150)%float else highSpenderValue
    else highSpenderValue in

  let breakdown :=
    set_when (0 <? highSpenderValue)%float "highSpender"
      (BenefitEntry.mk highSpenderValue (highSpenderValue * 0.8)%float
         (highSpenderValue * 1.2)%float
         [Lit "High spender benefits: $"; Num highSpenderValue; Lit " selected"])
      breakdown in

  let benefitValues := Object_values breakdown in
  let totalValue := reduce_sum BenefitEntry.value benefitValues in
  let minValue := reduce_sum BenefitEntry.min benefitValues in
  let maxValue := reduce_sum BenefitEntry.max benefitValues in

  let roi := roi_of totalValue in
  let minROI := roi_of minValue in
  let maxROI := roi_of maxValue in

  let results :=
    {| totalValue := if isNaN totalValue then 0%float else totalValue;
       totalCost := 795;
       roi := if isNaN roi then (-100)%float else roi;
       minROI := if isNaN minROI then (-100)%float else minROI;
       maxROI := if isNaN maxROI then (-100)%float else maxROI;
       breakdown := breakdown |} in

  if negb (isValidResults results)
  then throw "Invalid calculation results structure" else
  ret results.

(** [calculateROI]: the [try] block, and the [catch] block's fallback. *)
Definition calculateROI (inputs : jsval) (qualifiesForHighSpender : bool)
    : ResultSet :=
  match calculateROI_try inputs qualifiesForHighSpender with
  | inr results => results
  | inl _ => fallback
  end.

(** The results of the component for a state [inputs]: the flag memoised
    while it renders, then the callback, run by the effect. *)
Definition compute (B : Conversions) (inputs : jsval) : throws ResultSet :=
  do qualifies <- qualifiesForHighSpender B inputs;
  ret (calculateROI inputs qualifies).

(** ** Input profiles *)

(** The initial state of the component. *)
Definition defaultInputs : gmap string jsval :=
  list_to_map
    [ ("chaseTravel", JSNumber 0); ("flightsHotels", JSNumber 0);
      ("dining", JSNumber 0); ("otherSpending", JSNumber 0);
      ("travelCreditUsage", JSNumber 300); ("editStaysValue", JSNumber 0);
      ("stubhubSpending", JSNumber 0); ("diningCredit", JSNumber 300);
      ("dashpassUsage", JSNumber 12);
      ("restaurantOrders", JSBoolean false);
      ("nonRestaurantOrders", JSBoolean false);
      ("lyftRides", JSNumber 0); ("pelotonMembership", JSBoolean false);
      ("pelotonEquipment", JSNumber 0); ("appleServices", JSBoolean false);
      ("priorityPassVisits", JSNumber 0); ("globalEntryValue", JSBoolean false);
      ("useShopsCredit", JSBoolean false); ("useSouthwestCredit", JSBoolean false);
      ("useIHGDiamond", JSBoolean false); ("useSouthwestAList", JSBoolean false) ].

Definition with_fields (fs : list (string * jsval)) (m : gmap string jsval)
    : gmap string jsval :=
  fold_right (fun kv acc => <[kv.1 := kv.2]> acc) m fs.

Definition entry_values (e : BenefitEntry.t) : float * float * float :=
  (BenefitEntry.value e, BenefitEntry.min e, BenefitEntry.max e).

(** ** The engine, block by block

    The same computation cut into its blocks: the point total, the entry each
    block may add to [breakdown] (with the condition of its [if]), and the
    aggregation. [calculateROI_try_blocks] below shows that this is the
    callback's [try] block. *)

Definition totalPoints_of (safeInputs : gmap string safeval) : float :=
  (ToNumber (safeInputs !! "chaseTravel") * MULTIPLIERS_chaseTravel
   + ToNumber (safeInputs !! "flightsHotels") * MULTIPLIERS_flightsHotels
   + ToNumber (safeInputs !! "dining") * MULTIPLIERS_dining
   + ToNumber (safeInputs !! "otherSpending") * MULTIPLIERS_otherSpending)%float.

Definition points_entry (totalPoints : float) : BenefitEntry.t :=
  BenefitEntry.mk (totalPoints * POINT_VALUES_avg)%float
    (totalPoints * POINT_VALUES_min)%float
    (totalPoints * POINT_VALUES_max)%float
    [Locale totalPoints; Lit " points earned"].

(** [Math.min(Math.max(v || 0, 0), cap)] *)
Definition clamp_credit (v : option safeval) (cap : float) : float :=
  Math_min (Math_max (ToNumber (or0 v)) 0) cap.

Definition exact_entry (x : float) (details : list piece) : BenefitEntry.t :=
  BenefitEntry.mk x x x details.

Definition lyftCredits_of (v : option safeval) : float :=
  Math_min (ToNumber (or0 v) * 10)%float 120.
Definition lyftBonusPoints_of (v : option safeval) : float :=
  (ToNumber (or0 v) * 20 * 4)%float.

Definition pelotonValue_of (membership equipment : option safeval) : float :=
  let pelotonValue := 0%float in
  let pelotonValue :=
    if ToBoolean membership then (pelotonValue + 120)%float else pelotonValue in
  if (0 <? ToNumber equipment)%float then
    (pelotonValue + Math_min (ToNumber equipment) 5000 * 9 * POINT_VALUES_avg)%float
  else pelotonValue.

Definition doorDash_of (restaurant nonRestaurant : option safeval) : float :=
  ((if ToBoolean restaurant then 1 else 0) * 5 * 12
   + (if ToBoolean nonRestaurant then 2 else 0) * 10 * 12)%float.

Definition highSpenderValue_of (qualifies : bool)
    (shops southwest ihg alist : option safeval) : float :=
  let v := 0%float in
  if qualifies then
    let v := if ToBoolean shops then (v + 250)%float else v in
    let v := if ToBoolean southwest then (v + 500)%float else v in
    let v := if ToBoolean ihg then (v + 200)%float else v in
    if ToBoolean alist then (v + 150)%float else v
  else v.

(** A block of the callback: whether it adds its entry, and the entry. *)
Definition block : Type := bool * (string * BenefitEntry.t).

Definition blocks (safeInputs : gmap string safeval) (qualifies : bool)
    : list block :=
  let travelCredit := clamp_credit (safeInputs !! "travelCreditUsage") 300 in
  let diningCreditValue := clamp_credit (safeInputs !! "diningCredit") 300 in
  let editCredit := clamp_credit (safeInputs !! "editStaysValue") 500 in
  let stubhubCredit := clamp_credit (safeInputs !! "stubhubSpending") 300 in
  let dashpassValue :=
    (ToNumber (or0 (safeInputs !! "dashpassUsage")) * 9.99)%float in
  let totalDoorDashCredits :=
    doorDash_of (safeInputs !! "restaurantOrders")
      (safeInputs !! "nonRestaurantOrders") in
  let lyftCredits := lyftCredits_of (safeInputs !! "lyftRides") in
  let lyftBonusPoints := lyftBonusPoints_of (safeInputs !! "lyftRides") in
  let lyftTotal := (lyftCredits + lyftBonusPoints * POINT_VALUES_avg)%float in
  let pelotonValue :=
    pelotonValue_of (safeInputs !! "pelotonMembership")
      (safeInputs !! "pelotonEquipment") in
  let priorityPassValue :=
    (ToNumber (or0 (safeInputs !! "priorityPassVisits")) * 35)%float in
  let globalEntryValue :=
    if ToBoolean (safeInputs !! "globalEntryValue") then 24%float else 0%float in
  let appleServicesValue :=
    if ToBoolean (safeInputs !! "appleServices")
    then ((6.99 + 10.99) * 12)%float else 0%float in
  let highSpenderValue :=
    highSpenderValue_of qualifies (safeInputs !! "useShopsCredit")
      (safeInputs !! "useSouthwestCredit") (safeInputs !! "useIHGDiamond")
      (safeInputs !! "useSouthwestAList") in
  [ (true, ("points", points_entry (totalPoints_of safeInputs)));
    (true, ("travelCredit",
            exact_entry travelCredit
              [Lit "$"; Num travelCredit; Lit " travel credit used"]));
    (true, ("diningCredit",
            exact_entry diningCreditValue
              [Lit "$"; Num diningCreditValue; Lit " annual dining credit"]));
    ((0 <? editCredit)%float,
     ("editCredit",
      exact_entry editCredit [Lit "$"; Num editCredit; Lit " Edit stays credit"]));
    ((0 <? stubhubCredit)%float,
     ("stubhubCredit",
      exact_entry stubhubCredit
        [Lit "$"; Num stubhubCredit; Lit " StubHub credit"]));
    ((0 <? dashpassValue)%float,
     ("dashpass",
      BenefitEntry.mk dashpassValue (dashpassValue * 0.5)%float dashpassValue
        [ToString (or0 (safeInputs !! "dashpassUsage"));
         Lit " months of DashPass"]));
    ((0 <? totalDoorDashCredits)%float,
     ("doorDashCredits",
      BenefitEntry.mk totalDoorDashCredits (totalDoorDashCredits * 0.7)%float
        totalDoorDashCredits
        [Lit "DoorDash credits: $"; Num totalDoorDashCredits; Lit "/year"]));
    ((0 <? lyftTotal)%float,
     ("lyft",
      BenefitEntry.mk lyftTotal
        (lyftCredits + lyftBonusPoints * POINT_VALUES_min)%float
        (lyftCredits + lyftBonusPoints * POINT_VALUES_max)%float
        [Lit "Lyft credits and bonus points"]));
    ((0 <? pelotonValue)%float,
     ("peloton",
      BenefitEntry.mk pelotonValue (pelotonValue * 0.8)%float
        (pelotonValue * 1.2)%float [Lit "Peloton benefits"]));
    ((0 <? priorityPassValue)%float,
     ("priorityPass",
      BenefitEntry.mk priorityPassValue (priorityPassValue * 0.5)%float
        (priorityPassValue * 1.5)%float
        [ToString (or0 (safeInputs !! "priorityPassVisits"));
         Lit " lounge visits"]));
    ((0 <? globalEntryValue)%float,
     ("globalEntry",
      exact_entry globalEntryValue
        [Lit "Global Entry credit ($120 every 5 years)"]));
    ((0 <? appleServicesValue)%float,
     ("appleServices",
      BenefitEntry.mk appleServicesValue (appleServicesValue * 0.3)%float
        appleServicesValue [Lit "Apple TV+ and Apple Music"]));
    ((0 <? highSpenderValue)%float,
     ("highSpender",
      BenefitEntry.mk highSpenderValue (highSpenderValue * 0.8)%float
        (highSpenderValue * 1.2)%float
        [Lit "High spender benefits: $"; Num highSpenderValue;
         Lit " selected"])) ].

Definition run_blocks (bs : list block) (breakdown : object BenefitEntry.t)
    : object BenefitEntry.t :=
  fold_left (fun bd (b : block) => set_when b.1 b.2.1 b.2.2 bd) bs breakdown.

(** The entries of the blocks whose condition holds, in order. *)
Definition taken (bs : list block) : object BenefitEntry.t :=
  map snd (List.filter (fun b : block => b.1) bs).

Definition guardNaN (x d : float) : float := if isNaN x then d else x.

Definition assemble (breakdown : object BenefitEntry.t) : ResultSet :=
  let benefitValues := Object_values breakdown in
  let totalValue := reduce_sum BenefitEntry.value benefitValues in
  let minValue := reduce_sum BenefitEntry.min benefitValues in
  let maxValue := reduce_sum BenefitEntry.max benefitValues in
  {| totalValue := guardNaN totalValue 0;
     totalCost := 795;
     roi := guardNaN (roi_of totalValue) (-100);
     minROI := guardNaN (roi_of minValue) (-100);
     maxROI := guardNaN (roi_of maxValue) (-100);
     breakdown := breakdown |}.

(** The unguarded sum of a column of the breakdown, in enumeration order. *)
Definition float_sum (l : list float) : float :=
  fold_left (fun sum x => (sum + x)%float) l 0%float.

Definition column (field : BenefitEntry.t -> float) (r : ResultSet) : list float :=
  map field (Object_values (breakdown r)).

(** The initial state with every field at zero or false. *)
Definition zeroInputs : gmap string jsval :=
  with_fields
    [("travelCreditUsage", JSNumber 0); ("diningCredit", JSNumber 0);
     ("dashpassUsage", JSNumber 0)] defaultInputs.

(** The keys of a breakdown with the three numbers of each entry. *)
Definition entries (r : ResultSet) : list (string * (float * float * float)) :=
  map (fun kv => (kv.1, entry_values kv.2)) (breakdown r).

Definition is_object (inputs : jsval) : bool :=
  match inputs with JSObject _ => true | _ => false end.

(** The four spending fields, and the profiles in which none of them holds a
    negative number. *)
Definition spending_keys : list string :=
  ["chaseTravel"; "flightsHotels"; "dining"; "otherSpending"].

Definition no_negative_spending (props : gmap string jsval) : bool :=
  forallb
    (fun k =>
       match props !! k with
       | Some (JSNumber x) => negb (x <? 0)%float
       | _ => true
       end)
    spending_keys.

(** Inputs whose spending fields, if any, hold no negative number. *)
Definition spending_not_negative (inputs : jsval) : bool :=
  match inputs with
  | JSObject props => no_negative_spending props
  | _ => true
  end.

(** A value that [+] reads as a number: not a text, and not an object, which
    may convert to a text. *)
Definition adds_as_number (v : jsval) : bool :=
  match v with JSString _ | JSObject _ => false | _ => true end.

(** No spending field of the object holds a text or an object. *)
Definition spending_adds_as_numbers (props : gmap string jsval) : bool :=
  forallb (fun k => adds_as_number (default JSUndefined (props !! k))) spending_keys.

(** The spending total of the profile once sanitized. *)
Definition sanitizedSpending (props : gmap string jsval) : float :=
  let safeInputs := sanitize <$> props in
  (ToNumber (safeInputs !! "chaseTravel") + ToNumber (safeInputs !! "flightsHotels")
   + ToNumber (safeInputs !! "dining") + ToNumber (safeInputs !! "otherSpending"))%float.

(** The band of an entry is in order. *)
Definition band_ordered (e : BenefitEntry.t) : bool :=
  (BenefitEntry.min e <=? BenefitEntry.value e)%float
  && (BenefitEntry.value e <=? BenefitEntry.max e)%float.

(** The point total as a function of the four spending numbers. *)
Definition points_formula (a b c d : float) : float :=
  (a * MULTIPLIERS_chaseTravel + b * MULTIPLIERS_flightsHotels
   + c * MULTIPLIERS_dining + d * MULTIPLIERS_otherSpending)%float.

Definition block_keys (bs : list block) : list string :=
  map (fun b : block => b.2.1) bs.


(** ** The component around the engine *)

(** The property names the engine reads from [safeInputs]. *)
Definition engine_keys : list string :=
  ["chaseTravel"; "flightsHotels"; "dining"; "otherSpending";
   "travelCreditUsage"; "diningCredit"; "editStaysValue"; "stubhubSpending";
   "dashpassUsage"; "restaurantOrders"; "nonRestaurantOrders"; "lyftRides";
   "pelotonMembership"; "pelotonEquipment"; "priorityPassVisits";
   "globalEntryValue"; "appleServices"; "useShopsCredit"; "useSouthwestCredit";
   "useIHGDiamond"; "useSouthwestAList"].

(** A property of the object [safe] read back as a value of the language. *)
Definition to_js (v : safeval) : jsval :=
  match v with
  | SafeNumber x => JSNumber x
  | SafeBoolean b => JSBoolean b
  end.

(** The keys of the entries that every breakdown of the [try] block starts
    with, and those of the entries that are added under a condition. *)
Definition always_keys : list string := ["points"; "travelCredit"; "diningCredit"].

Definition optional_keys : list string :=
  ["editCredit"; "stubhubCredit"; "dashpass"; "doorDashCredits"; "lyft";
   "peloton"; "priorityPass"; "globalEntry"; "appleServices"; "highSpender"].

(** The four credits: the key of the entry, the field it is read from and
    its cap. *)
Definition credit_caps : list (string * (string * float)) :=
  [("travelCredit", ("travelCreditUsage", 300%float));
   ("diningCredit", ("diningCredit", 300%float));
   ("editCredit", ("editStaysValue", 500%float));
   ("stubhubCredit", ("stubhubSpending", 300%float))].

(** *** Conversions *)

(** [ToBoolean] on any value: what [!v] and [v ? a : b] test. *)
Definition truthy (v : jsval) : bool :=
  match v with
  | JSUndefined | JSNull => false
  | JSBoolean b => b
  | JSNumber x => negb (is_zero x || is_nan x)
  | JSString s => negb (String.eqb s "")
  | JSObject _ => true
  end.

(** [Number(value)] *)
Definition Number (B : Conversions) (value : jsval) : throws float :=
  match value with
  | JSUndefined => ret nan
  | JSNull => ret 0%float
  | JSBoolean b => ret (if b then 1%float else 0%float)
  | JSNumber x => ret x
  | JSString s => ret (StringToNumber B s)
  | JSObject o => ObjectToNumber B o
  end.

(** *** The event handler *)

(** [handleInputChange(field, value)] followed by the state update
    [setInputs(prev => ({...prev, [field]: value}))]; an exception is
    caught and leaves the state as it is. *)
Definition handleInputChange (B : Conversions) (field : string) (value : jsval)
    (inputs : gmap string jsval) : gmap string jsval :=
  match
    (do value <-
       (if bool_decide (field ∈ spending_keys) then
          do numValue <- Number B value;
          ret (JSNumber (if isNaN numValue then 0%float else numValue))
        else ret value);
     ret (<[field := value]> inputs))
  with
  | inr inputs' => inputs'
  | inl _ => inputs
  end.

(** *** The widgets *)

(** The four lists of items the form is rendered from, with the [max] of the
    items that have one. *)
Definition highSpender_items : list string :=
  ["useShopsCredit"; "useSouthwestCredit"; "useIHGDiamond"; "useSouthwestAList"].

Definition travel_items : list (string * option float) :=
  [("travelCreditUsage", Some 300%float); ("diningCredit", Some 300%float);
   ("editStaysValue", None); ("stubhubSpending", None);
   ("priorityPassVisits", None)].

Definition service_items : list (string * option float) :=
  [("dashpassUsage", Some 12%float); ("lyftRides", None);
   ("pelotonEquipment", None)].

Definition service_toggles : list string :=
  ["restaurantOrders"; "nonRestaurantOrders"; "pelotonMembership"; "appleServices"].

(** The check boxes that are always rendered. *)
Definition plain_toggles : list string := "globalEntryValue" :: service_toggles.

(** [item.max ? Math.min(item.max, value) : value] *)
Definition capped (max : option float) (value : float) : float :=
  match max with
  | Some m => if truthy (JSNumber m) then Math_min m value else value
  | None => value
  end.

(** [onChange] of a spending field: the text goes to the handler as it is. *)
Definition spending_onChange (B : Conversions) (key text : string)
    (inputs : gmap string jsval) : gmap string jsval :=
  handleInputChange B key (JSString text) inputs.

(** [onClick] of a check box: [handleInputChange(key, !inputs[key])]. *)
Definition toggle_onClick (B : Conversions) (key : string)
    (inputs : gmap string jsval) : gmap string jsval :=
  handleInputChange B key
    (JSBoolean (negb (truthy (default JSUndefined (inputs !! key))))) inputs.

(** [onChange] of a travel benefit field: [parseInt(text) || 0], capped. *)
Definition travel_onChange (B : Conversions) (key : string) (max : option float)
    (text : string) (inputs : gmap string jsval) : gmap string jsval :=
  let value := num_or0 (parseInt B text) in
  handleInputChange B key (JSNumber (capped max value)) inputs.

(** [onChange] of a service field: [Number(text) || 0], capped. *)
Definition service_onChange (B : Conversions) (key : string) (max : option float)
    (text : string) (inputs : gmap string jsval) : gmap string jsval :=
  let value := num_or0 (StringToNumber B text) in
  handleInputChange B key (JSNumber (capped max value)) inputs.

(** What the user can do to the form. *)
Inductive event : Type :=
  | SpendingText (key text : string)
  | TravelText (key text : string)
  | ServiceText (key text : string)
  | Toggle (key : string).

Fixpoint item_max (items : list (string * option float)) (key : string)
    : option (option float) :=
  match items with
  | [] => None
  | (k, m) :: items' => if String.eqb key k then Some m else item_max items' key
  end.

(** The state after an event. An event on a widget that is not rendered
    changes nothing: the high-spender check boxes are rendered only when
    [qualifiesForHighSpender] holds. *)
Definition step (B : Conversions) (inputs : gmap string jsval) (ev : event)
    : gmap string jsval :=
  match ev with
  | SpendingText key text =>
      if bool_decide (key ∈ spending_keys)
      then spending_onChange B key text inputs else inputs
  | TravelText key text =>
      match item_max travel_items key with
      | Some max => travel_onChange B key max text inputs
      | None => inputs
      end
  | ServiceText key text =>
      match item_max service_items key with
      | Some max => service_onChange B key max text inputs
      | None => inputs
      end
  | Toggle key =>
      if bool_decide (key ∈ plain_toggles) then toggle_onClick B key inputs
      else if bool_decide (key ∈ highSpender_items) then
        match qualifiesForHighSpender B (JSObject inputs) with
        | inr true => toggle_onClick B key inputs
        | _ => inputs
        end
      else inputs
  end.

Definition run (B : Conversions) (evs : list event) (inputs : gmap string jsval)
    : gmap string jsval :=
  fold_left (step B) evs inputs.

(** The shape of the state: the spending fields hold numbers that are not
    NaN, the other text fields numbers that are not NaN and not above their
    [max], the check boxes booleans. *)
Definition holds_number (bound : option float) (inputs : gmap string jsval)
    (key : string) : bool :=
  match inputs !! key with
  | Some (JSNumber x) =>
      negb (is_nan x)
      && match bound with Some m => (x <=? m)%float | None => true end
  | _ => false
  end.

Definition holds_boolean (inputs : gmap string jsval) (key : string) : bool :=
  match inputs !! key with
  | Some (JSBoolean _) => true
  | _ => false
  end.

Definition well_formed (inputs : gmap string jsval) : bool :=
  forallb (holds_number None inputs) spending_keys
  && forallb (fun it : string * option float => holds_number it.2 inputs it.1)
       (travel_items ++ service_items)
  && forallb (holds_boolean inputs) (highSpender_items ++ plain_toggles).

(** The fields a benefit is entered in, and a value of such a field that is
    raised: a finite number to a finite number that is not smaller, a check
    box that is ticked or left as it is. *)
Definition number_fields : list string := map fst (travel_items ++ service_items).

Definition toggle_fields : list string := highSpender_items ++ plain_toggles.

Definition field_le (k : string) (v v' : jsval) : bool :=
  match v, v' with
  | JSNumber x, JSNumber y =>
      bool_decide (k ∈ number_fields) && is_finite x && is_finite y
      && (x <=? y)%float
  | JSBoolean a, JSBoolean b => bool_decide (k ∈ toggle_fields) && implb a b
  | _, _ => false
  end.

(** Conversions that read every text as the same number, for examples. *)
Definition constant_conversions (x : float) : Conversions :=
  {| StringToNumber := fun _ => x;
     parseInt := fun _ => x;
     NumberToString := fun _ => "0";
     ObjectToNumber := fun _ => throw "TypeError";
     ObjectToPrimitive := fun _ => throw "TypeError" |}.

(** *** What is rendered from the results *)

(** [results.roi > 0], which selects RECOMMENDED and NET BENEFIT, and
    [results.totalValue - 795 > 0], which selects the colour of the net
    value. *)
Definition recommended (results : ResultSet) : bool := (0 <? roi results)%float.

Definition recommendation (results : ResultSet) : string :=
  if recommended results then "RECOMMENDED" else "NOT RECOMMENDED".

Definition netValue (results : ResultSet) : float := (totalValue results - 795)%float.

Definition netValue_positive (results : ResultSet) : bool :=
  (0 <? netValue results)%float.

(** The label of a breakdown row:
    [key === 'highSpender' ? 'HIGH SPENDER'
       : key.replace(/([A-Z])/g, ' $1').trim().toUpperCase()],
    on texts of ASCII characters, which the keys of the breakdown are. *)
Definition is_capital (c : Ascii.ascii) : bool :=
  (65 <=? Ascii.nat_of_ascii c)%nat && (Ascii.nat_of_ascii c <=? 90)%nat.

Definition is_small (c : Ascii.ascii) : bool :=
  (97 <=? Ascii.nat_of_ascii c)%nat && (Ascii.nat_of_ascii c <=? 122)%nat.

Definition is_whitespace (c : Ascii.ascii) : bool :=
  let n := Ascii.nat_of_ascii c in
  ((9 <=? n)%nat && (n <=? 13)%nat) || (n =? 32)%nat.

Fixpoint replace_capitals (s : string) : string :=
  match s with
  | EmptyString => EmptyString
  | String c s' =>
      if is_capital c then String Ascii.Space (String c (replace_capitals s'))
      else String c (replace_capitals s')
  end.

Fixpoint trimStart (s : string) : string :=
  match s with
  | EmptyString => EmptyString
  | String c s' => if is_whitespace c then trimStart s' else s
  end.

Fixpoint string_rev_onto (s acc : string) : string :=
  match s with
  | EmptyString => acc
  | String c s' => string_rev_onto s' (String c acc)
  end.

Definition string_rev (s : string) : string := string_rev_onto s EmptyString.

Definition trim (s : string) : string :=
  string_rev (trimStart (string_rev (trimStart s))).

Definition upper_char (c : Ascii.ascii) : Ascii.ascii :=
  if is_small c then Ascii.ascii_of_nat (Ascii.nat_of_ascii c - 32) else c.

Fixpoint toUpperCase (s : string) : string :=
  match s with
  | EmptyString => EmptyString
  | String c s' => String (upper_char c) (toUpperCase s')
  end.

Definition label (key : string) : string :=
  if String.eqb key "highSpender" then "HIGH SPENDER"
  else toUpperCase (trim (replace_capitals key)).

Fixpoint count_chars (p : Ascii.ascii -> bool) (s : string) : nat :=
  match s with
  | EmptyString => 0
  | String c s' => (if p c then 1 else 0) + count_chars p s'
  end.

Fixpoint remove_chars (p : Ascii.ascii -> bool) (s : string) : string :=
  match s with
  | EmptyString => EmptyString
  | String c s' => if p c then remove_chars p s' else String c (remove_chars p s')
  end.

Fixpoint all_chars (p : Ascii.ascii -> bool) (s : string) : bool :=
  match s with
  | EmptyString => true
  | String c s' => p c && all_chars p s'
  end.

Definition is_space (c : Ascii.ascii) : bool := (Ascii.nat_of_ascii c =? 32)%nat.

Definition is_letter (c : Ascii.ascii) : bool := is_capital c || is_small c.

(** ** Binary64 arithmetic: definitions *)

Section BinaryFloatDefinitions.
Local Open Scope Z_scope.

(** The rounding of [SpecFloat] at the binary64 parameters. *)
Definition bra := binary_round_aux prec emax.

Definition sf_shape (s : bool) (x : spec_float) : Prop :=
  match x with
  | S754_zero s' | S754_infinity s' | S754_finite s' _ _ => s' = s
  | S754_nan => False
  end.

(** *** Classes of values *)

Definition sf_nonnan (x : spec_float) : Prop :=
  match x with S754_nan => False | _ => True end.

Definition sf_pos (x : spec_float) : Prop :=
  match x with
  | S754_finite false _ _ | S754_infinity false => True
  | _ => False
  end.

Definition sf_nonneg (x : spec_float) : Prop :=
  match x with
  | S754_zero _ | S754_finite false _ _ | S754_infinity false => True
  | _ => False
  end.

Definition sf_nonpos (x : spec_float) : Prop :=
  match x with
  | S754_zero _ | S754_finite true _ _ | S754_infinity true => True
  | _ => False
  end.

Definition sf_finite (x : spec_float) : Prop :=
  match x with
  | S754_zero _ | S754_finite _ _ _ => True
  | _ => False
  end.

(** *** Rounding to nearest, ties to even, on integers *)

(** [rne_h m h] rounds [m / (2 * h)] to the nearest integer, a tie going to the
    even one; [rne m k] drops [k] bits of [m] in this way. *)
Definition rne_h (m h : Z) : Z :=
  let q := m / (2 * h) in
  let r := m mod (2 * h) in
  if r <? h then q else if h <? r then q + 1
  else if Z.even q then q else q + 1.

Definition rne (m k : Z) : Z :=
  if k <=? 0 then m else rne_h m (2 ^ (k - 1)).

(** After [k >= 1] steps from [(m, false, false)]: the quotient, the bit just
    below it, and whether anything is left below that bit. *)
Definition shr_inv (m k : Z) (mrs : shr_record) : Prop :=
  0 <= shr_m mrs /\
  exists t, 0 <= t < 2 ^ (k - 1) /\
    m = shr_m mrs * 2 ^ k + Z.b2z (shr_r mrs) * 2 ^ (k - 1) + t /\
    shr_s mrs = negb (t =? 0).

(** *** The result of rounding an exact mantissa *)

(** The float made of a rounded mantissa [q] at exponent [e1]: a mantissa that
    reached [2^53] by rounding is renormalised, and a result too large is an
    infinity. *)
Definition sf_make (s : bool) (q e1 : Z) : spec_float :=
  if q =? 0 then S754_zero s
  else if q =? 9007199254740992 then
    if e1 + 1 <=? 971 then S754_finite s 4503599627370496 (e1 + 1)
    else S754_infinity s
  else if e1 <=? 971 then S754_finite s (Z.to_pos q) e1
  else S754_infinity s.

(** *** Values as integers *)

(** A finite binary64 number is an integral multiple of [2^-1074]; [ival]
    is that multiple, and the infinities sit just above the largest finite
    number. *)
Definition ival_inf : Z := 2 ^ 2098.

Definition ival (x : spec_float) : Z :=
  match x with
  | S754_zero _ => 0
  | S754_infinity s => cond_Zopp s ival_inf
  | S754_nan => 0
  | S754_finite s m e => cond_Zopp s (Z.pos m * 2 ^ (e + 1074))
  end.

(** The value [N * 2^E] rounded to binary64, in units of [2^-1074]: [dropped_bits] bits
    of [N] are dropped. *)
Definition dropped_bits (E N : Z) : Z := Z.max (Zdigits2 N + E - 53) (-1074) - E.

Definition rounded (E N : Z) : Z := rne N (dropped_bits E N) * 2 ^ (dropped_bits E N + E + 1074).

Definition round_int (E N : Z) : Z :=
  match N with
  | 0 => 0
  | Z.pos _ => Z.min (rounded E N) ival_inf
  | Z.neg p => - Z.min (rounded E (Z.pos p)) ival_inf
  end.

(** *** Constants and classes of primitive numbers *)

(** A literal that is a positive finite number. *)
Definition is_pos_const (c : float) : bool :=
  match Prim2SF c with S754_finite false _ _ => true | _ => false end.

Definition fl_nonnan (x : float) : Prop := sf_nonnan (Prim2SF x).
Definition fl_nonneg (x : float) : Prop := sf_nonneg (Prim2SF x).
Definition fl_nonpos (x : float) : Prop := sf_nonpos (Prim2SF x).
Definition fl_finite (x : float) : Prop := sf_finite (Prim2SF x).
(** Not NaN and with the sign bit clear: [+0], positive, or [+Infinity]. *)
Definition fl_plus (x : float) : Prop := sf_shape false (Prim2SF x).

(** *** Rounding a quotient *)

(** A shift record that stands for the rational [a / (2 * h)]: its mantissa
    is the integer part, its round bit tells whether the rest reaches one
    half, its sticky bit whether anything is left beyond. *)
Definition shr_rat (a h : Z) (mrs : shr_record) : Prop :=
  0 <= shr_m mrs /\
  exists t, 0 <= t < h /\
    a = shr_m mrs * (2 * h) + Z.b2z (shr_r mrs) * h + t /\
    shr_s mrs = negb (t =? 0).

(** The quotient [p / d], in units of [2^-1074], rounded to binary64:
    [quot_bits] bits of its integer part are dropped. *)
Definition quot_bits (p d : Z) : Z := Z.max (Zdigits2 (p / d) - 53) 0.

Definition rounded_quot (p d : Z) : Z :=
  rne_h (2 * p) (d * 2 ^ quot_bits p d) * 2 ^ quot_bits p d.

Definition round_quot (x y : Z) : Z :=
  match x with
  | 0 => 0
  | Z.pos _ => Z.min (rounded_quot (x * 2 ^ 1074) y) ival_inf
  | Z.neg p => - Z.min (rounded_quot (Z.pos p * 2 ^ 1074) y) ival_inf
  end.

(** *** Running sums *)

(** What a running sum can be: not NaN, not [-0], not [-Infinity]. *)
Definition sf_acc (x : spec_float) : Prop :=
  match x with
  | S754_zero false | S754_finite _ _ _ | S754_infinity false => True
  | _ => False
  end.

Definition fl_acc (x : float) : Prop := sf_acc (Prim2SF x).

End BinaryFloatDefinitions.

(** ** Properties of breakdown entries *)

(** The three numbers of an entry are not negative (and so are not NaN). *)
Definition entry_nonneg (e : BenefitEntry.t) : Prop :=
  fl_nonneg (BenefitEntry.value e) /\ fl_nonneg (BenefitEntry.min e)
  /\ fl_nonneg (BenefitEntry.max e).

Definition entry_finite (e : BenefitEntry.t) : Prop :=
  fl_finite (BenefitEntry.value e) /\ fl_finite (BenefitEntry.min e)
  /\ fl_finite (BenefitEntry.max e).

Definition entry_nonnan (e : BenefitEntry.t) : Prop :=
  fl_nonnan (BenefitEntry.value e) /\ fl_nonnan (BenefitEntry.min e)
  /\ fl_nonnan (BenefitEntry.max e).

(** NaN, or not negative: what a spending field of a profile without negative
    spending contributes. *)
Definition nan_or_nonneg (x : float) : Prop := is_nan x = true \/ fl_nonneg x.

(** What a block adds to the total: the value of its entry, if it runs. *)
Definition contribution (b : block) : float :=
  if b.1 then BenefitEntry.value b.2.2 else 0%float.

(** A block that adds no more than another one. *)
Definition block_le (b b' : block) : Prop :=
  b = b' \/ (contribution b <=? contribution b')%float = true.

(** ** Ranges of the numbers of a result *)





(** Neither NaN nor [-Infinity]. *)
Definition above_neg_infinity (x : float) : bool := (neg_infinity <? x)%float.







(** ** Basic facts about the model *)

Lemma calculateROI_try_blocks (props : gmap string jsval) (qualifies : bool) :
  calculateROI_try (JSObject props) qualifies =
  let safeInputs := sanitize <$> delete "__proto__" props in
  let totalPoints := totalPoints_of safeInputs in
  if isNaN totalPoints || negb (isFinite totalPoints)
  then throw "Invalid points calculation"
  else ret (assemble (run_blocks (blocks safeInputs qualifies) [])).
Proof.
  cbv beta iota zeta delta
    [calculateROI_try validateInputs bind ret throw run_blocks blocks fold_left
     assemble fst snd totalPoints_of points_entry clamp_credit exact_entry
     lyftCredits_of lyftBonusPoints_of pelotonValue_of doorDash_of
     highSpenderValue_of guardNaN].
  reflexivity.
Qed.


Lemma calculateROI_not_object (inputs : jsval) (qualifies : bool) :
  (forall props, inputs <> JSObject props) ->
  calculateROI inputs qualifies = fallback.
Proof.
  intros Hno. destruct inputs; try reflexivity. now destruct (Hno props).
Qed.

(** The blocks of the engine are the same for two sanitized objects that
    agree on the properties the engine reads; without the high-spender
    qualification the four high-spender toggles are not among them. *)
Lemma blocks_agree (safe safe' : gmap string safeval) (qualifies : bool) :
  (forall k, k ∈ engine_keys -> (qualifies = false -> k ∉ highSpender_items) ->
     safe !! k = safe' !! k) ->
  totalPoints_of safe = totalPoints_of safe'
  /\ blocks safe qualifies = blocks safe' qualifies.
Proof.
  intros H.
  assert (E : forall k, bool_decide (k ∈ engine_keys) = true ->
                bool_decide (k ∈ highSpender_items) = false ->
                safe !! k = safe' !! k).
  { intros k H1 H2. apply H; [now apply bool_decide_eq_true in H1|].
    intros _. now apply bool_decide_eq_false in H2. }
  assert (E' : qualifies = true -> forall k, bool_decide (k ∈ engine_keys) = true ->
                safe !! k = safe' !! k).
  { intros -> k H1. apply H; [now apply bool_decide_eq_true in H1|discriminate]. }
  split.
  - unfold totalPoints_of. now rewrite !E by reflexivity.
  - unfold blocks. cbv zeta.
    rewrite (E "travelCreditUsage"), (E "diningCredit"), (E "editStaysValue"),
      (E "stubhubSpending"), (E "dashpassUsage"), (E "restaurantOrders"),
      (E "nonRestaurantOrders"), (E "lyftRides"), (E "pelotonMembership"),
      (E "pelotonEquipment"), (E "priorityPassVisits"), (E "globalEntryValue"),
      (E "appleServices") by reflexivity.
    unfold totalPoints_of.
    rewrite (E "chaseTravel"), (E "flightsHotels"), (E "dining"),
      (E "otherSpending") by reflexivity.
    destruct qualifies; [|reflexivity].
    now rewrite (E' eq_refl "useShopsCredit"), (E' eq_refl "useSouthwestCredit"),
      (E' eq_refl "useIHGDiamond"), (E' eq_refl "useSouthwestAList") by reflexivity.
Qed.

(** The property that [validateInputs] drops is not one the engine reads. *)
Lemma blocks_without_proto (props : gmap string jsval) (qualifies : bool) :
  totalPoints_of (sanitize <$> delete "__proto__" props)
  = totalPoints_of (sanitize <$> props)
  /\ blocks (sanitize <$> delete "__proto__" props) qualifies
     = blocks (sanitize <$> props) qualifies.
Proof.
  apply blocks_agree. intros k Hk _. rewrite !lookup_fmap.
  rewrite lookup_delete_ne; [reflexivity|].
  intros <-. revert Hk. apply (bool_decide_unpack _). vm_compute. exact I.
Qed.

Lemma calculateROI_object (props : gmap string jsval) (qualifies : bool) :
  calculateROI (JSObject props) qualifies =
  let totalPoints := totalPoints_of (sanitize <$> props) in
  if isNaN totalPoints || negb (isFinite totalPoints) then fallback
  else assemble (run_blocks (blocks (sanitize <$> props) qualifies) []).
Proof.
  unfold calculateROI. rewrite calculateROI_try_blocks. cbv zeta.
  destruct (blocks_without_proto props qualifies) as [-> ->].
  now destruct (isNaN _ || negb (isFinite _)).
Qed.

(** *** Objects in insertion order *)

Lemma obj_set_fresh {A : Type} (k : string) (v : A) (o : object A) :
  k ∉ Object_keys o -> obj_set k v o = (o ++ [(k, v)])%list.
Proof.
  induction o as [|[k' v'] o IH]; simpl; intros Hk; [reflexivity|].
  rewrite not_elem_of_cons in Hk. destruct Hk as [Hne Hk].
  destruct (String.eqb_spec k k') as [->|_]; [contradiction|].
  now rewrite IH.
Qed.

Lemma Object_keys_app {A : Type} (o1 o2 : object A) :
  Object_keys (o1 ++ o2)%list = (Object_keys o1 ++ Object_keys o2)%list.
Proof. apply map_app. Qed.

Lemma run_blocks_fresh (bs : list block) (acc : object BenefitEntry.t) :
  NoDup (Object_keys acc ++ block_keys bs)%list ->
  run_blocks bs acc = (acc ++ taken bs)%list.
Proof.
  revert acc. induction bs as [|[c [k e]] bs IH]; intros acc Hnd.
  - simpl. now rewrite app_nil_r.
  - simpl in Hnd. apply NoDup_app in Hnd as (Hacc & Hdisj & Hbs).
    apply NoDup_cons in Hbs as [Hk Hbs].
    change (run_blocks ((c, (k, e)) :: bs) acc)
      with (run_blocks bs (set_when c k e acc)).
    assert (Hfresh : k ∉ Object_keys acc).
    { intros Hin. apply (Hdisj k Hin). left. }
    destruct c; simpl.
    + rewrite obj_set_fresh by assumption.
      rewrite IH.
      * unfold taken. simpl. now rewrite <- app_assoc.
      * rewrite Object_keys_app. simpl. rewrite <- app_assoc. simpl.
        apply NoDup_app. split; [assumption|]. split.
        -- intros x Hx Hx'. apply elem_of_cons in Hx' as [->|Hx'];
             [contradiction|]. apply (Hdisj x Hx). now right.
        -- apply NoDup_cons. split; assumption.
    + apply IH. apply NoDup_app. split; [assumption|]. split; [|assumption].
      intros x Hx Hx'. apply (Hdisj x Hx). now right.
Qed.

Lemma blocks_keys (safeInputs : gmap string safeval) (qualifies : bool) :
  block_keys (blocks safeInputs qualifies) =
  ["points"; "travelCredit"; "diningCredit"; "editCredit"; "stubhubCredit";
   "dashpass"; "doorDashCredits"; "lyft"; "peloton"; "priorityPass";
   "globalEntry"; "appleServices"; "highSpender"].
Proof. reflexivity. Qed.

(** The breakdown is the list of the entries whose block ran. *)
Lemma run_blocks_taken (safeInputs : gmap string safeval) (qualifies : bool) :
  run_blocks (blocks safeInputs qualifies) [] = taken (blocks safeInputs qualifies).
Proof.
  apply (run_blocks_fresh _ []).
  change (NoDup (block_keys (blocks safeInputs qualifies))).
  rewrite blocks_keys. apply (bool_decide_unpack _). vm_compute. exact I.
Qed.

Lemma obj_get_taken (k : string) (e : BenefitEntry.t) (bs : list block) :
  obj_get k (taken bs) = Some e -> In (true, (k, e)) bs.
Proof.
  induction bs as [|[c [k' e']] bs IH]; simpl; [discriminate|].
  unfold taken. simpl. destruct c; simpl.
  - destruct (String.eqb_spec k k') as [->|_].
    + intros [= ->]. now left.
    + intros H. right. now apply IH.
  - intros H. right. now apply IH.
Qed.

Lemma Forall_taken (P : BenefitEntry.t -> Prop) (bs : list block) :
  Forall (fun b : block => b.1 = true -> P b.2.2) bs ->
  Forall P (Object_values (taken bs)).
Proof.
  induction 1 as [|[c [k e]] bs Hb _ IH]; [constructor|].
  unfold taken. simpl. destruct c; simpl; [|exact IH].
  constructor; [now apply Hb | exact IH].
Qed.

(** ** Binary64 arithmetic: facts *)

Section BinaryFloats.
Local Open Scope Z_scope.

Lemma shr_1_nonneg mrs : 0 <= shr_m mrs -> 0 <= shr_m (shr_1 mrs).
Proof.
  destruct mrs as [m r s]. simpl. intros Hm.
  destruct m as [|[p|p|]|p]; simpl; lia.
Qed.

Lemma iter_pos_inv {A : Type} (P : A -> Prop) (f : A -> A) :
  (forall x, P x -> P (f x)) -> forall p x, P x -> P (SpecFloat.iter_pos f p x).
Proof.
  intros Hf. induction p as [p IH|p IH|]; simpl; intros x Hx; auto.
Qed.

Lemma shr_nonneg mrs e n : 0 <= shr_m mrs -> 0 <= shr_m (fst (shr mrs e n)).
Proof.
  intros Hm. destruct n as [|p|p]; simpl; try assumption.
  apply (iter_pos_inv (fun mrs => 0 <= shr_m mrs)); [apply shr_1_nonneg | assumption].
Qed.

Lemma shr_fexp_nonneg m e l : 0 <= m -> 0 <= shr_m (fst (shr_fexp prec emax m e l)).
Proof.
  intros Hm. unfold shr_fexp. apply shr_nonneg.
  destruct l as [|[]]; simpl; assumption.
Qed.

Lemma round_nearest_even_nonneg m l : 0 <= m -> 0 <= round_nearest_even m l.
Proof.
  intros Hm. destruct l as [|[]]; simpl; try assumption; [|lia].
  destruct (Z.even m); lia.
Qed.

Lemma bra_shape s m e l : 0 <= m -> sf_shape s (bra s m e l).
Proof.
  intros Hm. unfold bra, binary_round_aux.
  pose proof (shr_fexp_nonneg m e l Hm) as H1.
  destruct (shr_fexp prec emax m e l) as [mrs' e'] eqn:E1. simpl in H1.
  pose proof (shr_fexp_nonneg _ e' loc_Exact
                (round_nearest_even_nonneg _ (loc_of_shr_record mrs') H1)) as H2.
  destruct (shr_fexp prec emax _ e' loc_Exact) as [mrs'' e''] eqn:E2. simpl in H2.
  destruct (shr_m mrs'') as [|p|p]; simpl; try reflexivity; [|lia].
  destruct (e'' <=? emax - prec); reflexivity.
Qed.

Lemma binary_round_shape s m e : sf_shape s (binary_round prec emax s m e).
Proof.
  unfold binary_round. destruct (shl_align _ _ _) as [mz ez].
  apply bra_shape. lia.
Qed.

Lemma sf_shape_nonnan s x : sf_shape s x -> sf_nonnan x.
Proof. now destruct x. Qed.

Lemma sf_shape_nonneg x : sf_shape false x -> sf_nonneg x.
Proof. destruct x as [s|s| |s m e]; simpl; try easy; now intros ->. Qed.

Lemma sf_shape_nonpos x : sf_shape true x -> sf_nonpos x.
Proof. destruct x as [s|s| |s m e]; simpl; try easy; now intros ->. Qed.

Lemma sf_pos_nonneg x : sf_pos x -> sf_nonneg x.
Proof. now destruct x as [s|[]| |[] m e]. Qed.

Lemma sf_nonneg_nonnan x : sf_nonneg x -> sf_nonnan x.
Proof. now destruct x. Qed.

Lemma sf_pos_nonpos x : sf_pos x -> sf_nonpos x -> False.
Proof. now destruct x as [s|[]| |[] m e]. Qed.

(** *** Shapes of the results of the operations *)

Lemma SFmul_finite_nonnan x sy my ey :
  sf_nonnan x -> sf_nonnan (SF64mul x (S754_finite sy my ey)).
Proof.
  destruct x as [sx|sx| |sx mx ex]; simpl; try easy; intros _.
  apply (sf_shape_nonnan (xorb sx sy)), bra_shape. lia.
Qed.

Lemma SFmul_pos_nonneg x my ey :
  sf_nonneg x -> sf_nonneg (SF64mul x (S754_finite false my ey)).
Proof.
  destruct x as [sx|[]| |[] mx ex]; simpl; try easy; intros _.
  apply sf_shape_nonneg, bra_shape. lia.
Qed.

Lemma SFmul_pos_nonpos x my ey :
  sf_nonpos x -> sf_nonpos (SF64mul x (S754_finite false my ey)).
Proof.
  destruct x as [sx|[]| |[] mx ex]; simpl; try easy; intros _.
  apply sf_shape_nonpos, bra_shape. lia.
Qed.

Lemma SFadd_nonneg x y : sf_nonneg x -> sf_nonneg y -> sf_nonneg (SF64add x y).
Proof.
  destruct x as [[]|[]| |[] mx ex]; destruct y as [[]|[]| |[] my ey];
    simpl; try easy; intros _ _.
  apply sf_shape_nonneg, binary_round_shape.
Qed.

Lemma SFadd_nonpos x y : sf_nonpos x -> sf_nonpos y -> sf_nonpos (SF64add x y).
Proof.
  destruct x as [[]|[]| |[] mx ex]; destruct y as [[]|[]| |[] my ey];
    simpl; try easy; intros _ _.
  apply sf_shape_nonpos, binary_round_shape.
Qed.

(** A sum that starts at [+0] and adds values that are not negative never
    becomes [-0]. *)
Lemma SFadd_plus x y : sf_shape false x -> sf_nonneg y -> sf_shape false (SF64add x y).
Proof.
  destruct x as [[]|[]| |[] mx ex]; destruct y as [[]|[]| |[] my ey];
    simpl; try easy; intros _ _.
  apply binary_round_shape.
Qed.

Lemma SFadd_plus_zero x s :
  sf_shape false x -> SF64add x (S754_zero s) = x.
Proof. now destruct x as [[]|[]| |[] mx ex], s. Qed.

Lemma binary_normalize_nonnan m e :
  sf_nonnan (binary_normalize prec emax m e false).
Proof.
  destruct m as [|p|p]; simpl; [easy| |];
    eapply sf_shape_nonnan, binary_round_shape.
Qed.

Lemma SFadd_finite_nonnan x y : sf_finite x -> sf_finite y -> sf_nonnan (SF64add x y).
Proof.
  destruct x as [[]|[]| |sx mx ex]; destruct y as [[]|[]| |sy my ey];
    simpl; try easy; intros _ _.
  apply binary_normalize_nonnan.
Qed.

Lemma SFsub_pos_finite_nonnan x sy my ey :
  sf_pos x -> sf_nonnan (SF64sub x (S754_finite sy my ey)).
Proof.
  destruct x as [sx|[]| |[] mx ex]; simpl; try easy; intros _.
  apply binary_normalize_nonnan.
Qed.

Lemma SFdiv_core_nonneg m1 e1 m2 e2 :
  0 <= fst (fst (SFdiv_core_binary prec emax (Zpos m1) e1 (Zpos m2) e2)).
Proof.
  unfold SFdiv_core_binary.
  set (s := _ - _ - _).
  set (m' := match s with Z0 => _ | Zpos _ => _ | Zneg _ => _ end).
  assert (Hm' : 0 <= m').
  { subst m'. destruct s; try lia. apply Z.shiftl_nonneg. lia. }
  pose proof (Z.div_pos m' (Zpos m2) Hm' ltac:(lia)) as Hq.
  unfold Z.div in Hq. destruct (Z.div_eucl m' (Zpos m2)) as [q r]. exact Hq.
Qed.

Lemma SFdiv_finite_nonnan x sy my ey :
  sf_nonnan x -> sf_nonnan (SF64div x (S754_finite sy my ey)).
Proof.
  destruct x as [sx|sx| |sx mx ex]; simpl; try easy; intros _.
  pose proof (SFdiv_core_nonneg mx ex my ey) as Hq.
  destruct (SFdiv_core_binary _ _ _ _ _ _) as [[mz ez] lz]. simpl in Hq.
  apply (sf_shape_nonnan (xorb sx sy)), bra_shape. exact Hq.
Qed.

(** *** From the primitive type to its specification *)

Lemma is_nan_spec x : is_nan x = true <-> Prim2SF x = S754_nan.
Proof.
  unfold Prim2SF. destruct (is_nan x); [easy|]. split; [easy|].
  destruct (is_zero x); [easy|]. destruct (is_infinity x); [easy|].
  destruct (Z.frexp x) as [r ex].
  destruct (shr_fexp _ _ _ _ _) as [mrs e']. now destruct (shr_m mrs).
Qed.

Lemma is_nan_false x : is_nan x = false <-> sf_nonnan (Prim2SF x).
Proof.
  pose proof (is_nan_spec x) as [H1 H2]. destruct (is_nan x).
  - rewrite (H1 eq_refl). easy.
  - split; [|easy]. intros _. destruct (Prim2SF x); try exact I.
    now specialize (H2 eq_refl).
Qed.

Lemma ltb0_spec x : (0 <? x)%float = true <-> sf_pos (Prim2SF x).
Proof.
  rewrite FloatAxioms.ltb_spec. change (Prim2SF 0) with (S754_zero false).
  destruct (Prim2SF x) as [s|[]| |[] m e]; simpl; easy.
Qed.

Lemma leb0_spec x : (0 <=? x)%float = true <-> sf_nonneg (Prim2SF x).
Proof.
  rewrite FloatAxioms.leb_spec. change (Prim2SF 0) with (S754_zero false).
  destruct (Prim2SF x) as [s|[]| |[] m e]; simpl; easy.
Qed.

Lemma ltb_0_false x :
  (x <? 0)%float = false <-> Prim2SF x = S754_nan \/ sf_nonneg (Prim2SF x).
Proof.
  rewrite FloatAxioms.ltb_spec. change (Prim2SF 0) with (S754_zero false).
  destruct (Prim2SF x) as [s|[]| |[] m e]; simpl; intuition easy.
Qed.

Lemma is_zero_spec x :
  is_zero x = true <-> exists s, Prim2SF x = S754_zero s.
Proof.
  unfold is_zero. rewrite FloatAxioms.eqb_spec. change (Prim2SF zero) with (S754_zero false).
  destruct (Prim2SF x) as [s|[]| |[] m e]; simpl; split; try easy;
    try (intros [s' Hs]; discriminate); intros _; now eexists.
Qed.

Lemma is_finite_spec x : is_finite x = true <-> sf_finite (Prim2SF x).
Proof.
  unfold is_finite, is_infinity. rewrite FloatAxioms.eqb_spec, abs_spec.
  change (Prim2SF infinity) with (S754_infinity false).
  pose proof (is_nan_spec x) as [H1 H2].
  destruct (Prim2SF x) as [s|s| |s m e]; simpl.
  - destruct (is_nan x); [now specialize (H1 eq_refl)|easy].
  - destruct (is_nan x); simpl; easy.
  - rewrite H2 by reflexivity. easy.
  - destruct (is_nan x); [now specialize (H1 eq_refl)|easy].
Qed.

Lemma pow2_gt0 k : 0 <= k -> 0 < 2 ^ k.
Proof. intros. now apply Z.pow_pos_nonneg. Qed.

Lemma pow2_succ k : 0 <= k -> 2 ^ (k + 1) = 2 * 2 ^ k.
Proof. intros. rewrite Z.pow_add_r by lia. change (2 ^ 1) with 2. lia. Qed.

Lemma pow2_pred k : 1 <= k -> 2 ^ k = 2 * 2 ^ (k - 1).
Proof. intros. rewrite <- pow2_succ by lia. f_equal. lia. Qed.

Lemma pow2_le a b : 0 <= a <= b -> 2 ^ a <= 2 ^ b.
Proof. intros. apply Z.pow_le_mono_r; lia. Qed.

Lemma pow2_lt a b : 0 <= a < b -> 2 ^ a < 2 ^ b.
Proof. intros. apply Z.pow_lt_mono_r; lia. Qed.

Lemma pow2_split a b : 0 <= a -> 0 <= b -> 2 ^ (a + b) = 2 ^ a * 2 ^ b.
Proof. intros. now apply Z.pow_add_r. Qed.

Lemma rne_h_mono m1 m2 h : 0 < h -> m1 <= m2 -> rne_h m1 h <= rne_h m2 h.
Proof.
  intros Hh Hm. unfold rne_h.
  pose proof (Z.div_mod m1 (2 * h) ltac:(lia)) as E1.
  pose proof (Z.div_mod m2 (2 * h) ltac:(lia)) as E2.
  pose proof (Z.mod_pos_bound m1 (2 * h) ltac:(lia)) as B1.
  pose proof (Z.mod_pos_bound m2 (2 * h) ltac:(lia)) as B2.
  set (q1 := m1 / (2 * h)) in *. set (q2 := m2 / (2 * h)) in *.
  set (r1 := m1 mod (2 * h)) in *. set (r2 := m2 mod (2 * h)) in *.
  assert (Hq : q1 < q2 \/ q1 = q2) by nia.
  destruct Hq as [Hq|Hq].
  - destruct (r1 <? h), (h <? r1), (Z.even q1), (r2 <? h), (h <? r2), (Z.even q2); lia.
  - rewrite <- Hq in *. assert (r1 <= r2) by nia.
    destruct (Z.ltb_spec r1 h), (Z.ltb_spec h r1), (Z.ltb_spec r2 h),
      (Z.ltb_spec h r2), (Z.even q1); lia.
Qed.

Lemma rne_h_exact q h : 0 < h -> rne_h (q * (2 * h)) h = q.
Proof.
  intros Hh. unfold rne_h.
  rewrite Z.div_mul, Z.mod_mul by lia.
  destruct (Z.ltb_spec 0 h); [reflexivity|lia].
Qed.

Lemma rne_h_scale m h j : 0 < h -> 0 < j -> rne_h (m * j) (h * j) = rne_h m h.
Proof.
  intros Hh Hj. unfold rne_h.
  replace (2 * (h * j)) with ((2 * h) * j) by lia.
  rewrite Z.div_mul_cancel_r by lia.
  rewrite Z.mul_mod_distr_r by lia.
  set (r := m mod (2 * h)).
  assert (Hlt : (r * j <? h * j) = (r <? h)).
  { destruct (Z.ltb_spec r h), (Z.ltb_spec (r * j) (h * j)); try reflexivity; nia. }
  assert (Hgt : (h * j <? r * j) = (h <? r)).
  { destruct (Z.ltb_spec h r), (Z.ltb_spec (h * j) (r * j)); try reflexivity; nia. }
  now rewrite Hlt, Hgt.
Qed.

Lemma rne_h_bounds m h : 0 < h -> m / (2 * h) <= rne_h m h <= m / (2 * h) + 1.
Proof.
  intros Hh. unfold rne_h.
  destruct (m mod (2 * h) <? h), (h <? m mod (2 * h)), (Z.even (m / (2 * h))); lia.
Qed.

Lemma rne_nonneg m k : 0 <= m -> 0 <= rne m k.
Proof.
  intros Hm. unfold rne. destruct (Z.leb_spec k 0); [assumption|].
  pose proof (pow2_gt0 (k - 1) ltac:(lia)) as Hh.
  pose proof (rne_h_bounds m _ Hh) as [Hlo _].
  pose proof (Z.div_pos m (2 * 2 ^ (k - 1)) Hm ltac:(lia)). lia.
Qed.

Lemma rne_mono m1 m2 k : m1 <= m2 -> rne m1 k <= rne m2 k.
Proof.
  intros Hm. unfold rne. destruct (Z.leb_spec k 0); [assumption|].
  apply rne_h_mono; [apply pow2_gt0; lia | assumption].
Qed.

Lemma rne_exact q k : 0 <= k -> rne (q * 2 ^ k) k = q.
Proof.
  intros Hk. unfold rne. destruct (Z.leb_spec k 0).
  - replace k with 0 by lia. change (2 ^ 0) with 1. lia.
  - rewrite (pow2_pred k) by lia. apply rne_h_exact, pow2_gt0. lia.
Qed.

Lemma rne_scale m k j : 0 <= k -> 0 <= j -> rne (m * 2 ^ j) (k + j) = rne m k.
Proof.
  intros Hk Hj. unfold rne at 2. destruct (Z.leb_spec k 0).
  - replace (k + j) with j by lia. now apply rne_exact.
  - unfold rne. destruct (Z.leb_spec (k + j) 0); [lia|].
    replace (k + j - 1) with ((k - 1) + j) by lia.
    rewrite pow2_split by lia.
    apply rne_h_scale; apply pow2_gt0; lia.
Qed.

(** Below a power of two the rounded value stays below the rounded power. *)
Lemma rne_le_pow2 m k d : 0 <= k <= d -> m <= 2 ^ d -> rne m k <= 2 ^ (d - k).
Proof.
  intros Hk Hm.
  rewrite <- (rne_exact (2 ^ (d - k)) k) by lia.
  apply rne_mono. rewrite <- pow2_split by lia.
  now replace (d - k + k) with d by lia.
Qed.

Lemma rne_ge_pow2 m k d : 0 <= k <= d -> 2 ^ d <= m -> 2 ^ (d - k) <= rne m k.
Proof.
  intros Hk Hm.
  rewrite <- (rne_exact (2 ^ (d - k)) k) at 1 by lia.
  apply rne_mono. rewrite <- pow2_split by lia.
  now replace (d - k + k) with d by lia.
Qed.

(** *** The right shift of [SpecFloat] *)

Lemma shr_1_spec m r s :
  0 <= m ->
  shr_1 (Build_shr_record m r s) = Build_shr_record (m / 2) (Z.odd m) (r || s).
Proof.
  intros Hm. rewrite <- Z.div2_div.
  destruct m as [|[p|p|]|p]; try reflexivity; lia.
Qed.

Lemma iter_pos_nat {A : Type} (f : A -> A) p x :
  SpecFloat.iter_pos f p x = Nat.iter (Pos.to_nat p) f x.
Proof.
  revert x. induction p as [p IH|p IH|]; intros x.
  - change (SpecFloat.iter_pos f p~1 x)
      with (SpecFloat.iter_pos f p (SpecFloat.iter_pos f p (f x))).
    rewrite !IH, Pos2Nat.inj_xI. rewrite <- Nat.iter_add, <- Nat.iter_succ_r.
    f_equal. lia.
  - change (SpecFloat.iter_pos f p~0 x)
      with (SpecFloat.iter_pos f p (SpecFloat.iter_pos f p x)).
    rewrite !IH, Pos2Nat.inj_xO. rewrite <- Nat.iter_add. f_equal. lia.
  - reflexivity.
Qed.

Lemma shr_iter_inv m n :
  0 <= m ->
  shr_inv m (Z.of_nat (S n)) (Nat.iter (S n) shr_1 (Build_shr_record m false false)).
Proof.
  intros Hm. induction n as [|n IH].
  - change (Nat.iter 1 shr_1 ?x) with (shr_1 x).
    rewrite shr_1_spec by assumption. split; simpl.
    + apply Z.div_pos; lia.
    + exists 0. change (2 ^ (Z.of_nat 1 - 1)) with 1. change (2 ^ Z.of_nat 1) with 2.
      split; [lia|]. split; [|reflexivity].
      pose proof (Z.div2_odd m) as H. rewrite Z.div2_div in H. lia.
  - change (Nat.iter (S (S n)) shr_1 ?x) with (shr_1 (Nat.iter (S n) shr_1 x)).
    destruct (Nat.iter (S n) shr_1 _) as [q r s].
    destruct IH as [Hq (t & Ht & Hmq & Hs)]. cbn [shr_m shr_r shr_s] in *.
    rewrite shr_1_spec by assumption.
    set (k := Z.of_nat (S n)) in *.
    assert (Hk : 1 <= k) by (subst k; lia).
    unfold shr_inv. cbn [shr_m shr_r shr_s].
    replace (Z.of_nat (S (S n))) with (k + 1) by (subst k; lia).
    replace (k + 1 - 1) with k by lia.
    rewrite pow2_succ by lia.
    rewrite (pow2_pred k) in * by lia.
    pose proof (pow2_gt0 (k - 1) ltac:(lia)) as Hh.
    set (h := 2 ^ (k - 1)) in *.
    pose proof (Z.div2_odd q) as Hdq. rewrite Z.div2_div in Hdq.
    split.
    + apply Z.div_pos; lia.
    + exists (Z.b2z r * h + t). split; [destruct r; simpl; lia|]. split.
      * destruct (Z.odd q); simpl Z.b2z in *; nia.
      * rewrite Hs. destruct r; simpl.
        -- destruct (Z.eqb_spec (1 * h + t) 0); [lia|reflexivity].
        -- reflexivity.
Qed.

Lemma round_shr_inv m k mrs :
  1 <= k -> shr_inv m k mrs ->
  round_nearest_even (shr_m mrs) (loc_of_shr_record mrs) = rne m k.
Proof.
  intros Hk [Hq (t & Ht & Hm & Hs)]. destruct mrs as [q r s]. simpl in *.
  unfold rne. destruct (Z.leb_spec k 0); [lia|].
  rewrite (pow2_pred k) in Hm by lia.
  pose proof (pow2_gt0 (k - 1) ltac:(lia)) as Hh.
  set (h := 2 ^ (k - 1)) in *.
  unfold rne_h.
  assert (Hdiv : m / (2 * h) = q).
  { symmetry. apply (Z.div_unique m (2 * h) q (Z.b2z r * h + t));
      [destruct r; simpl; lia | lia]. }
  assert (Hmod : m mod (2 * h) = Z.b2z r * h + t).
  { symmetry. apply (Z.mod_unique m (2 * h) q);
      [destruct r; simpl; lia | lia]. }
  rewrite Hdiv, Hmod, Hs.
  destruct r; simpl Z.b2z.
  - destruct (Z.ltb_spec (1 * h + t) h); [lia|].
    destruct (Z.eqb_spec t 0) as [->|Ht0]; simpl.
    + destruct (Z.ltb_spec h (1 * h + 0)); [lia|reflexivity].
    + destruct (Z.ltb_spec h (1 * h + t)); [reflexivity|lia].
  - destruct (Z.ltb_spec (0 * h + t) h); [|lia].
    now destruct (t =? 0).
Qed.

Lemma shr_exact_spec m e n :
  0 <= m -> 0 <= n ->
  snd (shr (Build_shr_record m false false) e n) = e + n /\
  (let mrs := fst (shr (Build_shr_record m false false) e n) in
   round_nearest_even (shr_m mrs) (loc_of_shr_record mrs) = rne m n).
Proof.
  intros Hm Hn. destruct n as [|p|p]; [| |lia].
  - simpl. split; [lia|reflexivity].
  - simpl. split; [reflexivity|].
    rewrite iter_pos_nat.
    destruct (Pos2Nat.is_succ p) as [n Hp]. rewrite Hp.
    apply round_shr_inv; [lia|].
    replace (Z.pos p) with (Z.of_nat (S n)) by lia.
    now apply shr_iter_inv.
Qed.

(** *** Number of bits *)

Lemma digits2_log2 p : Z.pos (digits2_pos p) = Z.log2 (Z.pos p) + 1.
Proof.
  assert (Hsize : forall q, digits2_pos q = Pos.size q).
  { induction q as [q IH|q IH|]; simpl; now rewrite ?IH. }
  rewrite Hsize. destruct p; simpl; lia.
Qed.

Lemma Zdigits2_bounds m :
  0 < m -> 1 <= Zdigits2 m /\ 2 ^ (Zdigits2 m - 1) <= m < 2 ^ Zdigits2 m.
Proof.
  intros Hm. destruct m as [|p|p]; try lia.
  unfold Zdigits2. rewrite digits2_log2.
  pose proof (Z.log2_spec (Z.pos p) ltac:(lia)) as H.
  pose proof (Z.log2_nonneg (Z.pos p)).
  replace (Z.log2 (Z.pos p) + 1 - 1) with (Z.log2 (Z.pos p)) by lia.
  unfold Z.succ in H. lia.
Qed.

Lemma Zdigits2_unique m d :
  1 <= d -> 2 ^ (d - 1) <= m < 2 ^ d -> Zdigits2 m = d.
Proof.
  intros Hd Hm.
  assert (0 < m) by (pose proof (pow2_gt0 (d - 1) ltac:(lia)); lia).
  destruct m as [|p|p]; try lia.
  unfold Zdigits2. rewrite digits2_log2.
  rewrite (Z.log2_unique (Z.pos p) (d - 1)); [lia|lia|].
  unfold Z.succ. now replace (d - 1 + 1) with d by lia.
Qed.

Lemma Zdigits2_mul_pow2 m j :
  0 < m -> 0 <= j -> Zdigits2 (m * 2 ^ j) = Zdigits2 m + j.
Proof.
  intros Hm Hj. destruct (Zdigits2_bounds m Hm) as [Hd [Hlo Hhi]].
  pose proof (pow2_gt0 j Hj) as Hpj.
  apply Zdigits2_unique; [lia|].
  replace (Zdigits2 m + j - 1) with ((Zdigits2 m - 1) + j) by lia.
  rewrite !pow2_split by lia. nia.
Qed.

Lemma Zdigits2_le m d : 0 < m -> 0 <= d -> m < 2 ^ d -> Zdigits2 m <= d.
Proof.
  intros Hm Hd Hlt. destruct (Zdigits2_bounds m Hm) as [H1 [Hlo _]].
  destruct (Z.le_gt_cases (Zdigits2 m) d) as [|Hgt]; [assumption|].
  pose proof (pow2_le d (Zdigits2 m - 1) ltac:(lia)). lia.
Qed.

Lemma Zdigits2_ge m d : 1 <= d -> 2 ^ (d - 1) <= m -> d <= Zdigits2 m.
Proof.
  intros Hd Hle.
  assert (Hm : 0 < m) by (pose proof (pow2_gt0 (d - 1) ltac:(lia)); lia).
  destruct (Zdigits2_bounds m Hm) as [H1 [_ Hhi]].
  destruct (Z.le_gt_cases d (Zdigits2 m)) as [|Hgt]; [assumption|].
  pose proof (pow2_le (Zdigits2 m) (d - 1) ltac:(lia)). lia.
Qed.

Lemma fexp64 e : fexp prec emax e = Z.max (e - 53) (-1074).
Proof. reflexivity. Qed.

Lemma pow2_52 : 2 ^ 52 = 4503599627370496. Proof. reflexivity. Qed.
Lemma pow2_53 : 2 ^ 53 = 9007199254740992. Proof. reflexivity. Qed.

Lemma shr_fexp_noshift q e :
  fexp prec emax (Zdigits2 q + e) <= e ->
  shr_fexp prec emax q e loc_Exact = (Build_shr_record q false false, e).
Proof.
  intros H. unfold shr_fexp. simpl shr_record_of_loc.
  destruct (fexp prec emax (Zdigits2 q + e) - e) as [|p|p] eqn:E; try reflexivity.
  lia.
Qed.

Lemma bra_exact s m e :
  0 < m -> e <= fexp prec emax (Zdigits2 m + e) ->
  bra s m e loc_Exact =
  sf_make s (rne m (fexp prec emax (Zdigits2 m + e) - e)) (fexp prec emax (Zdigits2 m + e)).
Proof.
  intros Hm Hn. unfold bra, binary_round_aux.
  set (e1 := fexp prec emax (Zdigits2 m + e)) in *.
  unfold shr_fexp at 1. fold e1. simpl shr_record_of_loc.
  destruct (shr_exact_spec m e (e1 - e) ltac:(lia) ltac:(lia)) as [He' Hq].
  destruct (shr (Build_shr_record m false false) e (e1 - e)) as [mrs' e'].
  simpl in He', Hq. rewrite Hq. replace e' with e1 by lia. clear He' Hq mrs' e'.
  set (n := e1 - e) in *.
  pose proof (rne_nonneg m n ltac:(lia)) as Hq0.
  destruct (Zdigits2_bounds m Hm) as [Hd [Hlo Hhi]].
  set (d := Zdigits2 m) in *.
  set (q := rne m n) in *.
  assert (He1v : e1 = Z.max (d + e - 53) (-1074)) by apply fexp64.
  assert (Hnv : n = e1 - e) by reflexivity.
  clearbody e1 n.
  assert (Hcase : (e1 = d + e - 53 /\ -1074 <= e1 /\ 2 ^ 52 <= q <= 2 ^ 53)
                  \/ (e1 = -1074 /\ q <= 2 ^ 52)).
  { destruct (Z.le_gt_cases (-1074) (d + e - 53)) as [Hc|Hc].
    - left. assert (He1 : e1 = d + e - 53) by lia.
      split; [assumption|]. split; [lia|].
      assert (Hnn : n = d - 53) by lia.
      split.
      + replace 52 with (d - 1 - n) by lia. apply rne_ge_pow2; [lia|assumption].
      + replace 53 with (d - n) by lia. apply rne_le_pow2; lia.
    - right. assert (He1 : e1 = -1074) by lia.
      split; [assumption|].
      replace 52 with (n + 52 - n) by lia. apply rne_le_pow2; [lia|].
      pose proof (pow2_le d (n + 52) ltac:(lia)). lia. }
  rewrite pow2_52, pow2_53 in Hcase.
  unfold sf_make.
  destruct (Z.eqb_spec q 0) as [Hz|Hz].
  - rewrite Hz. rewrite shr_fexp_noshift.
    + reflexivity.
    + simpl Zdigits2. rewrite fexp64. lia.
  - destruct (Z.eqb_spec q 9007199254740992) as [Hc|Hc].
    + rewrite Hc. destruct Hcase as [(He1 & Hge & _)|[_ Hle]]; [|lia].
      unfold shr_fexp. simpl shr_record_of_loc.
      change (Zdigits2 9007199254740992) with 54. rewrite fexp64.
      replace (Z.max (54 + e1 - 53) (-1074) - e1) with 1 by lia.
      simpl shr. cbn [fst snd shr_m].
      change (emax - prec) with 971. reflexivity.
    + assert (Hdq : Zdigits2 q <= 53).
      { apply Zdigits2_le; [lia|lia|]. rewrite pow2_53. lia. }
      rewrite shr_fexp_noshift.
      * cbn [shr_m]. destruct q as [|pq|pq]; try lia.
        change (emax - prec) with 971. reflexivity.
      * rewrite fexp64. destruct Hcase as [(He1 & Hge & Hq52 & Hq53)|[He1 Hle]].
        -- assert (Zdigits2 q = 53); [|lia].
           apply Zdigits2_unique; [lia|]. change (53 - 1) with 52.
           rewrite pow2_52, pow2_53. lia.
        -- lia.
Qed.

Lemma ival_inf_split : ival_inf = 2 ^ 53 * 2 ^ 2045.
Proof. unfold ival_inf. now rewrite <- pow2_split by lia. Qed.

Lemma ival_inf_pos : 0 < ival_inf.
Proof. apply pow2_gt0. lia. Qed.

(** The range of a mantissa rounded at the exponent its size calls for. *)
Lemma rne_range m e :
  0 < m ->
  let e1 := Z.max (Zdigits2 m + e - 53) (-1074) in
  e <= e1 ->
  (-1074 < e1 /\ 2 ^ 52 <= rne m (e1 - e) <= 2 ^ 53)
  \/ (e1 = -1074 /\ 0 <= rne m (e1 - e) <= 2 ^ 53).
Proof.
  intros Hm e1 Hn.
  destruct (Zdigits2_bounds m Hm) as [Hd [Hlo Hhi]].
  set (d := Zdigits2 m) in *.
  pose proof (rne_nonneg m (e1 - e) ltac:(lia)) as Hq0.
  assert (Hup : rne m (e1 - e) <= 2 ^ 53).
  { replace 53 with ((e1 - e + 53) - (e1 - e)) by lia.
    apply rne_le_pow2; [lia|].
    pose proof (pow2_le d (e1 - e + 53) ltac:(lia)). lia. }
  destruct (Z.le_gt_cases e1 (-1074)) as [Hc|Hc].
  - right. lia.
  - left. split; [assumption|]. split; [|assumption].
    replace 52 with (d - 1 - (e1 - e)) by lia.
    apply rne_ge_pow2; [lia|assumption].
Qed.

Lemma ival_sf_make s q e1 :
  (-1074 < e1 /\ 2 ^ 52 <= q <= 2 ^ 53) \/ (e1 = -1074 /\ 0 <= q <= 2 ^ 53) ->
  ival (sf_make s q e1) = cond_Zopp s (Z.min (q * 2 ^ (e1 + 1074)) ival_inf).
Proof.
  intros Hcase. rewrite pow2_52, pow2_53 in Hcase.
  assert (He : -1074 <= e1) by lia.
  pose proof (pow2_gt0 (e1 + 1074) ltac:(lia)) as Hp.
  pose proof ival_inf_pos as HI.
  unfold sf_make.
  destruct (Z.eqb_spec q 0) as [->|Hq0].
  { rewrite Z.mul_0_l, Z.min_l by lia. now destruct s. }
  destruct (Z.eqb_spec q 9007199254740992) as [->|Hq53].
  - destruct (Z.leb_spec (e1 + 1) 971); cbn [ival]; f_equal.
    + replace (e1 + 1 + 1074) with ((e1 + 1074) + 1) by lia.
      rewrite pow2_succ by lia.
      assert (9007199254740992 * 2 ^ (e1 + 1074) < ival_inf); [|lia].
      rewrite ival_inf_split, pow2_53.
      pose proof (pow2_lt (e1 + 1074) 2045 ltac:(lia)). nia.
    + assert (ival_inf <= 9007199254740992 * 2 ^ (e1 + 1074)); [|lia].
      rewrite ival_inf_split, pow2_53.
      pose proof (pow2_le 2045 (e1 + 1074) ltac:(lia)). nia.
  - destruct (Z.leb_spec e1 971); cbn [ival]; f_equal.
    + rewrite Z2Pos.id by lia.
      assert (q * 2 ^ (e1 + 1074) < ival_inf); [|lia].
      rewrite ival_inf_split, pow2_53.
      pose proof (pow2_le (e1 + 1074) 2045 ltac:(lia)). nia.
    + assert (ival_inf <= q * 2 ^ (e1 + 1074)); [|lia].
      rewrite ival_inf_split.
      pose proof (pow2_le 2046 (e1 + 1074) ltac:(lia)) as Hle.
      replace 2046 with (2045 + 1) in Hle by lia.
      rewrite pow2_succ in Hle by lia.
      rewrite pow2_53. nia.
Qed.

Lemma ival_bra s N E :
  0 < N -> E <= -1074 ->
  ival (bra s N E loc_Exact) = cond_Zopp s (Z.min (rounded E N) ival_inf).
Proof.
  intros HN HE. rewrite bra_exact; [|assumption|rewrite fexp64; lia].
  rewrite fexp64. rewrite ival_sf_make.
  - unfold rounded, dropped_bits.
    now replace (Z.max (Zdigits2 N + E - 53) (-1074) - E + E + 1074)
      with (Z.max (Zdigits2 N + E - 53) (-1074) + 1074) by lia.
  - apply rne_range; [assumption|lia].
Qed.

Lemma Zdigits2_mono N1 N2 : 0 < N1 <= N2 -> Zdigits2 N1 <= Zdigits2 N2.
Proof.
  intros H. destruct (Zdigits2_bounds N1 ltac:(lia)) as [Hd [Hlo _]].
  apply Zdigits2_ge; lia.
Qed.

Lemma rounded_nonneg E N : 0 < N -> E <= -1074 -> 0 <= rounded E N.
Proof.
  intros HN HE. unfold rounded.
  pose proof (rne_nonneg N (dropped_bits E N) ltac:(lia)).
  assert (0 <= dropped_bits E N + E + 1074) by (unfold dropped_bits; lia).
  pose proof (pow2_gt0 _ H0). nia.
Qed.

Lemma rounded_mono E N1 N2 : E <= -1074 -> 0 < N1 <= N2 -> rounded E N1 <= rounded E N2.
Proof.
  intros HE HN.
  pose proof (Zdigits2_mono N1 N2 HN) as Hd.
  destruct (Zdigits2_bounds N1 ltac:(lia)) as [Hd1 [Hlo1 Hhi1]].
  destruct (Zdigits2_bounds N2 ltac:(lia)) as [Hd2 [Hlo2 Hhi2]].
  unfold rounded.
  assert (Hn1 : dropped_bits E N1 = Z.max (Zdigits2 N1 + E - 53) (-1074) - E) by reflexivity.
  assert (Hn2 : dropped_bits E N2 = Z.max (Zdigits2 N2 + E - 53) (-1074) - E) by reflexivity.
  set (d1 := Zdigits2 N1) in *. set (d2 := Zdigits2 N2) in *.
  set (n1 := dropped_bits E N1) in *. set (n2 := dropped_bits E N2) in *.
  clearbody n1 n2 d1 d2.
  assert (Hcmp : n1 = n2 \/ n1 < n2) by lia.
  destruct Hcmp as [Heq|Hlt].
  - rewrite <- Heq. apply Z.mul_le_mono_nonneg_r.
    + apply Z.lt_le_incl, pow2_gt0. lia.
    + apply rne_mono. lia.
  - assert (Hn2' : n2 = d2 - 53) by lia.
    assert (Hdlt : d1 < d2) by lia.
    apply Z.le_trans with (2 ^ (d2 - 1 + E + 1074)).
    + apply Z.le_trans with (2 ^ (d2 - 1 - n1) * 2 ^ (n1 + E + 1074)).
      * apply Z.mul_le_mono_nonneg_r.
        -- apply Z.lt_le_incl, pow2_gt0. lia.
        -- apply rne_le_pow2; [lia|].
           pose proof (pow2_le d1 (d2 - 1) ltac:(lia)). lia.
      * rewrite <- pow2_split by lia. apply Z.eq_le_incl. f_equal. lia.
    + apply Z.le_trans with (2 ^ (d2 - 1 - n2) * 2 ^ (n2 + E + 1074)).
      * rewrite <- pow2_split by lia. apply Z.eq_le_incl. f_equal. lia.
      * apply Z.mul_le_mono_nonneg_r.
        -- apply Z.lt_le_incl, pow2_gt0. lia.
        -- apply rne_ge_pow2; [lia|assumption].
Qed.

Lemma round_int_mono E N1 N2 : E <= -1074 -> N1 <= N2 -> round_int E N1 <= round_int E N2.
Proof.
  intros HE HN. pose proof ival_inf_pos.
  destruct N1 as [|p1|p1], N2 as [|p2|p2]; simpl; try lia.
  - pose proof (rounded_nonneg E (Z.pos p2) ltac:(lia) HE). lia.
  - pose proof (rounded_mono E (Z.pos p1) (Z.pos p2) HE ltac:(lia)). lia.
  - pose proof (rounded_nonneg E (Z.pos p1) ltac:(lia) HE). lia.
  - pose proof (rounded_nonneg E (Z.pos p1) ltac:(lia) HE).
    pose proof (rounded_nonneg E (Z.pos p2) ltac:(lia) HE). lia.
  - pose proof (rounded_mono E (Z.pos p2) (Z.pos p1) HE ltac:(lia)). lia.
Qed.

Lemma bra_rescale s m e E :
  0 < m -> E <= e -> e <= fexp prec emax (Zdigits2 m + e) ->
  bra s m e loc_Exact = bra s (m * 2 ^ (e - E)) E loc_Exact.
Proof.
  intros Hm HE Hn.
  pose proof (pow2_gt0 (e - E) ltac:(lia)) as Hp.
  assert (Hd : Zdigits2 (m * 2 ^ (e - E)) + E = Zdigits2 m + e).
  { rewrite Zdigits2_mul_pow2 by lia. lia. }
  rewrite (bra_exact s m e) by assumption.
  rewrite (bra_exact s (m * 2 ^ (e - E)) E); [|nia|rewrite Hd; lia].
  rewrite Hd. f_equal.
  set (e1 := fexp prec emax (Zdigits2 m + e)) in *.
  replace (e1 - E) with ((e1 - e) + (e - E)) by lia.
  symmetry. apply rne_scale; lia.
Qed.

Lemma round_int_pos E N : 0 < N -> round_int E N = Z.min (rounded E N) ival_inf.
Proof. destruct N; try lia. reflexivity. Qed.

Lemma round_int_neg E N : 0 < N -> round_int E (- N) = - Z.min (rounded E N) ival_inf.
Proof. destruct N; try lia. reflexivity. Qed.

Lemma round_int_cond_Zopp E s N :
  0 < N -> round_int E (cond_Zopp s N) = cond_Zopp s (Z.min (rounded E N) ival_inf).
Proof. intros HN. destruct s; simpl; [now apply round_int_neg | now apply round_int_pos]. Qed.

(** *** Valid numbers and their order *)

Lemma bounded_spec m e :
  bounded prec emax m e = true ->
  -1074 <= e <= 971 /\ Z.pos m < 2 ^ 53 /\ (-1074 < e -> 2 ^ 52 <= Z.pos m).
Proof.
  unfold bounded, canonical_mantissa.
  rewrite andb_true_iff, Z.eqb_eq, Z.leb_le, fexp64.
  change (emax - prec) with 971. intros [Hc He].
  destruct (Zdigits2_bounds (Z.pos m) ltac:(lia)) as [Hd [Hlo Hhi]].
  change (Zdigits2 (Z.pos m)) with (Z.pos (digits2_pos m)) in *.
  set (d := Z.pos (digits2_pos m)) in *.
  split; [lia|]. split.
  - pose proof (pow2_le d 53 ltac:(lia)). lia.
  - intros Hn. assert (d = 53) by lia.
    replace 52 with (d - 1) by lia. assumption.
Qed.

Lemma mag_bounds m e :
  bounded prec emax m e = true -> 0 < Z.pos m * 2 ^ (e + 1074) < ival_inf.
Proof.
  intros Hb. destruct (bounded_spec m e Hb) as (He & Hm & _).
  pose proof (pow2_gt0 (e + 1074) ltac:(lia)).
  pose proof (pow2_le (e + 1074) 2045 ltac:(lia)).
  rewrite ival_inf_split. rewrite pow2_53 in *. nia.
Qed.

Lemma mag_compare m1 e1 m2 e2 :
  bounded prec emax m1 e1 = true -> bounded prec emax m2 e2 = true ->
  (Z.pos m1 * 2 ^ (e1 + 1074) ?= Z.pos m2 * 2 ^ (e2 + 1074)) =
  match e1 ?= e2 with
  | Lt => Lt
  | Gt => Gt
  | Eq => Pos.compare_cont Eq m1 m2
  end.
Proof.
  intros Hb1 Hb2.
  destruct (bounded_spec m1 e1 Hb1) as (He1 & Hm1 & Hn1).
  destruct (bounded_spec m2 e2 Hb2) as (He2 & Hm2 & Hn2).
  rewrite pow2_52, pow2_53 in *.
  pose proof (pow2_gt0 (e1 + 1074) ltac:(lia)) as Hp1.
  pose proof (pow2_gt0 (e2 + 1074) ltac:(lia)) as Hp2.
  destruct (Z.compare_spec e1 e2) as [->|Hlt|Hgt].
  - change (Pos.compare_cont Eq m1 m2) with (Z.pos m1 ?= Z.pos m2).
    destruct (Z.compare_spec (Z.pos m1) (Z.pos m2));
      [apply Z.compare_eq_iff | apply Z.compare_lt_iff | apply Z.compare_gt_iff];
      nia.
  - apply Z.compare_lt_iff. specialize (Hn2 ltac:(lia)).
    replace (e2 + 1074) with ((e2 - e1 - 1) + ((e1 + 1074) + 1)) by lia.
    rewrite (pow2_split (e2 - e1 - 1)), (pow2_succ (e1 + 1074)) by lia.
    pose proof (pow2_gt0 (e2 - e1 - 1) ltac:(lia)).
    set (P := 2 ^ (e1 + 1074)) in *. set (Q := 2 ^ (e2 - e1 - 1)) in *.
    assert (Z.pos m1 * P < 9007199254740992 * P) by nia.
    assert (9007199254740992 * P <= Z.pos m2 * (2 * P)) by nia.
    assert (Z.pos m2 * (2 * P) <= Z.pos m2 * (Q * (2 * P))) by nia.
    lia.
  - apply Z.compare_gt_iff. specialize (Hn1 ltac:(lia)).
    replace (e1 + 1074) with ((e1 - e2 - 1) + ((e2 + 1074) + 1)) by lia.
    rewrite (pow2_split (e1 - e2 - 1)), (pow2_succ (e2 + 1074)) by lia.
    pose proof (pow2_gt0 (e1 - e2 - 1) ltac:(lia)).
    set (P := 2 ^ (e2 + 1074)) in *. set (Q := 2 ^ (e1 - e2 - 1)) in *.
    assert (Z.pos m2 * P < 9007199254740992 * P) by nia.
    assert (9007199254740992 * P <= Z.pos m1 * (2 * P)) by nia.
    assert (Z.pos m1 * (2 * P) <= Z.pos m1 * (Q * (2 * P))) by nia.
    lia.
Qed.

Lemma SFcompare_ival x y :
  valid_binary x = true -> valid_binary y = true ->
  sf_nonnan x -> sf_nonnan y ->
  SFcompare x y = Some (ival x ?= ival y).
Proof.
  intros Hvx Hvy Hx Hy. pose proof ival_inf_pos as HI.
  destruct x as [sx|sx| |sx mx ex]; try easy;
  destruct y as [sy|sy| |sy my ey]; try easy; simpl in Hvx, Hvy;
  try (pose proof (mag_bounds mx ex Hvx) as Hbx);
  try (pose proof (mag_bounds my ey Hvy) as Hby);
  try (destruct sx); try (destruct sy); cbn [SFcompare ival cond_Zopp];
  try reflexivity;
  try (f_equal; symmetry;
       first [ apply Z.compare_lt_iff; lia
             | apply Z.compare_gt_iff; lia
             | apply Z.compare_eq_iff; lia ]).
  - f_equal. rewrite Z.compare_opp, (mag_compare my ey mx ex Hvy Hvx).
    rewrite (Z.compare_antisym ex ey).
    change (Pos.compare_cont Eq my mx) with (my ?= mx)%positive.
    rewrite (Pos.compare_antisym mx my).
    now destruct (ex ?= ey).
  - f_equal. now rewrite (mag_compare mx ex my ey Hvx Hvy).
Qed.

Lemma SFleb_ival x y :
  valid_binary x = true -> valid_binary y = true ->
  sf_nonnan x -> sf_nonnan y ->
  SFleb x y = true <-> ival x <= ival y.
Proof.
  intros Hvx Hvy Hx Hy. unfold SFleb. rewrite SFcompare_ival by assumption.
  destruct (Z.compare_spec (ival x) (ival y)); split; intros; try lia; easy.
Qed.

Lemma SFleb_nonnan x y : SFleb x y = true -> sf_nonnan x /\ sf_nonnan y.
Proof. destruct x, y; simpl; easy. Qed.

(** *** The operations on values *)

Lemma Pos_iter_xO m d : Z.pos (Pos.iter xO m d) = Z.pos m * 2 ^ Z.pos d.
Proof.
  induction d as [|d IH] using Pos.peano_ind.
  - simpl. lia.
  - rewrite Pos.iter_succ, Pos2Z.inj_xO, IH, Pos2Z.inj_succ.
    unfold Z.succ. rewrite pow2_succ by lia. lia.
Qed.

Lemma shl_align_spec m e e' :
  let r := shl_align m e e' in
  snd r = Z.min e e' /\ Z.pos (fst r) = Z.pos m * 2 ^ (e - snd r).
Proof.
  unfold shl_align. destruct (e' - e) as [|d|d] eqn:E; simpl.
  - split; [lia|]. replace (e - e) with 0 by lia. simpl. lia.
  - split; [lia|]. replace (e - e) with 0 by lia. simpl. lia.
  - split; [lia|]. rewrite Pos_iter_xO. f_equal. f_equal. lia.
Qed.

Lemma ival_binary_round s p e :
  -1074 <= e ->
  ival (binary_round prec emax s p e) =
  cond_Zopp s (Z.min (rounded (-1074) (Z.pos p * 2 ^ (e + 1074))) ival_inf).
Proof.
  intros He. unfold binary_round.
  pose proof (shl_align_spec p e (fexp prec emax (Z.pos (digits2_pos p) + e)))
    as [Hez Hmz].
  destruct (shl_align p e _) as [mz ez]. simpl in Hez, Hmz.
  pose proof (pow2_gt0 (e - ez) ltac:(lia)) as Hp.
  assert (Hd : Zdigits2 (Z.pos mz) + ez = Z.pos (digits2_pos p) + e).
  { rewrite Hmz, Zdigits2_mul_pow2 by lia. simpl Zdigits2. lia. }
  fold (bra s (Z.pos mz) ez loc_Exact).
  rewrite (bra_rescale s (Z.pos mz) ez (-1074));
    [|lia|rewrite fexp64 in Hez; lia|rewrite Hd; lia].
  rewrite ival_bra; [|pose proof (pow2_gt0 (ez - -1074) ltac:(rewrite fexp64 in Hez; lia)); nia|lia].
  do 3 f_equal. rewrite Hmz, <- Z.mul_assoc, <- pow2_split;
    [f_equal; f_equal; lia|lia|rewrite fexp64 in Hez; lia].
Qed.

Lemma rounded_id m e :
  bounded prec emax m e = true ->
  rounded (-1074) (Z.pos m * 2 ^ (e + 1074)) = Z.pos m * 2 ^ (e + 1074).
Proof.
  intros Hb. destruct (bounded_spec m e Hb) as (He & Hm & Hn).
  pose proof (pow2_gt0 (e + 1074) ltac:(lia)) as Hp.
  unfold rounded, dropped_bits. rewrite Zdigits2_mul_pow2 by lia.
  destruct (Zdigits2_bounds (Z.pos m) ltac:(lia)) as [Hd [Hlo Hhi]].
  assert (Hd53 : Zdigits2 (Z.pos m) <= 53).
  { apply Zdigits2_le; lia. }
  destruct (Z.eq_dec e (-1074)) as [->|Hne].
  - replace (Z.max _ _ - -1074) with 0 by lia.
    change (-1074 + 1074) with 0. unfold rne. simpl. lia.
  - assert (Hd' : Zdigits2 (Z.pos m) = 53).
    { apply Zdigits2_unique; [lia|]. change (53 - 1) with 52. split; [apply Hn; lia|lia]. }
    rewrite Hd'.
    replace (Z.max (53 + (e + 1074) + -1074 - 53) (-1074) - -1074) with (e + 1074) by lia.
    rewrite rne_exact by lia. f_equal. f_equal. lia.
Qed.

Lemma round_int_id s m e :
  bounded prec emax m e = true ->
  round_int (-1074) (cond_Zopp s (Z.pos m * 2 ^ (e + 1074))) =
  cond_Zopp s (Z.pos m * 2 ^ (e + 1074)).
Proof.
  intros Hb. pose proof (mag_bounds m e Hb).
  rewrite round_int_cond_Zopp by lia. rewrite rounded_id by assumption. f_equal. lia.
Qed.

Lemma ival_SFadd x y :
  valid_binary x = true -> valid_binary y = true ->
  sf_finite x -> sf_finite y ->
  ival (SF64add x y) = round_int (-1074) (ival x + ival y).
Proof.
  intros Hvx Hvy Hx Hy.
  destruct x as [sx|sx| |sx mx ex]; try easy;
  destruct y as [sy|sy| |sy my ey]; try easy; simpl in Hvx, Hvy.
  - now destruct sx, sy.
  - cbn [SF64add SFadd ival]. rewrite Z.add_0_l. symmetry. now apply round_int_id.
  - cbn [SF64add SFadd ival]. rewrite Z.add_0_r. symmetry. now apply round_int_id.
  - unfold SF64add, SFadd.
    destruct (bounded_spec mx ex Hvx) as (Hex & _).
    destruct (bounded_spec my ey Hvy) as (Hey & _).
    pose proof (shl_align_spec mx ex (Z.min ex ey)) as [Hxe Hxm].
    pose proof (shl_align_spec my ey (Z.min ex ey)) as [Hye Hym].
    destruct (shl_align mx ex _) as [ax ex']. destruct (shl_align my ey _) as [ay ey'].
    cbn [fst snd] in *.
    set (ez := Z.min ex ey) in *.
    assert (Hsum : ival (S754_finite sx mx ex) + ival (S754_finite sy my ey)
                   = (cond_Zopp sx (Z.pos ax) + cond_Zopp sy (Z.pos ay)) * 2 ^ (ez + 1074)).
    { cbn [ival]. rewrite Hxm, Hym.
      replace (ex + 1074) with ((ex - ex') + (ez + 1074)) by lia.
      replace (ey + 1074) with ((ey - ey') + (ez + 1074)) by lia.
      rewrite (pow2_split (ex - ex') (ez + 1074)),
        (pow2_split (ey - ey') (ez + 1074)) by lia.
      destruct sx, sy; cbn [cond_Zopp]; ring. }
    rewrite Hsum.
    pose proof (pow2_gt0 (ez + 1074) ltac:(lia)) as Hp.
    destruct (cond_Zopp sx (Z.pos ax) + cond_Zopp sy (Z.pos ay)) as [|p|p].
    + reflexivity.
    + cbn [binary_normalize]. rewrite ival_binary_round by lia.
      rewrite round_int_pos by nia. reflexivity.
    + cbn [binary_normalize]. rewrite ival_binary_round by lia.
      change (Z.neg p) with (- Z.pos p). rewrite Z.mul_opp_l.
      rewrite round_int_neg by nia. reflexivity.
Qed.

Lemma ival_SFsub x y :
  valid_binary x = true -> valid_binary y = true ->
  sf_finite x -> sf_finite y ->
  ival (SF64sub x y) = round_int (-1074) (ival x - ival y).
Proof.
  intros Hvx Hvy Hx Hy.
  destruct x as [sx|sx| |sx mx ex]; try easy;
  destruct y as [sy|sy| |sy my ey]; try easy; simpl in Hvx, Hvy.
  - now destruct sx, sy.
  - cbn [SF64sub SFsub ival]. rewrite Z.sub_0_l.
    replace (- cond_Zopp sy (Z.pos my * 2 ^ (ey + 1074)))
      with (cond_Zopp (negb sy) (Z.pos my * 2 ^ (ey + 1074)))
      by (destruct sy; simpl; lia).
    symmetry. now apply round_int_id.
  - cbn [SF64sub SFsub ival]. rewrite Z.sub_0_r. symmetry. now apply round_int_id.
  - unfold SF64sub, SFsub.
    destruct (bounded_spec mx ex Hvx) as (Hex & _).
    destruct (bounded_spec my ey Hvy) as (Hey & _).
    pose proof (shl_align_spec mx ex (Z.min ex ey)) as [Hxe Hxm].
    pose proof (shl_align_spec my ey (Z.min ex ey)) as [Hye Hym].
    destruct (shl_align mx ex _) as [ax ex']. destruct (shl_align my ey _) as [ay ey'].
    cbn [fst snd] in *.
    set (ez := Z.min ex ey) in *.
    assert (Hsum : ival (S754_finite sx mx ex) - ival (S754_finite sy my ey)
                   = (cond_Zopp sx (Z.pos ax) - cond_Zopp sy (Z.pos ay)) * 2 ^ (ez + 1074)).
    { cbn [ival]. rewrite Hxm, Hym.
      replace (ex + 1074) with ((ex - ex') + (ez + 1074)) by lia.
      replace (ey + 1074) with ((ey - ey') + (ez + 1074)) by lia.
      rewrite (pow2_split (ex - ex') (ez + 1074)),
        (pow2_split (ey - ey') (ez + 1074)) by lia.
      destruct sx, sy; cbn [cond_Zopp]; ring. }
    rewrite Hsum.
    pose proof (pow2_gt0 (ez + 1074) ltac:(lia)) as Hp.
    destruct (cond_Zopp sx (Z.pos ax) - cond_Zopp sy (Z.pos ay)) as [|p|p].
    + reflexivity.
    + cbn [binary_normalize]. rewrite ival_binary_round by lia.
      rewrite round_int_pos by nia. reflexivity.
    + cbn [binary_normalize]. rewrite ival_binary_round by lia.
      change (Z.neg p) with (- Z.pos p). rewrite Z.mul_opp_l.
      rewrite round_int_neg by nia. reflexivity.
Qed.

(** The exact product of two numbers is a multiple of [2^-2148]. *)
Lemma ival_SFmul x y :
  valid_binary x = true -> valid_binary y = true ->
  sf_finite x -> sf_finite y ->
  ival (SF64mul x y) = round_int (-2148) (ival x * ival y).
Proof.
  intros Hvx Hvy Hx Hy.
  destruct x as [sx|sx| |sx mx ex]; try easy;
  destruct y as [sy|sy| |sy my ey]; try easy; simpl in Hvx, Hvy.
  - cbn [SF64mul SFmul ival]. now rewrite Z.mul_0_r.
  - unfold SF64mul, SFmul.
    destruct (bounded_spec mx ex Hvx) as (Hex & Hmx & Hnx).
    destruct (bounded_spec my ey Hvy) as (Hey & Hmy & Hny).
    fold (bra (xorb sx sy) (Z.pos (mx * my)) (ex + ey) loc_Exact).
    assert (Hpre : ex + ey <= fexp prec emax (Zdigits2 (Z.pos (mx * my)) + (ex + ey))).
    { rewrite fexp64. destruct (Z.le_gt_cases (ex + ey) (-1074)) as [|Hgt]; [lia|].
      assert (53 <= Zdigits2 (Z.pos (mx * my))); [|lia].
      apply Zdigits2_ge; [lia|]. change (53 - 1) with 52.
      rewrite Pos2Z.inj_mul. rewrite pow2_52 in *.
      destruct (Z.lt_ge_cases (-1074) ex) as [Hc|Hc].
      - specialize (Hnx Hc). nia.
      - specialize (Hny ltac:(lia)). nia. }
    rewrite (bra_rescale _ _ (ex + ey) (-2148)) by lia.
    pose proof (pow2_gt0 (ex + 1074) ltac:(lia)) as Hpx.
    pose proof (pow2_gt0 (ey + 1074) ltac:(lia)) as Hpy.
    replace (ex + ey - -2148) with ((ex + 1074) + (ey + 1074)) by lia.
    rewrite pow2_split by lia.
    rewrite ival_bra by nia.
    cbn [ival].
    replace (cond_Zopp sx (Z.pos mx * 2 ^ (ex + 1074))
             * cond_Zopp sy (Z.pos my * 2 ^ (ey + 1074)))
      with (cond_Zopp (xorb sx sy)
              (Z.pos (mx * my) * (2 ^ (ex + 1074) * 2 ^ (ey + 1074))))
      by (destruct sx, sy; simpl; nia).
    rewrite round_int_cond_Zopp by nia. reflexivity.
Qed.

(** *** Monotonicity of the primitive operations *)

Lemma sf_finite_nonnan x : sf_finite x -> sf_nonnan x.
Proof. now destruct x. Qed.

Lemma leb_ival x y :
  sf_nonnan (Prim2SF x) -> sf_nonnan (Prim2SF y) ->
  (x <=? y)%float = true <-> ival (Prim2SF x) <= ival (Prim2SF y).
Proof.
  intros Hx Hy. rewrite FloatAxioms.leb_spec.
  apply SFleb_ival; auto using Prim2SF_valid.
Qed.

Lemma leb_nonnan x y :
  (x <=? y)%float = true -> sf_nonnan (Prim2SF x) /\ sf_nonnan (Prim2SF y).
Proof. rewrite FloatAxioms.leb_spec. apply SFleb_nonnan. Qed.

Lemma mul_const_mono x y c mc ec :
  Prim2SF c = S754_finite false mc ec ->
  is_finite x = true -> is_finite y = true ->
  (x <=? y)%float = true -> (x * c <=? y * c)%float = true.
Proof.
  intros Hc Hx Hy Hle.
  apply is_finite_spec in Hx, Hy.
  pose proof (Prim2SF_valid c) as Hvc.
  apply leb_ival in Hle; auto using sf_finite_nonnan.
  apply leb_ival.
  - rewrite mul_spec, Hc. apply SFmul_finite_nonnan. now apply sf_finite_nonnan.
  - rewrite mul_spec, Hc. apply SFmul_finite_nonnan. now apply sf_finite_nonnan.
  - rewrite !mul_spec.
    rewrite !ival_SFmul; auto using Prim2SF_valid; try (now rewrite Hc).
    apply round_int_mono; [lia|]. rewrite Hc. cbn [ival cond_Zopp].
    rewrite Hc in Hvc. pose proof (mag_bounds mc ec Hvc). nia.
Qed.

(** A finite sum or product has finite operands. *)
Lemma add_finite_inv a b :
  is_finite (a + b) = true -> is_finite a = true /\ is_finite b = true.
Proof.
  rewrite !is_finite_spec, add_spec.
  destruct (Prim2SF a) as [[]|[]| |sa ma ea], (Prim2SF b) as [[]|[]| |sb mb eb];
    simpl; easy.
Qed.

Lemma mul_const_finite_inv x c mc ec :
  Prim2SF c = S754_finite false mc ec ->
  is_finite (x * c) = true -> is_finite x = true.
Proof.
  intros Hc. rewrite !is_finite_spec, mul_spec, Hc.
  destruct (Prim2SF x) as [[]|[]| |sx mx ex]; simpl; easy.
Qed.

Lemma pos_const_inv c :
  is_pos_const c = true -> exists m e, Prim2SF c = S754_finite false m e.
Proof.
  unfold is_pos_const. destruct (Prim2SF c) as [s|s| |[] m e]; try easy.
  intros _. now exists m, e.
Qed.

Lemma fl_nonneg_nonnan x : fl_nonneg x -> fl_nonnan x.
Proof. apply sf_nonneg_nonnan. Qed.

Lemma fl_plus_nonneg x : fl_plus x -> fl_nonneg x.
Proof. apply sf_shape_nonneg. Qed.

Lemma fl_finite_nonnan x : fl_finite x -> fl_nonnan x.
Proof. apply sf_finite_nonnan. Qed.

Lemma ltb0_nonneg x : (0 <? x)%float = true -> fl_nonneg x.
Proof. intros H. apply ltb0_spec in H. now apply sf_pos_nonneg. Qed.

Lemma ltb0_nonpos x : (0 <? x)%float = true -> fl_nonpos x -> False.
Proof. intros H. apply ltb0_spec in H. now apply sf_pos_nonpos. Qed.

Lemma mul_const_nonneg x c :
  is_pos_const c = true -> fl_nonneg x -> fl_nonneg (x * c).
Proof.
  intros Hc Hx. destruct (pos_const_inv c Hc) as (m & e & He).
  unfold fl_nonneg. rewrite mul_spec, He. now apply SFmul_pos_nonneg.
Qed.

Lemma mul_const_nonpos x c :
  is_pos_const c = true -> fl_nonpos x -> fl_nonpos (x * c).
Proof.
  intros Hc Hx. destruct (pos_const_inv c Hc) as (m & e & He).
  unfold fl_nonpos. rewrite mul_spec, He. now apply SFmul_pos_nonpos.
Qed.

Lemma mul_const_nonnan x c :
  is_pos_const c = true -> fl_nonnan x -> fl_nonnan (x * c).
Proof.
  intros Hc Hx. destruct (pos_const_inv c Hc) as (m & e & He).
  unfold fl_nonnan. rewrite mul_spec, He. now apply SFmul_finite_nonnan.
Qed.

Lemma add_nonneg x y : fl_nonneg x -> fl_nonneg y -> fl_nonneg (x + y).
Proof. unfold fl_nonneg. rewrite add_spec. apply SFadd_nonneg. Qed.

Lemma add_nonpos x y : fl_nonpos x -> fl_nonpos y -> fl_nonpos (x + y).
Proof. unfold fl_nonpos. rewrite add_spec. apply SFadd_nonpos. Qed.

Lemma add_plus x y : fl_plus x -> fl_nonneg y -> fl_plus (x + y).
Proof. unfold fl_plus, fl_nonneg. rewrite add_spec. apply SFadd_plus. Qed.

(** Adding [+0] or [-0] to a sum that is not [-0] gives the same sum. *)
Lemma add_plus_zero x y :
  fl_plus x -> is_zero y = true -> (x + 0 = x + y)%float.
Proof.
  intros Hx Hy. apply is_zero_spec in Hy as [s Hs].
  apply Prim2SF_inj. rewrite !add_spec, Hs.
  change (Prim2SF 0) with (S754_zero false).
  now rewrite !SFadd_plus_zero.
Qed.

Lemma nonneg_or_nonpos x : fl_finite x -> fl_nonneg x \/ fl_nonpos x.
Proof.
  unfold fl_finite, fl_nonneg, fl_nonpos.
  destruct (Prim2SF x) as [s|s| |[] m e]; simpl; tauto.
Qed.

Lemma nonpos_ltb_pos_const x c :
  is_pos_const c = true -> fl_nonpos x -> (x <? c)%float = true.
Proof.
  intros Hc Hx. destruct (pos_const_inv c Hc) as (m & e & He).
  rewrite FloatAxioms.ltb_spec, He. unfold fl_nonpos in Hx.
  destruct (Prim2SF x) as [s|[]| |[] mx ex]; simpl in *; easy.
Qed.

(** The formula of the return on investment is defined on every positive
    total. *)
Lemma roi_formula_nonnan v c d :
  is_pos_const c = true -> is_pos_const d = true ->
  (0 <? v)%float = true -> fl_nonnan ((v - c) / c * d).
Proof.
  intros Hc Hd Hv. apply ltb0_spec in Hv.
  destruct (pos_const_inv c Hc) as (mc & ec & Hec).
  destruct (pos_const_inv d Hd) as (md & ed & Hed).
  unfold fl_nonnan. rewrite mul_spec, div_spec, sub_spec, Hec, Hed.
  apply SFmul_finite_nonnan, SFdiv_finite_nonnan.
  now apply SFsub_pos_finite_nonnan.
Qed.

Lemma add_mono a a' b b' :
  is_finite a = true -> is_finite a' = true ->
  is_finite b = true -> is_finite b' = true ->
  (a <=? a')%float = true -> (b <=? b')%float = true ->
  (a + b <=? a' + b')%float = true.
Proof.
  intros Ha Ha' Hb Hb' Hle Hle'.
  apply is_finite_spec in Ha, Ha', Hb, Hb'.
  apply leb_ival in Hle, Hle'; auto using sf_finite_nonnan.
  apply leb_ival.
  - rewrite add_spec. now apply SFadd_finite_nonnan.
  - rewrite add_spec. now apply SFadd_finite_nonnan.
  - rewrite !add_spec, !ival_SFadd; auto using Prim2SF_valid.
    apply round_int_mono; lia.
Qed.

Lemma leb_refl x : fl_nonnan x -> (x <=? x)%float = true.
Proof. intros Hx. apply leb_ival; [exact Hx|exact Hx|lia]. Qed.

Lemma is_nan_ltb0 x : is_nan x = true -> (0 <? x)%float = false.
Proof.
  intros H. apply is_nan_spec in H. rewrite FloatAxioms.ltb_spec, H. reflexivity.
Qed.

Lemma is_nan_mul_l x c : is_nan x = true -> is_nan (x * c) = true.
Proof.
  intros H. apply is_nan_spec in H. apply is_nan_spec. now rewrite mul_spec, H.
Qed.

Lemma is_nan_add_l x y : is_nan x = true -> is_nan (x + y) = true.
Proof.
  intros H. apply is_nan_spec in H. apply is_nan_spec. now rewrite add_spec, H.
Qed.

Lemma is_nan_add_r x y : is_nan y = true -> is_nan (x + y) = true.
Proof.
  intros H. apply is_nan_spec in H. apply is_nan_spec. rewrite add_spec, H.
  now destruct (Prim2SF x).
Qed.

Lemma is_nan_leb_r x y : is_nan y = true -> (x <=? y)%float = false.
Proof.
  intros H. apply is_nan_spec in H. rewrite FloatAxioms.leb_spec, H.
  now destruct (Prim2SF x).
Qed.

Lemma is_finite_nonnan x : is_finite x = true -> fl_nonnan x.
Proof. intros H. apply is_finite_spec in H. now apply sf_finite_nonnan. Qed.

(** *** The quotient of a division *)

Lemma shr_rat_step a h mrs : 0 < h -> shr_rat a h mrs -> shr_rat a (2 * h) (shr_1 mrs).
Proof.
  intros Hh [Hq (t & Ht & Ha & Hs)]. destruct mrs as [q r s].
  cbn [shr_m shr_r shr_s] in *. rewrite shr_1_spec by assumption.
  pose proof (Z.div2_odd q) as Hdq. rewrite Z.div2_div in Hdq.
  split; cbn [shr_m shr_r shr_s].
  - apply Z.div_pos; lia.
  - exists (Z.b2z r * h + t). split; [destruct r; simpl; lia|]. split.
    + destruct (Z.odd q); simpl Z.b2z in *; nia.
    + rewrite Hs. destruct r; simpl.
      * destruct (Z.eqb_spec (1 * h + t) 0); [lia|reflexivity].
      * reflexivity.
Qed.

Lemma shr_rat_iter a h mrs n :
  0 < h -> shr_rat a h mrs ->
  shr_rat a (h * 2 ^ Z.of_nat n) (Nat.iter n shr_1 mrs).
Proof.
  intros Hh Hinv. induction n as [|n IH].
  - simpl. now rewrite Z.mul_1_r.
  - change (Nat.iter (S n) shr_1 mrs) with (shr_1 (Nat.iter n shr_1 mrs)).
    replace (Z.of_nat (S n)) with (Z.of_nat n + 1) by lia.
    rewrite pow2_succ by lia.
    replace (h * (2 * 2 ^ Z.of_nat n)) with (2 * (h * 2 ^ Z.of_nat n)) by lia.
    apply shr_rat_step; [|assumption].
    pose proof (pow2_gt0 (Z.of_nat n) ltac:(lia)). nia.
Qed.

Lemma shr_rat_shr a h mrs e n :
  0 < h -> 0 <= n -> shr_rat a h mrs ->
  snd (shr mrs e n) = e + n /\ shr_rat a (h * 2 ^ n) (fst (shr mrs e n)).
Proof.
  intros Hh Hn Hinv. destruct n as [|p|p]; [| |lia].
  - simpl. split; [lia|]. now rewrite Z.mul_1_r.
  - simpl shr. cbn [fst snd]. split; [reflexivity|].
    rewrite iter_pos_nat.
    replace (Z.pos p) with (Z.of_nat (Pos.to_nat p)) by lia.
    now apply shr_rat_iter.
Qed.

Lemma shr_rat_round a h mrs :
  0 < h -> shr_rat a h mrs ->
  round_nearest_even (shr_m mrs) (loc_of_shr_record mrs) = rne_h a h.
Proof.
  intros Hh [Hq (t & Ht & Hm & Hs)]. destruct mrs as [q r s].
  cbn [shr_m shr_r shr_s] in *. unfold rne_h.
  assert (Hdiv : a / (2 * h) = q).
  { symmetry. apply (Z.div_unique a (2 * h) q (Z.b2z r * h + t));
      [destruct r; simpl; lia | lia]. }
  assert (Hmod : a mod (2 * h) = Z.b2z r * h + t).
  { symmetry. apply (Z.mod_unique a (2 * h) q);
      [destruct r; simpl; lia | lia]. }
  rewrite Hdiv, Hmod, Hs.
  destruct r; simpl Z.b2z.
  - destruct (Z.ltb_spec (1 * h + t) h); [lia|].
    destruct (Z.eqb_spec t 0) as [->|Ht0]; simpl.
    + destruct (Z.ltb_spec h (1 * h + 0)); [lia|reflexivity].
    + destruct (Z.ltb_spec h (1 * h + t)); [reflexivity|lia].
  - destruct (Z.ltb_spec (0 * h + t) h); [|lia].
    now destruct (t =? 0).
Qed.

(** The record a division starts from: quotient [q], and the place of the
    remainder [r] with respect to half the divisor [b]. *)
Lemma shr_rat_new_location q r b :
  0 <= q -> 0 <= r < b ->
  shr_rat (2 * (q * b + r)) b (shr_record_of_loc q (new_location b r)).
Proof.
  intros Hq Hr. unfold new_location, new_location_even, new_location_odd.
  destruct (Z.even b) eqn:Heven; destruct (Z.eqb_spec r 0) as [Hr0|Hr0];
    try (split; [assumption|]; exists 0; cbn; split; [lia|]; split; [lia|reflexivity]).
  - destruct (Z.compare_spec (2 * r) b) as [He|Hl|Hg]; (split; [assumption|]);
      cbn [shr_record_of_loc shr_m shr_r shr_s Z.b2z].
    + exists 0. split; [lia|]. split; [lia|reflexivity].
    + exists (2 * r). split; [lia|]. split; [lia|].
      destruct (Z.eqb_spec (2 * r) 0); [lia|reflexivity].
    + exists (2 * r - b). split; [lia|]. split; [lia|].
      destruct (Z.eqb_spec (2 * r - b) 0); [lia|reflexivity].
  - assert (Hodd : Z.odd b = true) by (rewrite <- Z.negb_even, Heven; reflexivity).
    apply Z.odd_spec in Hodd as [c Hc].
    destruct (Z.compare_spec (2 * r + 1) b) as [He|Hl|Hg]; (split; [assumption|]);
      cbn [shr_record_of_loc shr_m shr_r shr_s Z.b2z].
    + exists (2 * r). split; [lia|]. split; [lia|].
      destruct (Z.eqb_spec (2 * r) 0); [lia|reflexivity].
    + exists (2 * r). split; [lia|]. split; [lia|].
      destruct (Z.eqb_spec (2 * r) 0); [lia|reflexivity].
    + exists (2 * r - b). split; [lia|]. split; [lia|].
      destruct (Z.eqb_spec (2 * r - b) 0); [lia|reflexivity].
Qed.

(** [binary_round_aux] on a quotient with the place of its remainder: the
    rational is rounded to [rne_h a (h * 2^n)] at the exponent [e1] that the
    size of the quotient calls for, provided the result has the size that
    goes with [e1]. *)
Lemma bra_loc s q e l a h :
  0 < h -> shr_rat a h (shr_record_of_loc q l) ->
  let e1 := fexp prec emax (Zdigits2 q + e) in
  let r := rne_h a (h * 2 ^ (e1 - e)) in
  e <= e1 ->
  (-1074 < e1 /\ 2 ^ 52 <= r <= 2 ^ 53) \/ (e1 = -1074 /\ 0 <= r <= 2 ^ 53) ->
  bra s q e l = sf_make s r e1.
Proof.
  intros Hh Hinv e1 r Hn Hcase. unfold bra, binary_round_aux.
  unfold shr_fexp at 1. fold e1.
  destruct (shr_rat_shr a h _ e (e1 - e) Hh ltac:(lia) Hinv) as [He' Hinv'].
  destruct (shr (shr_record_of_loc q l) e (e1 - e)) as [mrs' e'].
  cbn [fst snd] in He', Hinv'.
  rewrite (shr_rat_round a (h * 2 ^ (e1 - e))); [|
    pose proof (pow2_gt0 (e1 - e) ltac:(lia)); nia | assumption].
  fold r. replace e' with e1 by lia. clear He' Hinv' mrs' e'.
  assert (He1v : -1074 <= e1) by (unfold e1; rewrite fexp64; lia).
  clearbody r e1.
  rewrite pow2_52, pow2_53 in Hcase. unfold sf_make.
  destruct (Z.eqb_spec r 0) as [Hz|Hz].
  - rewrite Hz. rewrite shr_fexp_noshift.
    + reflexivity.
    + simpl Zdigits2. rewrite fexp64. lia.
  - destruct (Z.eqb_spec r 9007199254740992) as [Hc|Hc].
    + rewrite Hc.
      unfold shr_fexp. simpl shr_record_of_loc.
      change (Zdigits2 9007199254740992) with 54. rewrite fexp64.
      replace (Z.max (54 + e1 - 53) (-1074) - e1) with 1 by lia.
      simpl shr. cbn [fst snd shr_m].
      change (emax - prec) with 971. reflexivity.
    + assert (Hdq : Zdigits2 r <= 53).
      { apply Zdigits2_le; [lia|lia|]. rewrite pow2_53. lia. }
      rewrite shr_fexp_noshift.
      * cbn [shr_m]. destruct r as [|pq|pq]; try lia.
        change (emax - prec) with 971. reflexivity.
      * rewrite fexp64. destruct Hcase as [(He1 & Hq52 & Hq53)|[He1 Hle]].
        -- assert (Zdigits2 r = 53); [|lia].
           apply Zdigits2_unique; [lia|]. change (53 - 1) with 52.
           rewrite pow2_52, pow2_53. lia.
        -- lia.
Qed.

Lemma rne_h_le m h c : 0 < h -> m <= c * (2 * h) -> rne_h m h <= c.
Proof.
  intros Hh Hm. rewrite <- (rne_h_exact c h Hh). now apply rne_h_mono.
Qed.

Lemma rne_h_ge m h c : 0 < h -> c * (2 * h) <= m -> c <= rne_h m h.
Proof.
  intros Hh Hm. rewrite <- (rne_h_exact c h Hh) at 1. now apply rne_h_mono.
Qed.

Lemma Zdigits2_nonneg m : 0 <= m -> 0 <= Zdigits2 m /\ m < 2 ^ Zdigits2 m.
Proof.
  intros Hm. destruct (Z.eq_dec m 0) as [->|Hne].
  - simpl. lia.
  - destruct (Zdigits2_bounds m ltac:(lia)). lia.
Qed.

Lemma Zdigits2_mono0 n1 n2 : 0 <= n1 <= n2 -> Zdigits2 n1 <= Zdigits2 n2.
Proof.
  intros H. destruct (Z.eq_dec n1 0) as [->|Hne].
  - apply Zdigits2_nonneg. lia.
  - apply Zdigits2_mono. lia.
Qed.

Lemma rounded_quot_nonneg p d : 0 <= p -> 0 < d -> 0 <= rounded_quot p d.
Proof.
  intros Hp Hd. unfold rounded_quot.
  assert (Hk : 0 <= quot_bits p d) by (unfold quot_bits; lia).
  pose proof (pow2_gt0 _ Hk) as Hpk.
  assert (0 <= rne_h (2 * p) (d * 2 ^ quot_bits p d)); [|nia].
  apply rne_h_ge; nia.
Qed.

Lemma rounded_quot_mono d p1 p2 :
  0 < d -> 0 <= p1 <= p2 -> rounded_quot p1 d <= rounded_quot p2 d.
Proof.
  intros Hd Hp.
  assert (Hq : 0 <= p1 / d <= p2 / d).
  { split; [apply Z.div_pos; lia | apply Z.div_le_mono; lia]. }
  pose proof (Zdigits2_mono0 _ _ Hq) as Hdg.
  destruct (Zdigits2_nonneg (p1 / d) ltac:(lia)) as [Hd1 Hlt1].
  pose proof (Z.mul_div_le p1 d Hd) as Hlo1.
  pose proof (Z.mul_succ_div_gt p1 d Hd) as Hhi1.
  pose proof (Z.mul_div_le p2 d Hd) as Hlo2.
  unfold rounded_quot.
  assert (Hk1 : quot_bits p1 d = Z.max (Zdigits2 (p1 / d) - 53) 0) by reflexivity.
  assert (Hk2 : quot_bits p2 d = Z.max (Zdigits2 (p2 / d) - 53) 0) by reflexivity.
  set (q1 := p1 / d) in *. set (q2 := p2 / d) in *.
  set (d1 := Zdigits2 q1) in *. set (d2 := Zdigits2 q2) in *.
  set (k1 := quot_bits p1 d) in *. set (k2 := quot_bits p2 d) in *.
  clearbody k1 k2 d1.
  pose proof (pow2_gt0 k1 ltac:(lia)) as Hpk1.
  pose proof (pow2_gt0 k2 ltac:(lia)) as Hpk2.
  assert (Hcmp : k1 = k2 \/ k1 < k2) by lia.
  destruct Hcmp as [Heq|Hlt].
  - rewrite <- Heq. apply Z.mul_le_mono_nonneg_r; [lia|].
    apply rne_h_mono; [nia|lia].
  - assert (Hq2 : 0 < q2).
    { destruct (Z.eq_dec q2 0) as [Hz|Hz]; [|lia].
      unfold d2 in Hk2. rewrite Hz in Hk2. simpl in Hk2. lia. }
    destruct (Zdigits2_bounds q2 Hq2) as [_ [Hge2 _]]. fold d2 in Hge2.
    clearbody d2.
    pose proof (pow2_le d1 (d2 - 1) ltac:(lia)) as Hpw.
    pose proof (pow2_gt0 (d2 - 1) ltac:(lia)) as Hpd.
    assert (Hs1 : 2 ^ (d2 - 1) = 2 ^ (d2 - 1 - k1) * 2 ^ k1).
    { rewrite <- pow2_split by lia. f_equal. lia. }
    assert (Hs2 : 2 ^ (d2 - 1) = 2 ^ (d2 - 1 - k2) * 2 ^ k2).
    { rewrite <- pow2_split by lia. f_equal. lia. }
    assert (Hp1 : p1 <= 2 ^ (d2 - 1) * d) by nia.
    assert (Hp2 : 2 ^ (d2 - 1) * d <= p2) by nia.
    apply Z.le_trans with (2 ^ (d2 - 1)).
    + rewrite Hs1. apply Z.mul_le_mono_nonneg_r; [lia|].
      apply rne_h_le; [nia|].
      rewrite Hs1 in Hp1. lia.
    + rewrite Hs2. apply Z.mul_le_mono_nonneg_r; [lia|].
      apply rne_h_ge; [nia|].
      rewrite Hs2 in Hp2. lia.
Qed.

Lemma round_quot_mono y x1 x2 : 0 < y -> x1 <= x2 -> round_quot x1 y <= round_quot x2 y.
Proof.
  intros Hy Hx. pose proof ival_inf_pos.
  pose proof (pow2_gt0 1074 ltac:(lia)) as Hp.
  destruct x1 as [|p1|p1], x2 as [|p2|p2]; cbn [round_quot]; try lia.
  - pose proof (rounded_quot_nonneg (Z.pos p2 * 2 ^ 1074) y ltac:(lia) Hy). lia.
  - pose proof (rounded_quot_mono y (Z.pos p1 * 2 ^ 1074) (Z.pos p2 * 2 ^ 1074) Hy
                  ltac:(nia)). lia.
  - pose proof (rounded_quot_nonneg (Z.pos p1 * 2 ^ 1074) y ltac:(lia) Hy). lia.
  - pose proof (rounded_quot_nonneg (Z.pos p1 * 2 ^ 1074) y ltac:(lia) Hy).
    pose proof (rounded_quot_nonneg (Z.pos p2 * 2 ^ 1074) y ltac:(lia) Hy). lia.
  - pose proof (rounded_quot_mono y (Z.pos p2 * 2 ^ 1074) (Z.pos p1 * 2 ^ 1074) Hy
                  ltac:(nia)). lia.
Qed.

Lemma round_quot_cond_Zopp s x y :
  0 < x ->
  round_quot (cond_Zopp s x) y = cond_Zopp s (Z.min (rounded_quot (x * 2 ^ 1074) y) ival_inf).
Proof. intros Hx. destruct x; try lia. now destruct s. Qed.

(** The size of a rounded quotient. *)
Lemma quot_range q r b e :
  0 <= q -> 0 <= r < b ->
  let e1 := Z.max (Zdigits2 q + e - 53) (-1074) in
  let z := rne_h (2 * (q * b + r)) (b * 2 ^ (e1 - e)) in
  e <= e1 ->
  (-1074 < e1 /\ 2 ^ 52 <= z <= 2 ^ 53) \/ (e1 = -1074 /\ 0 <= z <= 2 ^ 53).
Proof.
  intros Hq Hr e1 z Hn.
  destruct (Zdigits2_nonneg q Hq) as [Hdq Hlt].
  assert (He1 : e1 = Z.max (Zdigits2 q + e - 53) (-1074)) by reflexivity.
  assert (Hz : z = rne_h (2 * (q * b + r)) (b * 2 ^ (e1 - e))) by reflexivity.
  set (dq := Zdigits2 q) in *. clearbody e1 z.
  set (n := e1 - e) in *.
  pose proof (pow2_gt0 n ltac:(lia)) as Hpn.
  assert (Hh : 0 < b * 2 ^ n) by nia.
  assert (Hup : z <= 2 ^ 53).
  { rewrite Hz. apply rne_h_le; [assumption|].
    pose proof (pow2_le dq (n + 53) ltac:(lia)) as Hle.
    rewrite (Z.add_comm n 53), pow2_split in Hle by lia.
    pose proof (pow2_gt0 53 ltac:(lia)).
    assert (q + 1 <= 2 ^ 53 * 2 ^ n) by lia.
    assert ((q + 1) * b <= 2 ^ 53 * 2 ^ n * b) by nia.
    nia. }
  destruct (Z.le_gt_cases e1 (-1074)) as [Hc|Hc].
  - right. split; [lia|]. split; [|assumption].
    rewrite Hz. apply rne_h_ge; [assumption|]. nia.
  - left. split; [assumption|]. split; [|assumption].
    assert (Hdn : dq = n + 53) by lia.
    assert (Hq0 : 0 < q).
    { destruct (Z.eq_dec q 0) as [Hz0|Hz0]; [|lia].
      unfold dq in Hdn. rewrite Hz0 in Hdn. simpl in Hdn. lia. }
    destruct (Zdigits2_bounds q Hq0) as [_ [Hge _]]. fold dq in Hge.
    replace (dq - 1) with (52 + n) in Hge by lia.
    rewrite pow2_split in Hge by lia.
    pose proof (pow2_gt0 52 ltac:(lia)).
    rewrite Hz. apply rne_h_ge; [assumption|].
    assert (2 ^ 52 * 2 ^ n * b <= q * b) by nia.
    nia.
Qed.

Lemma Zdigits2_div_pow2 q t :
  0 <= q -> 0 <= t -> Zdigits2 (q / 2 ^ t) = Z.max (Zdigits2 q - t) 0.
Proof.
  intros Hq Ht. pose proof (pow2_gt0 t Ht) as Hp.
  destruct (Zdigits2_nonneg q Hq) as [Hdq Hlt].
  destruct (Z.lt_ge_cases q (2 ^ t)) as [Hs|Hs].
  - rewrite Z.div_small by lia. simpl.
    destruct (Z.eq_dec q 0) as [->|Hne]; [simpl; lia|].
    pose proof (Zdigits2_le q t ltac:(lia) Ht Hs). lia.
  - assert (Hq0 : 0 < q) by lia.
    destruct (Zdigits2_bounds q Hq0) as [_ [Hge _]].
    assert (Hdt : t < Zdigits2 q).
    { destruct (Z.lt_ge_cases t (Zdigits2 q)) as [|Hc]; [assumption|].
      pose proof (pow2_le (Zdigits2 q) t ltac:(lia)). lia. }
    rewrite Z.max_l by lia.
    apply Zdigits2_unique; [lia|]. split.
    + apply Z.div_le_lower_bound; [lia|].
      rewrite Z.mul_comm, <- pow2_split by lia.
      now replace (Zdigits2 q - t - 1 + t) with (Zdigits2 q - 1) by lia.
    + apply Z.div_lt_upper_bound; [lia|].
      rewrite <- pow2_split by lia.
      now replace (t + (Zdigits2 q - t)) with (Zdigits2 q) by lia.
Qed.

Lemma Zdigits2_quot_scale m b al be :
  0 <= m -> 0 < b -> 0 <= al -> 0 <= be ->
  (m / b = 0 -> al <= be) ->
  Zdigits2 ((m * 2 ^ al) / (b * 2 ^ be)) = Z.max (Zdigits2 (m / b) + al - be) 0.
Proof.
  intros Hm Hb Hal Hbe Hz.
  pose proof (pow2_gt0 al Hal) as Hpa. pose proof (pow2_gt0 be Hbe) as Hpb.
  assert (Hq : 0 <= m / b) by (apply Z.div_pos; lia).
  destruct (Zdigits2_nonneg (m / b) Hq) as [Hdq Hlt].
  pose proof (Z.mul_div_le m b Hb) as Hlo.
  pose proof (Z.mul_succ_div_gt m b Hb) as Hhi.
  destruct (Z.le_gt_cases al be) as [Hc|Hc].
  - replace be with ((be - al) + al) at 1 by lia.
    rewrite pow2_split, Z.mul_assoc by lia.
    rewrite Z.div_mul_cancel_r by nia.
    pose proof (pow2_gt0 (be - al) ltac:(lia)) as Hpc.
    rewrite <- Z.div_div by lia.
    rewrite Zdigits2_div_pow2 by lia. f_equal. lia.
  - replace al with ((al - be) + be) at 1 by lia.
    rewrite pow2_split, Z.mul_assoc by lia.
    rewrite Z.div_mul_cancel_r by nia.
    assert (Hq0 : 0 < m / b).
    { destruct (Z.eq_dec (m / b) 0) as [H0|H0]; [specialize (Hz H0)|]; lia. }
    destruct (Zdigits2_bounds (m / b) Hq0) as [Hd1 [Hge _]].
    set (q := m / b) in *. set (dq := Zdigits2 q) in *.
    pose proof (pow2_gt0 (al - be) ltac:(lia)) as Hpc.
    set (c := 2 ^ (al - be)) in *.
    rewrite Z.max_l by lia.
    apply Zdigits2_unique; [lia|]. split.
    + apply Z.div_le_lower_bound; [lia|].
      replace (dq + al - be - 1) with ((dq - 1) + (al - be)) by lia.
      rewrite pow2_split by lia. fold c. clearbody c q dq.
      assert (b * 2 ^ (dq - 1) <= m) by nia.
      rewrite Z.mul_assoc. apply Z.mul_le_mono_nonneg_r; lia.
    + apply Z.div_lt_upper_bound; [lia|].
      replace (dq + al - be) with (dq + (al - be)) by lia.
      rewrite pow2_split by lia. fold c. clearbody c q dq.
      assert (q + 1 <= 2 ^ dq) by lia.
      assert (m < b * 2 ^ dq) by nia.
      rewrite Z.mul_assoc. apply Z.mul_lt_mono_pos_r; lia.
Qed.

(** The rounding the division performs is the canonical one. *)
Lemma rounded_quot_spec m b al be :
  0 <= m -> 0 < b -> 0 <= al -> 0 <= be ->
  let e := al - be - 1074 in
  let e1 := Z.max (Zdigits2 (m / b) + e - 53) (-1074) in
  e <= e1 ->
  rounded_quot (m * 2 ^ al) (b * 2 ^ be)
  = rne_h (2 * m) (b * 2 ^ (e1 - e)) * 2 ^ (e1 + 1074).
Proof.
  intros Hm Hb Hal Hbe e e1 Hn.
  assert (Hq : 0 <= m / b) by (apply Z.div_pos; lia).
  destruct (Zdigits2_nonneg (m / b) Hq) as [Hdq _].
  assert (Hk : quot_bits (m * 2 ^ al) (b * 2 ^ be) = e1 + 1074).
  { unfold quot_bits. rewrite Zdigits2_quot_scale; try lia.
    intros H0. unfold e1, e in Hn. rewrite H0 in Hn. simpl Zdigits2 in Hn. lia. }
  unfold rounded_quot. rewrite Hk. f_equal.
  assert (He : e = al - be - 1074) by reflexivity.
  assert (He1 : -1074 <= e1) by (unfold e1; lia).
  clearbody e e1.
  replace (b * 2 ^ be * 2 ^ (e1 + 1074)) with ((b * 2 ^ (e1 - e)) * 2 ^ al).
  - replace (2 * (m * 2 ^ al)) with ((2 * m) * 2 ^ al) by lia.
    apply rne_h_scale.
    + pose proof (pow2_gt0 (e1 - e) ltac:(lia)). nia.
    + apply pow2_gt0. lia.
  - rewrite <- !Z.mul_assoc. f_equal. rewrite <- !pow2_split by lia. f_equal. lia.
Qed.

(** The quotient the division core computes has at least the size its
    exponent was chosen for. *)
Lemma quot_digits m1 m2 s :
  0 < m1 -> 0 < m2 -> 0 <= s ->
  Zdigits2 m1 + s - Zdigits2 m2 <= Zdigits2 ((m1 * 2 ^ s) / m2).
Proof.
  intros H1 H2 Hs.
  destruct (Zdigits2_bounds m1 H1) as [Hd1 [Hlo1 _]].
  destruct (Zdigits2_bounds m2 H2) as [Hd2 [_ Hhi2]].
  pose proof (pow2_gt0 s Hs) as Hps.
  assert (Hq : 0 <= m1 * 2 ^ s / m2) by (apply Z.div_pos; nia).
  destruct (Zdigits2_nonneg _ Hq) as [Hdq _].
  set (d1 := Zdigits2 m1) in *. set (d2 := Zdigits2 m2) in *.
  destruct (Z.le_gt_cases (d1 + s - d2) 0) as [Hc|Hc]; [lia|].
  apply Zdigits2_ge; [lia|].
  apply Z.div_le_lower_bound; [lia|].
  apply Z.le_trans with (2 ^ d2 * 2 ^ (d1 + s - d2 - 1)).
  - apply Z.mul_le_mono_nonneg_r; [|lia].
    apply Z.lt_le_incl, pow2_gt0. lia.
  - rewrite <- pow2_split by lia.
    replace (d2 + (d1 + s - d2 - 1)) with ((d1 - 1) + s) by lia.
    rewrite pow2_split by lia.
    apply Z.mul_le_mono_nonneg_r; lia.
Qed.

Lemma ival_SFdiv_finite sx mx ex sy my ey :
  bounded prec emax mx ex = true -> bounded prec emax my ey = true ->
  ival (SF64div (S754_finite sx mx ex) (S754_finite sy my ey)) =
  cond_Zopp (xorb sx sy)
    (Z.min (rounded_quot (Z.pos mx * 2 ^ (ex + 2148)) (Z.pos my * 2 ^ (ey + 1074))) ival_inf).
Proof.
  intros Hbx Hby.
  destruct (bounded_spec mx ex Hbx) as (Hex & Hmx & _).
  destruct (bounded_spec my ey Hby) as (Hey & Hmy & _).
  unfold SF64div, SFdiv, SFdiv_core_binary.
  set (d1 := Zdigits2 (Z.pos mx)). set (d2 := Zdigits2 (Z.pos my)).
  set (e := Z.min (fexp prec emax (d1 + ex - (d2 + ey))) (ex - ey)).
  assert (He : e = Z.min (Z.max (d1 + ex - (d2 + ey) - 53) (-1074)) (ex - ey))
    by (unfold e; now rewrite fexp64).
  set (s := ex - ey - e).
  assert (Hs : 0 <= s) by (unfold s; lia).
  assert (Hm' : match s with
                | 0 => Z.pos mx
                | Z.pos _ => Z.shiftl (Z.pos mx) s
                | Z.neg _ => 0
                end = Z.pos mx * 2 ^ s).
  { destruct s as [|p|p] eqn:Es; [simpl; lia | | lia].
    now rewrite Z.shiftl_mul_pow2 by lia. }
  rewrite Hm'. clear Hm'.
  set (m := Z.pos mx * 2 ^ s).
  pose proof (pow2_gt0 s Hs) as Hps.
  assert (Hm : 0 < m) by (unfold m; nia).
  assert (Hdiv : Z.div_eucl m (Z.pos my) = (m / Z.pos my, m mod Z.pos my)).
  { unfold Z.div, Z.modulo. now destruct (Z.div_eucl m (Z.pos my)). }
  rewrite Hdiv.
  pose proof (Z.div_mod m (Z.pos my) ltac:(lia)) as Hqr.
  pose proof (Z.mod_pos_bound m (Z.pos my) ltac:(lia)) as Hr.
  assert (Hq : 0 <= m / Z.pos my) by (apply Z.div_pos; lia).
  pose proof (quot_digits (Z.pos mx) (Z.pos my) s ltac:(lia) ltac:(lia) Hs) as Hdq.
  fold m d1 d2 in Hdq.
  set (q := m / Z.pos my) in *. set (r := m mod Z.pos my) in *.
  fold (bra (xorb sx sy) q e (new_location (Z.pos my) r)).
  assert (Hn : e <= Z.max (Zdigits2 q + e - 53) (-1074)) by (unfold s in Hdq; lia).
  pose proof (quot_range q r (Z.pos my) e Hq Hr Hn) as Hrange.
  rewrite (bra_loc _ q e _ (2 * (q * Z.pos my + r)) (Z.pos my));
    [| lia | now apply shr_rat_new_location | rewrite fexp64; exact Hn
     | rewrite fexp64; exact Hrange].
  rewrite fexp64. rewrite ival_sf_make by exact Hrange.
  f_equal. f_equal.
  replace (q * Z.pos my + r) with m by lia.
  assert (Hal : 0 <= ey + e + 2148) by lia.
  pose proof (rounded_quot_spec m (Z.pos my) (ey + e + 2148) (ey + 1074)
                ltac:(lia) ltac:(lia) Hal ltac:(lia)) as Hspec.
  replace (ey + e + 2148 - (ey + 1074) - 1074) with e in Hspec by lia.
  fold q in Hspec. cbv zeta in Hspec. specialize (Hspec Hn).
  rewrite <- Hspec. f_equal.
  unfold m. rewrite <- Z.mul_assoc, <- pow2_split by lia.
  f_equal. f_equal. unfold s. lia.
Qed.

Lemma ival_SFdiv x my ey :
  valid_binary x = true -> bounded prec emax my ey = true -> sf_finite x ->
  ival (SF64div x (S754_finite false my ey)) =
  round_quot (ival x) (Z.pos my * 2 ^ (ey + 1074)).
Proof.
  intros Hvx Hby Hx. destruct x as [sx|sx| |sx mx ex]; try easy.
  simpl in Hvx. rewrite ival_SFdiv_finite by assumption.
  cbn [ival]. pose proof (mag_bounds mx ex Hvx) as Hmag.
  rewrite round_quot_cond_Zopp by lia.
  destruct (bounded_spec mx ex Hvx) as (Hex & _).
  rewrite xorb_false_r. f_equal. f_equal. f_equal.
  rewrite <- Z.mul_assoc, <- pow2_split by lia. f_equal. f_equal. lia.
Qed.

(** *** Infinite operands *)

Lemma ival_finite_bound x :
  valid_binary x = true -> sf_finite x -> - ival_inf < ival x < ival_inf.
Proof.
  intros Hv Hx. pose proof ival_inf_pos.
  destruct x as [s|s| |s m e]; [cbn [ival]; lia | easy | easy |].
  simpl in Hv. pose proof (mag_bounds m e Hv).
  destruct s; cbn [ival cond_Zopp]; lia.
Qed.

Lemma ival_bound x : valid_binary x = true -> - ival_inf <= ival x <= ival_inf.
Proof.
  intros Hv. pose proof ival_inf_pos. destruct x as [s|s| |s m e].
  - cbn [ival]. lia.
  - destruct s; cbn [ival cond_Zopp]; lia.
  - cbn [ival]. lia.
  - pose proof (ival_finite_bound (S754_finite s m e) Hv I). lia.
Qed.

Lemma nonnan_cases x :
  fl_nonnan x -> fl_finite x \/ exists s, Prim2SF x = S754_infinity s.
Proof.
  unfold fl_nonnan, fl_finite. destruct (Prim2SF x) as [s|s| |s m e]; simpl; try tauto.
  intros _. right. now exists s.
Qed.

Lemma leb_inf_r x y :
  fl_nonnan x -> Prim2SF y = S754_infinity false -> (x <=? y)%float = true.
Proof.
  intros Hx Hy. apply leb_ival; [exact Hx | now rewrite Hy |].
  rewrite Hy. cbn [ival cond_Zopp]. apply ival_bound, Prim2SF_valid.
Qed.

Lemma leb_inf_l x y :
  Prim2SF x = S754_infinity true -> fl_nonnan y -> (x <=? y)%float = true.
Proof.
  intros Hx Hy. apply leb_ival; [now rewrite Hx | exact Hy |].
  rewrite Hx. cbn [ival cond_Zopp]. apply ival_bound, Prim2SF_valid.
Qed.

Lemma fl_finite_is_finite x : fl_finite x -> is_finite x = true.
Proof. apply is_finite_spec. Qed.

(** A function that is monotone on the finite numbers and keeps the
    infinities is monotone. *)
Lemma monotone_ext (f : float -> float) :
  (forall x y, is_finite x = true -> is_finite y = true ->
     (x <=? y)%float = true -> (f x <=? f y)%float = true) ->
  (forall x s, Prim2SF x = S754_infinity s -> Prim2SF (f x) = S754_infinity s) ->
  forall x y, (x <=? y)%float = true -> (f x <=? f y)%float = true.
Proof.
  intros Hfin Hinf x y Hle.
  assert (Hnn : forall z, fl_nonnan z -> fl_nonnan (f z)).
  { intros z Hz. destruct (nonnan_cases z Hz) as [Hf|[s Hs]].
    - apply fl_finite_is_finite in Hf.
      pose proof (Hfin z z Hf Hf (leb_refl z Hz)) as Hzz.
      now apply leb_nonnan in Hzz.
    - unfold fl_nonnan. now rewrite (Hinf z s Hs). }
  destruct (leb_nonnan x y Hle) as [Hx Hy].
  pose proof Hle as Hiv. apply leb_ival in Hiv; [|assumption|assumption].
  destruct (nonnan_cases x Hx) as [Hfx|[sx Hsx]];
    destruct (nonnan_cases y Hy) as [Hfy|[sy Hsy]].
  - apply Hfin; auto using fl_finite_is_finite.
  - pose proof (ival_finite_bound _ (Prim2SF_valid x) Hfx) as Hb.
    rewrite Hsy in Hiv. destruct sy; cbn [ival cond_Zopp] in Hiv; [lia|].
    apply leb_inf_r; [now apply Hnn | now apply Hinf].
  - pose proof (ival_finite_bound _ (Prim2SF_valid y) Hfy) as Hb.
    rewrite Hsx in Hiv. destruct sx; cbn [ival cond_Zopp] in Hiv; [|lia].
    apply leb_inf_l; [now apply Hinf | now apply Hnn].
  - pose proof ival_inf_pos. rewrite Hsx, Hsy in Hiv.
    apply leb_ival; [now apply Hnn | now apply Hnn |].
    rewrite (Hinf x sx Hsx), (Hinf y sy Hsy).
    destruct sx, sy; cbn [ival cond_Zopp] in *; lia.
Qed.

Lemma mul_const_monotone x y c :
  is_pos_const c = true ->
  (x <=? y)%float = true -> (x * c <=? y * c)%float = true.
Proof.
  intros Hc. destruct (pos_const_inv c Hc) as (mc & ec & Hec).
  apply (monotone_ext (fun z => (z * c)%float)).
  - intros a b. now apply (mul_const_mono a b c mc ec).
  - intros a s Ha. rewrite mul_spec, Ha, Hec. simpl. now rewrite xorb_false_r.
Qed.

Lemma sub_const_monotone x y c :
  is_finite c = true ->
  (x <=? y)%float = true -> (x - c <=? y - c)%float = true.
Proof.
  intros Hc. pose proof Hc as Hfc. apply is_finite_spec in Hfc.
  apply (monotone_ext (fun z => (z - c)%float)).
  - intros a b Ha Hb Hle. apply is_finite_spec in Ha, Hb.
    apply leb_ival in Hle; auto using sf_finite_nonnan.
    assert (Hnn : forall z, sf_finite (Prim2SF z) -> sf_nonnan (Prim2SF (z - c)%float)).
    { intros z Hz. rewrite sub_spec. unfold SF64sub.
      destruct (Prim2SF z) as [s|s| |s m e], (Prim2SF c) as [s'|s'| |s' m' e'];
        try easy; simpl.
      - now destruct s, s'.
      - apply binary_normalize_nonnan. }
    apply leb_ival; [now apply Hnn | now apply Hnn |].
    rewrite !sub_spec, !ival_SFsub; auto using Prim2SF_valid.
    apply round_int_mono; lia.
  - intros a s Ha. rewrite sub_spec, Ha. unfold SF64sub.
    now destruct (Prim2SF c) as [s'|s'| |s' m' e'].
Qed.

Lemma div_const_monotone x y c :
  is_pos_const c = true ->
  (x <=? y)%float = true -> (x / c <=? y / c)%float = true.
Proof.
  intros Hc. destruct (pos_const_inv c Hc) as (mc & ec & Hec).
  pose proof (Prim2SF_valid c) as Hvc. rewrite Hec in Hvc. simpl in Hvc.
  pose proof (mag_bounds mc ec Hvc) as Hmag.
  apply (monotone_ext (fun z => (z / c)%float)).
  - intros a b Ha Hb Hle. apply is_finite_spec in Ha, Hb.
    apply leb_ival in Hle; auto using sf_finite_nonnan.
    apply leb_ival.
    + rewrite div_spec, Hec. apply SFdiv_finite_nonnan. now apply sf_finite_nonnan.
    + rewrite div_spec, Hec. apply SFdiv_finite_nonnan. now apply sf_finite_nonnan.
    + rewrite !div_spec, Hec, !ival_SFdiv; auto using Prim2SF_valid.
      apply round_quot_mono; lia.
  - intros a s Ha. rewrite div_spec, Ha, Hec. simpl. now rewrite xorb_false_r.
Qed.

(** *** Scaling by constants *)

Lemma rounded_scale E N j :
  E <= -1074 -> 0 < N -> 0 <= j -> rounded (E - j) (N * 2 ^ j) = rounded E N.
Proof.
  intros HE HN Hj. unfold rounded.
  assert (Hsh : dropped_bits (E - j) (N * 2 ^ j) = dropped_bits E N + j).
  { unfold dropped_bits. rewrite Zdigits2_mul_pow2 by lia. lia. }
  rewrite Hsh. rewrite rne_scale by (unfold dropped_bits; lia).
  f_equal. f_equal. lia.
Qed.

Lemma round_int_scale E N j :
  E <= -1074 -> 0 <= j -> round_int (E - j) (N * 2 ^ j) = round_int E N.
Proof.
  intros HE Hj. pose proof (pow2_gt0 j Hj) as Hp.
  destruct N as [|p|p].
  - reflexivity.
  - rewrite round_int_pos by nia. rewrite rounded_scale by lia. reflexivity.
  - change (Z.neg p) with (- Z.pos p). rewrite Z.mul_opp_l.
    rewrite !round_int_neg by nia. rewrite rounded_scale by lia. reflexivity.
Qed.

Lemma round_int_ival x :
  valid_binary x = true -> sf_finite x -> round_int (-1074) (ival x) = ival x.
Proof.
  intros Hv Hx. destruct x as [s|s| |s m e]; try easy.
  simpl in Hv. now apply round_int_id.
Qed.

Lemma ival_one : ival (Prim2SF 1) = 2 ^ 1074.
Proof. reflexivity. Qed.

Lemma ival_mul_one x :
  fl_finite x -> ival (Prim2SF (x * 1)%float) = ival (Prim2SF x).
Proof.
  intros Hx. rewrite mul_spec, ival_SFmul; auto using Prim2SF_valid; [|easy].
  rewrite ival_one.
  change (-2148) with (-1074 - 1074).
  rewrite round_int_scale by lia. apply round_int_ival; auto using Prim2SF_valid.
Qed.

Lemma fl_nonneg_ival x : fl_nonneg x -> 0 <= ival (Prim2SF x).
Proof.
  unfold fl_nonneg. pose proof ival_inf_pos.
  destruct (Prim2SF x) as [s|[]| |[] m e]; cbn [ival cond_Zopp sf_nonneg]; try easy; try lia.
Qed.

Lemma pos_const_ival c : is_pos_const c = true -> 0 < ival (Prim2SF c).
Proof.
  intros Hc. destruct (pos_const_inv c Hc) as (m & e & He).
  pose proof (Prim2SF_valid c) as Hv. rewrite He in *. simpl in Hv.
  pose proof (mag_bounds m e Hv). cbn [ival cond_Zopp]. lia.
Qed.

Lemma pos_const_nonnan c : is_pos_const c = true -> fl_nonnan c.
Proof.
  intros Hc. destruct (pos_const_inv c Hc) as (m & e & He).
  unfold fl_nonnan. now rewrite He.
Qed.

Lemma pos_const_finite c : is_pos_const c = true -> fl_finite c.
Proof.
  intros Hc. destruct (pos_const_inv c Hc) as (m & e & He).
  unfold fl_finite. now rewrite He.
Qed.

Lemma fl_nonneg_cases x :
  fl_nonneg x -> fl_finite x \/ Prim2SF x = S754_infinity false.
Proof.
  unfold fl_nonneg, fl_finite.
  destruct (Prim2SF x) as [s|[]| |[] m e]; simpl; tauto.
Qed.

Lemma mul_inf_const x c :
  is_pos_const c = true -> Prim2SF x = S754_infinity false ->
  Prim2SF (x * c)%float = S754_infinity false.
Proof.
  intros Hc Hx. destruct (pos_const_inv c Hc) as (m & e & He).
  now rewrite mul_spec, Hx, He.
Qed.

(** A larger factor gives a larger product of a non-negative number. *)
Lemma mul_consts_monotone v c1 c2 :
  is_pos_const c1 = true -> is_pos_const c2 = true ->
  (c1 <=? c2)%float = true -> fl_nonneg v ->
  (v * c1 <=? v * c2)%float = true.
Proof.
  intros H1 H2 Hle Hv.
  apply leb_ival in Hle;
    [|now apply pos_const_nonnan|now apply pos_const_nonnan].
  pose proof (fl_nonneg_ival v Hv) as Hv0.
  pose proof (pos_const_ival c1 H1) as Hc1.
  assert (Hn1 : fl_nonnan (v * c1)%float)
    by (apply mul_const_nonnan; auto using fl_nonneg_nonnan).
  assert (Hn2 : fl_nonnan (v * c2)%float)
    by (apply mul_const_nonnan; auto using fl_nonneg_nonnan).
  apply leb_ival; [exact Hn1 | exact Hn2 |].
  destruct (fl_nonneg_cases v Hv) as [Hf|Hinf].
  - rewrite !mul_spec, !ival_SFmul;
      try apply Prim2SF_valid; try exact Hf;
      try (apply pos_const_finite; assumption).
    apply round_int_mono; [lia|]. nia.
  - rewrite (mul_inf_const v c1 H1 Hinf), (mul_inf_const v c2 H2 Hinf). lia.
Qed.

Lemma mul_le_self v c :
  is_pos_const c = true -> (c <=? 1)%float = true -> fl_nonneg v ->
  (v * c <=? v)%float = true.
Proof.
  intros Hc Hle Hv.
  pose proof (mul_consts_monotone v c 1 Hc eq_refl Hle Hv) as H.
  apply leb_ival in H;
    [|apply mul_const_nonnan; auto using fl_nonneg_nonnan
     |apply mul_const_nonnan; auto using fl_nonneg_nonnan].
  apply leb_ival;
    [apply mul_const_nonnan; auto using fl_nonneg_nonnan
    |now apply fl_nonneg_nonnan|].
  destruct (fl_nonneg_cases v Hv) as [Hf|Hinf].
  - now rewrite ival_mul_one in H.
  - now rewrite (mul_inf_const v 1 eq_refl Hinf), <- Hinf in H.
Qed.

Lemma mul_ge_self v c :
  is_pos_const c = true -> (1 <=? c)%float = true -> fl_nonneg v ->
  (v <=? v * c)%float = true.
Proof.
  intros Hc Hle Hv.
  pose proof (mul_consts_monotone v 1 c eq_refl Hc Hle Hv) as H.
  apply leb_ival in H;
    [|apply mul_const_nonnan; auto using fl_nonneg_nonnan
     |apply mul_const_nonnan; auto using fl_nonneg_nonnan].
  apply leb_ival;
    [now apply fl_nonneg_nonnan
    |apply mul_const_nonnan; auto using fl_nonneg_nonnan|].
  destruct (fl_nonneg_cases v Hv) as [Hf|Hinf].
  - now rewrite ival_mul_one in H.
  - now rewrite (mul_inf_const v 1 eq_refl Hinf), <- Hinf in H.
Qed.

(** Sums of non-negative numbers, infinite ones included. *)
Lemma add_monotone a a' b b' :
  fl_nonneg a -> fl_nonneg a' -> fl_nonneg b -> fl_nonneg b' ->
  (a <=? a')%float = true -> (b <=? b')%float = true ->
  (a + b <=? a' + b')%float = true.
Proof.
  intros Ha Ha' Hb Hb' Hle Hle'.
  assert (Hfin : forall x y, fl_nonneg x -> (x <=? y)%float = true ->
                   fl_finite y -> is_finite x = true).
  { intros x y Hx Hxy Hy. destruct (leb_nonnan _ _ Hxy) as [Hnx Hny].
    apply leb_ival in Hxy; [|assumption|assumption].
    pose proof (ival_finite_bound _ (Prim2SF_valid y) Hy) as Hby.
    destruct (fl_nonneg_cases x Hx) as [Hf|Hinf]; [now apply fl_finite_is_finite|].
    rewrite Hinf in Hxy. cbn [ival cond_Zopp] in Hxy. lia. }
  destruct (fl_nonneg_cases a' Ha') as [Hfa|Hia]; [destruct (fl_nonneg_cases b' Hb') as [Hfb|Hib]|].
  - apply add_mono; auto using fl_finite_is_finite; eapply Hfin; eauto.
  - apply leb_inf_r; [apply fl_nonneg_nonnan; now apply add_nonneg|].
    rewrite add_spec, Hib. unfold fl_nonneg in Ha'.
    now destruct (Prim2SF a') as [s|[]| |[] m e].
  - apply leb_inf_r; [apply fl_nonneg_nonnan; now apply add_nonneg|].
    rewrite add_spec, Hia. unfold fl_nonneg in Hb'.
    now destruct (Prim2SF b') as [s|[]| |[] m e].
Qed.

Lemma ltb0_ival x : fl_nonnan x -> (0 <? x)%float = true <-> 0 < ival (Prim2SF x).
Proof.
  intros Hx. rewrite ltb0_spec. unfold fl_nonnan in Hx. pose proof ival_inf_pos.
  pose proof (Prim2SF_valid x) as Hv.
  destruct (Prim2SF x) as [s|s| |s m e]; [| | easy |].
  - cbn [ival sf_pos]. split; [easy|lia].
  - destruct s; cbn [ival cond_Zopp sf_pos]; split; intros; try easy; lia.
  - simpl in Hv. pose proof (mag_bounds m e Hv).
    destruct s; cbn [ival cond_Zopp sf_pos]; split; intros; try easy; lia.
Qed.

(** *** Sums with a negative first term *)

Lemma rounded_pos N : 0 < N -> 0 < rounded (-1074) N.
Proof.
  intros HN. unfold rounded.
  destruct (Zdigits2_bounds N HN) as [Hd [Hlo Hhi]].
  assert (Hsh : dropped_bits (-1074) N = Z.max (Zdigits2 N - 53) 0) by (unfold dropped_bits; lia).
  rewrite Hsh. set (k := Z.max (Zdigits2 N - 53) 0).
  assert (Hk : 0 <= k <= Zdigits2 N - 1) by (unfold k; lia).
  pose proof (rne_ge_pow2 N k (Zdigits2 N - 1) Hk Hlo) as Hge.
  pose proof (pow2_gt0 (Zdigits2 N - 1 - k) ltac:(lia)).
  pose proof (pow2_gt0 (k + -1074 + 1074) ltac:(lia)).
  nia.
Qed.

Lemma sf_shape_acc x : sf_shape false x -> sf_acc x.
Proof. destruct x as [[]|[]| |[] m e]; simpl; try easy; discriminate. Qed.

Lemma sf_acc_nonnan x : sf_acc x -> sf_nonnan x.
Proof. now destruct x. Qed.

Lemma SFadd_acc x y :
  valid_binary x = true -> valid_binary y = true ->
  sf_acc x -> sf_nonneg y -> sf_acc (SF64add x y).
Proof.
  intros Hvx Hvy Hx Hy.
  destruct x as [[]|[]| |sx mx ex]; try easy;
    destruct y as [[]|[]| |[] my ey]; try easy.
  destruct sx; [|apply sf_shape_acc; now apply SFadd_plus].
  pose proof (ival_SFadd _ _ Hvx Hvy I I) as Hiv.
  pose proof (SFadd_finite_nonnan (S754_finite true mx ex) (S754_finite false my ey) I I)
    as Hnn.
  simpl in Hvx, Hvy.
  pose proof (mag_bounds mx ex Hvx) as Hbx. pose proof (mag_bounds my ey Hvy) as Hby.
  destruct (bounded_spec mx ex Hvx) as (Hex & _).
  destruct (bounded_spec my ey Hvy) as (Hey & _).
  assert (Hlow : - ival_inf < ival (SF64add (S754_finite true mx ex) (S754_finite false my ey))).
  { rewrite Hiv. cbn [ival cond_Zopp].
    pose proof (round_int_mono (-1074) (- (Z.pos mx * 2 ^ (ex + 1074)))
                  (- (Z.pos mx * 2 ^ (ex + 1074)) + Z.pos my * 2 ^ (ey + 1074))
                  ltac:(lia) ltac:(lia)) as Hm.
    pose proof (round_int_id true mx ex Hvx) as Hid. cbn [cond_Zopp] in Hid.
    rewrite Hid in Hm. lia. }
  clear Hiv. revert Hnn Hlow. unfold SF64add, SFadd.
  set (ez := Z.min ex ey).
  destruct (cond_Zopp true (Z.pos (fst (shl_align mx ex ez)))
            + cond_Zopp false (Z.pos (fst (shl_align my ey ez)))) as [|p|p].
  - easy.
  - intros _ _. apply sf_shape_acc. cbn [binary_normalize]. apply binary_round_shape.
  - cbn [binary_normalize]. intros Hnn Hlow.
    pose proof (binary_round_shape true p ez) as Hsh.
    pose proof (ival_binary_round true p ez ltac:(lia)) as Hiv.
    pose proof (pow2_gt0 (ez + 1074) ltac:(lia)) as Hp.
    pose proof (rounded_pos (Z.pos p * 2 ^ (ez + 1074)) ltac:(nia)) as Hpos.
    pose proof ival_inf_pos.
    destruct (binary_round prec emax true p ez) as [s|s| |s m e]; try easy.
    + cbn [ival cond_Zopp] in Hiv. lia.
    + simpl in Hsh. subst s. cbn [ival cond_Zopp] in Hlow. lia.
Qed.

Lemma SFadd_acc_zero x s : sf_acc x -> SF64add x (S754_zero s) = x.
Proof. now destruct x as [[]|[]| |[] mx ex], s. Qed.

Lemma fl_acc_nonnan x : fl_acc x -> fl_nonnan x.
Proof. apply sf_acc_nonnan. Qed.

Lemma add_acc x y : fl_acc x -> fl_nonneg y -> fl_acc (x + y).
Proof.
  unfold fl_acc, fl_nonneg. rewrite add_spec.
  apply SFadd_acc; apply Prim2SF_valid.
Qed.

Lemma add_acc_zero x y :
  fl_acc x -> is_zero y = true -> (x + 0 = x + y)%float.
Proof.
  intros Hx Hy. apply is_zero_spec in Hy as [s Hs].
  apply Prim2SF_inj. rewrite !add_spec, Hs.
  change (Prim2SF 0) with (S754_zero false).
  now rewrite !SFadd_acc_zero.
Qed.

(** The first term of a sum that starts at [+0]: any finite number. *)
Lemma add_zero_acc x : fl_finite x -> fl_acc (0 + x).
Proof.
  unfold fl_finite, fl_acc. rewrite add_spec.
  change (Prim2SF 0) with (S754_zero false).
  now destruct (Prim2SF x) as [[]|[]| |[] m e].
Qed.

Lemma add_zero_zero y : is_zero y = true -> (0 + 0 = 0 + y)%float.
Proof. apply add_acc_zero. exact I. Qed.

(** A number of magnitude below the infinities is finite. *)
Lemma ival_finite x :
  fl_nonnan x -> - ival_inf < ival (Prim2SF x) < ival_inf -> fl_finite x.
Proof.
  unfold fl_nonnan, fl_finite.
  destruct (Prim2SF x) as [s|[]| |s m e]; cbn [ival cond_Zopp sf_finite sf_nonnan];
    intros Hn Hb; [exact I | lia | lia | exact Hn | exact I].
Qed.

(** Scaling a finite number down keeps it finite. *)
Lemma mul_const_le1_finite x c :
  is_pos_const c = true -> (c <=? 1)%float = true ->
  fl_finite x -> fl_finite (x * c).
Proof.
  intros Hc Hle Hx.
  apply leb_ival in Hle; [|now apply pos_const_nonnan|easy].
  rewrite ival_one in Hle.
  pose proof (pos_const_ival c Hc) as Hc0.
  pose proof (ival_finite_bound _ (Prim2SF_valid x) Hx) as Hb.
  pose proof (ival_mul_one x Hx) as H1.
  rewrite mul_spec, ival_SFmul in H1; [|apply Prim2SF_valid|apply Prim2SF_valid|exact Hx|easy].
  rewrite ival_one in H1.
  apply ival_finite; [apply mul_const_nonnan; [exact Hc|now apply fl_finite_nonnan]|].
  rewrite mul_spec, ival_SFmul;
    [|apply Prim2SF_valid|apply Prim2SF_valid|exact Hx|now apply pos_const_finite].
  set (X := ival (Prim2SF x)) in *. set (C := ival (Prim2SF c)) in *.
  assert (H0 : round_int (-2148) 0 = 0) by reflexivity.
  destruct (Z.le_gt_cases 0 X) as [Hs|Hs].
  - pose proof (round_int_mono (-2148) 0 (X * C) ltac:(lia) ltac:(nia)).
    pose proof (round_int_mono (-2148) (X * C) (X * 2 ^ 1074) ltac:(lia) ltac:(nia)).
    lia.
  - pose proof (round_int_mono (-2148) (X * C) 0 ltac:(lia) ltac:(nia)).
    pose proof (round_int_mono (-2148) (X * 2 ^ 1074) (X * C) ltac:(lia) ltac:(nia)).
    lia.
Qed.


End BinaryFloats.

(** ** The engine's arithmetic *)

Ltac fl_const := vm_compute; first [exact I | reflexivity].

Lemma sanitize_number_finite (x : float) :
  fl_finite (if isNaN x || negb (isFinite x) then 0%float else x).
Proof.
  unfold isNaN, isFinite.
  destruct (is_nan x || negb (is_finite x)) eqn:E; [fl_const|].
  apply orb_false_iff in E as [_ E]. apply negb_false_iff in E.
  now apply is_finite_spec.
Qed.

(** A sanitized field read as [v || 0] is a finite number. *)
Lemma or0_sanitize_finite (o : option jsval) :
  fl_finite (ToNumber (or0 (sanitize <$> o))).
Proof.
  destruct o as [[| |[]|x|s|m]|];
    [fl_const|fl_const|fl_const|fl_const| |fl_const|fl_const|fl_const].
  cbn [fmap option_fmap option_map sanitize].
  pose proof (sanitize_number_finite x) as Hx.
  set (x' := if isNaN x || negb (isFinite x) then 0%float else x) in *.
  unfold or0. destruct (ToBoolean _); [exact Hx | fl_const].
Qed.

Lemma Math_max_0_nonneg (x : float) : fl_nonnan x -> fl_nonneg (Math_max x 0).
Proof.
  intros Hx. unfold Math_max.
  apply is_nan_false in Hx. rewrite Hx. cbn [orb].
  change (is_nan 0) with false. cbv iota.
  destruct (x <? 0)%float eqn:E1; [fl_const|].
  assert (Hnn : fl_nonneg x).
  { apply ltb_0_false in E1 as [E1|E1]; [|exact E1].
    apply is_nan_spec in E1. congruence. }
  destruct (0 <? x)%float; [exact Hnn|].
  destruct (get_sign x); [fl_const | exact Hnn].
Qed.

Lemma Math_min_nonneg (a b : float) :
  fl_nonneg a -> fl_nonneg b -> fl_nonneg (Math_min a b).
Proof.
  intros Ha Hb. unfold Math_min.
  pose proof (fl_nonneg_nonnan a Ha) as Hna. apply is_nan_false in Hna.
  pose proof (fl_nonneg_nonnan b Hb) as Hnb. apply is_nan_false in Hnb.
  rewrite Hna, Hnb. cbn [orb].
  destruct (a <? b)%float; [exact Ha|].
  destruct (b <? a)%float; [exact Hb|].
  now destruct (get_sign a).
Qed.

Lemma Math_min_nonpos (a c : float) :
  is_pos_const c = true -> fl_nonpos a -> Math_min a c = a.
Proof.
  intros Hc Ha. unfold Math_min.
  assert (Hna : is_nan a = false).
  { apply is_nan_false. unfold fl_nonpos in Ha. now destruct (Prim2SF a). }
  assert (Hnc : is_nan c = false).
  { apply is_nan_false. destruct (pos_const_inv c Hc) as (m & e & He).
    now rewrite He. }
  rewrite Hna, Hnc. cbn [orb].
  now rewrite (nonpos_ltb_pos_const a c Hc Ha).
Qed.

Lemma clamp_credit_nonneg (o : option jsval) (cap : float) :
  is_pos_const cap = true -> fl_nonneg (clamp_credit (sanitize <$> o) cap).
Proof.
  intros Hcap. unfold clamp_credit. apply Math_min_nonneg.
  - apply Math_max_0_nonneg, fl_finite_nonnan, or0_sanitize_finite.
  - destruct (pos_const_inv cap Hcap) as (m & e & He).
    unfold fl_nonneg. now rewrite He.
Qed.

Lemma entry_nonneg_nonnan (e : BenefitEntry.t) : entry_nonneg e -> entry_nonnan e.
Proof. intros (H1 & H2 & H3). repeat split; now apply fl_nonneg_nonnan. Qed.

Lemma exact_entry_nonneg (x : float) (d : list piece) :
  fl_nonneg x -> entry_nonneg (exact_entry x d).
Proof. intros Hx. now repeat split. Qed.

(** An entry [value, value * lo, value * hi] whose block ran. *)
Lemma scaled_entry_nonneg (v lo hi : float) (d : list piece) :
  is_pos_const lo = true -> is_pos_const hi = true ->
  (0 <? v)%float = true ->
  entry_nonneg (BenefitEntry.mk v (v * lo) (v * hi) d).
Proof.
  intros Hlo Hhi Hv. apply ltb0_nonneg in Hv.
  repeat split; cbn [BenefitEntry.value BenefitEntry.min BenefitEntry.max];
    auto using mul_const_nonneg.
Qed.

Lemma half_entry_nonneg (v lo : float) (d : list piece) :
  is_pos_const lo = true -> (0 <? v)%float = true ->
  entry_nonneg (BenefitEntry.mk v (v * lo) v d).
Proof.
  intros Hlo Hv. apply ltb0_nonneg in Hv.
  repeat split; cbn [BenefitEntry.value BenefitEntry.min BenefitEntry.max];
    auto using mul_const_nonneg.
Qed.

(** The Lyft block runs only for a number of rides that is not negative:
    its credits and its bonus points are then not negative either. *)
Lemma lyft_runs_nonneg (o : option jsval) :
  let v := sanitize <$> o in
  (0 <? lyftCredits_of v + lyftBonusPoints_of v * POINT_VALUES_avg)%float = true ->
  fl_nonneg (lyftCredits_of v) /\ fl_nonneg (lyftBonusPoints_of v).
Proof.
  intros v Hrun. unfold lyftCredits_of, lyftBonusPoints_of in *.
  pose proof (or0_sanitize_finite o) as Hfin. fold v in Hfin.
  set (r := ToNumber (or0 v)) in *. clearbody r.
  assert (H10 : is_pos_const 10 = true) by reflexivity.
  assert (H20 : is_pos_const 20 = true) by reflexivity.
  assert (H4 : is_pos_const 4 = true) by reflexivity.
  assert (H120 : is_pos_const 120 = true) by reflexivity.
  assert (Havg : is_pos_const POINT_VALUES_avg = true) by reflexivity.
  destruct (nonneg_or_nonpos r Hfin) as [Hr|Hr].
  - split.
    + apply Math_min_nonneg; [now apply mul_const_nonneg|].
      destruct (pos_const_inv _ H120) as (m & e & He).
      unfold fl_nonneg. now rewrite He.
    + apply mul_const_nonneg; [exact H4|]. now apply mul_const_nonneg.
  - exfalso. apply (ltb0_nonpos _ Hrun).
    rewrite (Math_min_nonpos _ _ H120) by now apply mul_const_nonpos.
    apply add_nonpos; [now apply mul_const_nonpos|].
    apply mul_const_nonpos; [exact Havg|].
    apply mul_const_nonpos; [exact H4|]. now apply mul_const_nonpos.
Qed.

Lemma lyft_entry_nonneg (o : option jsval) (d : list piece) :
  let v := sanitize <$> o in
  (0 <? lyftCredits_of v + lyftBonusPoints_of v * POINT_VALUES_avg)%float = true ->
  entry_nonneg
    (BenefitEntry.mk
       (lyftCredits_of v + lyftBonusPoints_of v * POINT_VALUES_avg)
       (lyftCredits_of v + lyftBonusPoints_of v * POINT_VALUES_min)
       (lyftCredits_of v + lyftBonusPoints_of v * POINT_VALUES_max) d).
Proof.
  intros v Hrun. destruct (lyft_runs_nonneg o Hrun) as [Hc Hb]. fold v in Hc, Hb.
  set (c := lyftCredits_of v) in *. set (b := lyftBonusPoints_of v) in *.
  clearbody c b.
  repeat split; cbn [BenefitEntry.value BenefitEntry.min BenefitEntry.max];
    (apply add_nonneg; [exact Hc|now apply mul_const_nonneg]).
Qed.

(** Every block after the points block adds an entry without a negative
    number, whatever the profile. *)
Lemma blocks_tail_nonneg (props : gmap string jsval) (qualifies : bool) :
  Forall (fun b : block => b.1 = true -> entry_nonneg b.2.2)
    (tail (blocks (sanitize <$> props) qualifies)).
Proof.
  unfold blocks. cbv zeta. cbn [tail].
  rewrite !lookup_fmap.
  repeat (constructor; [cbn [fst snd]; intros Hrun|]); [..|constructor].
  - apply exact_entry_nonneg, clamp_credit_nonneg. fl_const.
  - apply exact_entry_nonneg, clamp_credit_nonneg. fl_const.
  - apply exact_entry_nonneg, ltb0_nonneg, Hrun.
  - apply exact_entry_nonneg, ltb0_nonneg, Hrun.
  - apply half_entry_nonneg; [fl_const|exact Hrun].
  - apply half_entry_nonneg; [fl_const|exact Hrun].
  - now apply lyft_entry_nonneg.
  - apply scaled_entry_nonneg; [fl_const|fl_const|exact Hrun].
  - apply scaled_entry_nonneg; [fl_const|fl_const|exact Hrun].
  - apply exact_entry_nonneg, ltb0_nonneg, Hrun.
  - apply half_entry_nonneg; [fl_const|exact Hrun].
  - apply scaled_entry_nonneg; [fl_const|fl_const|exact Hrun].
Qed.

(** *** The point total *)

Lemma nan_or_nonneg_mul (x c : float) :
  is_pos_const c = true -> nan_or_nonneg x -> nan_or_nonneg (x * c).
Proof.
  intros Hc [Hx|Hx]; [left; now apply is_nan_mul_l | right; now apply mul_const_nonneg].
Qed.

Lemma nan_or_nonneg_add (x y : float) :
  nan_or_nonneg x -> nan_or_nonneg y -> nan_or_nonneg (x + y).
Proof.
  intros [Hx|Hx] [Hy|Hy];
    [left; now apply is_nan_add_l | left; now apply is_nan_add_l
    | left; now apply is_nan_add_r | right; now apply add_nonneg].
Qed.

Lemma spending_field_nonneg (props : gmap string jsval) (k : string) :
  no_negative_spending props = true -> k ∈ spending_keys ->
  nan_or_nonneg (ToNumber (sanitize <$> props !! k)).
Proof.
  intros Hok Hk. unfold no_negative_spending in Hok.
  rewrite forallb_forall in Hok. apply list_elem_of_In in Hk.
  specialize (Hok k Hk).
  destruct (props !! k) as [[| |[]|x|s|m]|];
    [right; fl_const|right; fl_const|right; fl_const|right; fl_const|
     |right; fl_const|right; fl_const|left; reflexivity].
  right. cbn [fmap option_fmap option_map sanitize ToNumber].
  apply negb_true_iff in Hok. unfold isNaN, isFinite.
  destruct (is_nan x || negb (is_finite x)) eqn:E; [fl_const|].
  apply orb_false_iff in E as [E _].
  apply ltb_0_false in Hok as [Hok|Hok]; [|exact Hok].
  apply is_nan_spec in Hok. congruence.
Qed.

Lemma totalPoints_nonneg (props : gmap string jsval) :
  no_negative_spending props = true ->
  isNaN (totalPoints_of (sanitize <$> props)) = false ->
  fl_nonneg (totalPoints_of (sanitize <$> props)).
Proof.
  intros Hok Hnan.
  assert (H : nan_or_nonneg (totalPoints_of (sanitize <$> props))).
  { unfold totalPoints_of. rewrite !lookup_fmap.
    repeat apply nan_or_nonneg_add; apply nan_or_nonneg_mul;
      try reflexivity; apply spending_field_nonneg; try assumption;
      apply (bool_decide_unpack _); reflexivity. }
  destruct H as [H|H]; [unfold isNaN in Hnan; congruence | exact H].
Qed.

Lemma points_entry_nonneg (totalPoints : float) :
  fl_nonneg totalPoints -> entry_nonneg (points_entry totalPoints).
Proof.
  intros H. repeat split; cbn [points_entry BenefitEntry.value BenefitEntry.min
    BenefitEntry.max]; now apply mul_const_nonneg.
Qed.

Lemma points_entry_nonnan (totalPoints : float) :
  fl_nonnan totalPoints -> entry_nonnan (points_entry totalPoints).
Proof.
  intros H. repeat split; cbn [points_entry BenefitEntry.value BenefitEntry.min
    BenefitEntry.max]; now apply mul_const_nonnan.
Qed.

Lemma blocks_head (safeInputs : gmap string safeval) (qualifies : bool) :
  blocks safeInputs qualifies =
  (true, ("points", points_entry (totalPoints_of safeInputs)))
    :: tail (blocks safeInputs qualifies).
Proof. reflexivity. Qed.

Lemma obj_get_points (safeInputs : gmap string safeval) (qualifies : bool) :
  obj_get "points" (taken (blocks safeInputs qualifies)) =
  Some (points_entry (totalPoints_of safeInputs)).
Proof. reflexivity. Qed.

(** *** The aggregation *)

Lemma reduce_step_nonneg (sum x : float) :
  fl_plus sum -> fl_nonneg x ->
  (sum + (if isNaN (num_or0 x) then 0 else num_or0 x))%float = (sum + x)%float.
Proof.
  intros Hs Hx. unfold num_or0, isNaN.
  pose proof (fl_nonneg_nonnan x Hx) as Hn. apply is_nan_false in Hn.
  rewrite Hn, orb_false_r.
  destruct (is_zero x) eqn:Hz.
  - change (is_nan 0) with false. cbv iota. now apply add_plus_zero.
  - now rewrite Hn.
Qed.

Lemma fold_reduce_nonneg (field : BenefitEntry.t -> float)
    (l : list BenefitEntry.t) (acc : float) :
  Forall (fun e => fl_nonneg (field e)) l -> fl_plus acc ->
  fold_left
    (fun sum benefit =>
       let value := num_or0 (field benefit) in
       (sum + (if isNaN value then 0 else value))%float) l acc
  = fold_left (fun sum x => (sum + x)%float) (map field l) acc
  /\ fl_plus (fold_left (fun sum x => (sum + x)%float) (map field l) acc).
Proof.
  intros Hl. revert acc. induction Hl as [|e l He _ IH]; intros acc Hacc.
  - now split.
  - cbn [fold_left map]. cbv zeta. rewrite reduce_step_nonneg by assumption.
    apply IH. now apply add_plus.
Qed.

(** On entries without a negative number the guards of the [reduce] passes
    do nothing: the aggregate is the plain sum. *)
Lemma reduce_sum_nonneg (field : BenefitEntry.t -> float) (l : list BenefitEntry.t) :
  Forall (fun e => fl_nonneg (field e)) l ->
  reduce_sum field l = float_sum (map field l) /\ fl_plus (float_sum (map field l)).
Proof. intros Hl. apply fold_reduce_nonneg; [exact Hl | fl_const]. Qed.

(** The same when the first entry, the points entry, may be negative: the
    running sum is then never [-0], never [-Infinity] and never NaN. *)
Lemma reduce_step_acc (sum x : float) :
  fl_acc sum -> fl_nonneg x ->
  (sum + (if isNaN (num_or0 x) then 0 else num_or0 x))%float = (sum + x)%float.
Proof.
  intros Hs Hx. unfold num_or0, isNaN.
  pose proof (fl_nonneg_nonnan x Hx) as Hn. apply is_nan_false in Hn.
  rewrite Hn, orb_false_r.
  destruct (is_zero x) eqn:Hz.
  - change (is_nan 0) with false. cbv iota. now apply add_acc_zero.
  - now rewrite Hn.
Qed.

Lemma reduce_step_first (x : float) :
  fl_finite x ->
  (0 + (if isNaN (num_or0 x) then 0 else num_or0 x))%float = (0 + x)%float.
Proof.
  intros Hx. unfold num_or0, isNaN.
  pose proof (fl_finite_nonnan x Hx) as Hn. apply is_nan_false in Hn.
  rewrite Hn, orb_false_r.
  destruct (is_zero x) eqn:Hz.
  - change (is_nan 0) with false. cbv iota. now apply add_zero_zero.
  - now rewrite Hn.
Qed.

Lemma fold_reduce_acc (field : BenefitEntry.t -> float)
    (l : list BenefitEntry.t) (acc : float) :
  Forall (fun e => fl_nonneg (field e)) l -> fl_acc acc ->
  fold_left
    (fun sum benefit =>
       let value := num_or0 (field benefit) in
       (sum + (if isNaN value then 0 else value))%float) l acc
  = fold_left (fun sum x => (sum + x)%float) (map field l) acc
  /\ fl_acc (fold_left (fun sum x => (sum + x)%float) (map field l) acc).
Proof.
  intros Hl. revert acc. induction Hl as [|e l He _ IH]; intros acc Hacc.
  - now split.
  - cbn [fold_left map]. cbv zeta. rewrite reduce_step_acc by assumption.
    apply IH. now apply add_acc.
Qed.

(** A finite first entry of any sign, then entries without a negative
    number: the aggregate is still the plain sum, and is not NaN. *)
Lemma reduce_sum_signed (field : BenefitEntry.t -> float) (e : BenefitEntry.t)
    (l : list BenefitEntry.t) :
  fl_finite (field e) -> Forall (fun e => fl_nonneg (field e)) l ->
  reduce_sum field (e :: l) = float_sum (map field (e :: l))
  /\ fl_acc (float_sum (map field (e :: l))).
Proof.
  intros He Hl. unfold reduce_sum, float_sum. cbn [fold_left map]. cbv zeta.
  rewrite reduce_step_first by assumption.
  apply fold_reduce_acc; [exact Hl | now apply add_zero_acc].
Qed.

Lemma points_entry_finite (totalPoints : float) :
  isFinite totalPoints = true -> entry_finite (points_entry totalPoints).
Proof.
  intros H. apply is_finite_spec in H.
  repeat split; cbn [points_entry BenefitEntry.value BenefitEntry.min
    BenefitEntry.max]; now apply mul_const_le1_finite.
Qed.

Lemma taken_blocks (safeInputs : gmap string safeval) (qualifies : bool) :
  taken (blocks safeInputs qualifies) =
  ("points", points_entry (totalPoints_of safeInputs))
    :: taken (tail (blocks safeInputs qualifies)).
Proof. reflexivity. Qed.

(** *** The return on investment *)

Lemma roi_of_nonnan (v : float) : isNaN (roi_of v) = false.
Proof.
  unfold roi_of, isNaN. destruct (0 <? v)%float eqn:Hv; [|reflexivity].
  apply is_nan_false. now apply roi_formula_nonnan.
Qed.

Lemma guardNaN_roi_of (v : float) : guardNaN (roi_of v) (-100) = roi_of v.
Proof. unfold guardNaN. now rewrite roi_of_nonnan. Qed.


Lemma guardNaN_nonnan (x d : float) : isNaN d = false -> isNaN (guardNaN x d) = false.
Proof. intros Hd. unfold guardNaN. now destruct (isNaN x) eqn:E. Qed.

Lemma guardNaN_id (x d : float) : fl_nonnan x -> guardNaN x d = x.
Proof. intros H. apply is_nan_false in H. unfold guardNaN, isNaN. now rewrite H. Qed.

(** *** The bands *)

Lemma band_ordered_intro (v lo hi : float) (d : list piece) :
  (lo <=? v)%float = true -> (v <=? hi)%float = true ->
  band_ordered (BenefitEntry.mk v lo hi d) = true.
Proof.
  intros H1 H2. unfold band_ordered.
  cbn [BenefitEntry.value BenefitEntry.min BenefitEntry.max].
  now rewrite H1, H2.
Qed.

Lemma exact_entry_band (x : float) (d : list piece) :
  fl_nonneg x -> band_ordered (exact_entry x d) = true.
Proof.
  intros Hx. apply fl_nonneg_nonnan in Hx.
  apply band_ordered_intro; now apply leb_refl.
Qed.

(** An entry [value, value * lo, value * hi] with [lo <= 1 <= hi]. *)
Lemma scaled_entry_band (v lo hi : float) (d : list piece) :
  is_pos_const lo = true -> is_pos_const hi = true ->
  (lo <=? 1)%float = true -> (1 <=? hi)%float = true ->
  (0 <? v)%float = true ->
  band_ordered (BenefitEntry.mk v (v * lo) (v * hi) d) = true.
Proof.
  intros Hlo Hhi Hlo1 Hhi1 Hv. apply ltb0_nonneg in Hv.
  apply band_ordered_intro; [now apply mul_le_self | now apply mul_ge_self].
Qed.

Lemma half_entry_band (v lo : float) (d : list piece) :
  is_pos_const lo = true -> (lo <=? 1)%float = true ->
  (0 <? v)%float = true ->
  band_ordered (BenefitEntry.mk v (v * lo) v d) = true.
Proof.
  intros Hlo Hlo1 Hv. apply ltb0_nonneg in Hv.
  apply band_ordered_intro; [now apply mul_le_self|].
  now apply leb_refl, fl_nonneg_nonnan.
Qed.

Lemma points_entry_band (totalPoints : float) :
  fl_nonneg totalPoints -> band_ordered (points_entry totalPoints) = true.
Proof.
  intros H. unfold points_entry.
  apply band_ordered_intro; now apply mul_consts_monotone.
Qed.

Lemma lyft_entry_band (o : option jsval) (d : list piece) :
  let v := sanitize <$> o in
  (0 <? lyftCredits_of v + lyftBonusPoints_of v * POINT_VALUES_avg)%float = true ->
  band_ordered
    (BenefitEntry.mk
       (lyftCredits_of v + lyftBonusPoints_of v * POINT_VALUES_avg)
       (lyftCredits_of v + lyftBonusPoints_of v * POINT_VALUES_min)
       (lyftCredits_of v + lyftBonusPoints_of v * POINT_VALUES_max) d) = true.
Proof.
  intros v Hrun. destruct (lyft_runs_nonneg o Hrun) as [Hc Hb]. fold v in Hc, Hb.
  set (c := lyftCredits_of v) in *. set (b := lyftBonusPoints_of v) in *.
  clearbody c b.
  assert (Havg : is_pos_const POINT_VALUES_avg = true) by reflexivity.
  assert (Hmin : is_pos_const POINT_VALUES_min = true) by reflexivity.
  assert (Hmax : is_pos_const POINT_VALUES_max = true) by reflexivity.
  apply band_ordered_intro.
  - apply add_monotone; try assumption; try (now apply mul_const_nonneg).
    + now apply leb_refl, fl_nonneg_nonnan.
    + now apply mul_consts_monotone.
  - apply add_monotone; try assumption; try (now apply mul_const_nonneg).
    + now apply leb_refl, fl_nonneg_nonnan.
    + now apply mul_consts_monotone.
Qed.

(** Every block after the points block adds an entry whose band is in
    order, whatever the profile. *)
Lemma blocks_tail_band (props : gmap string jsval) (qualifies : bool) :
  Forall (fun b : block => b.1 = true -> band_ordered b.2.2 = true)
    (tail (blocks (sanitize <$> props) qualifies)).
Proof.
  unfold blocks. cbv zeta. cbn [tail].
  rewrite !lookup_fmap.
  repeat (constructor; [cbn [fst snd]; intros Hrun|]); [..|constructor].
  - apply exact_entry_band, clamp_credit_nonneg. fl_const.
  - apply exact_entry_band, clamp_credit_nonneg. fl_const.
  - apply exact_entry_band, ltb0_nonneg, Hrun.
  - apply exact_entry_band, ltb0_nonneg, Hrun.
  - apply half_entry_band; [fl_const|fl_const|exact Hrun].
  - apply half_entry_band; [fl_const|fl_const|exact Hrun].
  - now apply lyft_entry_band.
  - apply scaled_entry_band; [fl_const|fl_const|fl_const|fl_const|exact Hrun].
  - apply scaled_entry_band; [fl_const|fl_const|fl_const|fl_const|exact Hrun].
  - apply exact_entry_band, ltb0_nonneg, Hrun.
  - apply half_entry_band; [fl_const|fl_const|exact Hrun].
  - apply scaled_entry_band; [fl_const|fl_const|fl_const|fl_const|exact Hrun].
Qed.

(** Column sums of non-negative numbers grow with their terms. *)
Lemma fold_sum_monotone (f g : BenefitEntry.t -> float) (l : list BenefitEntry.t)
    (a b : float) :
  Forall (fun e => fl_nonneg (f e) /\ fl_nonneg (g e) /\ (f e <=? g e)%float = true) l ->
  fl_nonneg a -> fl_nonneg b -> (a <=? b)%float = true ->
  (fold_left (fun sum x => (sum + x)%float) (map f l) a
   <=? fold_left (fun sum x => (sum + x)%float) (map g l) b)%float = true.
Proof.
  intros Hl. revert a b. induction Hl as [|e l (Hf & Hg & Hfg) _ IH]; intros a b Ha Hb Hab.
  - exact Hab.
  - cbn [map fold_left]. apply IH.
    + now apply add_nonneg.
    + now apply add_nonneg.
    + now apply add_monotone.
Qed.

Lemma float_sum_monotone (f g : BenefitEntry.t -> float) (l : list BenefitEntry.t) :
  Forall (fun e => fl_nonneg (f e) /\ fl_nonneg (g e) /\ (f e <=? g e)%float = true) l ->
  (float_sum (map f l) <=? float_sum (map g l))%float = true.
Proof.
  intros Hl. apply fold_sum_monotone; [exact Hl|fl_const|fl_const|reflexivity].
Qed.

(** The return grows with the total. *)
Lemma roi_of_monotone (v1 v2 : float) :
  fl_nonneg v1 -> fl_nonneg v2 -> (v1 <=? v2)%float = true ->
  (roi_of v1 <=? roi_of v2)%float = true.
Proof.
  intros H1 H2 Hle.
  assert (Hmono : forall a b, (a <=? b)%float = true ->
            ((a - 795) / 795 * 100 <=? (b - 795) / 795 * 100)%float = true).
  { intros a b Hab.
    apply mul_const_monotone; [reflexivity|].
    apply div_const_monotone; [reflexivity|].
    apply sub_const_monotone; [reflexivity|exact Hab]. }
  unfold roi_of.
  destruct (0 <? v1)%float eqn:E1; destruct (0 <? v2)%float eqn:E2.
  - now apply Hmono.
  - exfalso.
    apply ltb0_ival in E1; [|now apply fl_nonneg_nonnan].
    apply leb_ival in Hle; [|now apply fl_nonneg_nonnan|now apply fl_nonneg_nonnan].
    assert (E2' : (0 <? v2)%float = true)
      by (apply ltb0_ival; [now apply fl_nonneg_nonnan|lia]).
    congruence.
  - assert (H0 : ((0 - 795) / 795 * 100)%float = (-100)%float) by reflexivity.
    rewrite <- H0. apply Hmono. now apply leb0_spec.
  - reflexivity.
Qed.

(** ** Order and monotonicity *)

(** *** More on the order of binary64 numbers *)

Section FloatOrder.
Local Open Scope Z_scope.

Lemma ltb_ival x y :
  fl_nonnan x -> fl_nonnan y ->
  (x <? y)%float = true <-> ival (Prim2SF x) < ival (Prim2SF y).
Proof.
  intros Hx Hy. rewrite FloatAxioms.ltb_spec. unfold SFltb.
  rewrite SFcompare_ival by auto using Prim2SF_valid.
  destruct (Z.compare_spec (ival (Prim2SF x)) (ival (Prim2SF y)));
    split; intros; try lia; easy.
Qed.

Lemma ltb_nonnan x y : (x <? y)%float = true -> fl_nonnan x /\ fl_nonnan y.
Proof.
  rewrite FloatAxioms.ltb_spec. unfold fl_nonnan.
  destruct (Prim2SF x), (Prim2SF y); simpl; easy.
Qed.

Lemma ltb_leb x y : (x <? y)%float = true -> (x <=? y)%float = true.
Proof.
  intros H. destruct (ltb_nonnan x y H) as [Hx Hy].
  apply ltb_ival in H; [|assumption|assumption].
  apply leb_ival; [assumption|assumption|lia].
Qed.

Lemma ltb_false_leb x y :
  fl_nonnan x -> fl_nonnan y -> (x <? y)%float = false -> (y <=? x)%float = true.
Proof.
  intros Hx Hy H. apply leb_ival; [assumption|assumption|].
  destruct (Z.le_gt_cases (ival (Prim2SF y)) (ival (Prim2SF x))) as [|Hlt]; [assumption|].
  apply ltb_ival in Hlt; [congruence|assumption|assumption].
Qed.

Lemma leb_ltb_false x y : (x <=? y)%float = true -> (y <? x)%float = false.
Proof.
  intros H. destruct (leb_nonnan x y H) as [Hx Hy].
  apply leb_ival in H; [|assumption|assumption].
  destruct (y <? x)%float eqn:E; [|reflexivity].
  apply ltb_ival in E; [lia|assumption|assumption].
Qed.

Lemma leb_ltb_trans x y z :
  (x <=? y)%float = true -> (y <? z)%float = true -> (x <? z)%float = true.
Proof.
  intros H1 H2. destruct (leb_nonnan x y H1) as [Hx Hy].
  destruct (ltb_nonnan y z H2) as [_ Hz].
  apply leb_ival in H1; [|assumption|assumption].
  apply ltb_ival in H2; [|assumption|assumption].
  apply ltb_ival; [assumption|assumption|lia].
Qed.

Lemma ltb_leb_trans x y z :
  (x <? y)%float = true -> (y <=? z)%float = true -> (x <? z)%float = true.
Proof.
  intros H1 H2. destruct (ltb_nonnan x y H1) as [Hx Hy].
  destruct (leb_nonnan y z H2) as [_ Hz].
  apply ltb_ival in H1; [|assumption|assumption].
  apply leb_ival in H2; [|assumption|assumption].
  apply ltb_ival; [assumption|assumption|lia].
Qed.

Lemma leb_transitive x y z :
  (x <=? y)%float = true -> (y <=? z)%float = true -> (x <=? z)%float = true.
Proof.
  intros H1 H2. destruct (leb_nonnan x y H1) as [Hx Hy].
  destruct (leb_nonnan y z H2) as [_ Hz].
  apply leb_ival in H1; [|assumption|assumption].
  apply leb_ival in H2; [|assumption|assumption].
  apply leb_ival; [assumption|assumption|lia].
Qed.

(** The sign bit of a zero and of a positive number. *)
Lemma get_sign_zero x s : Prim2SF x = S754_zero s -> get_sign x = s.
Proof.
  intros Hx. unfold get_sign.
  assert (Hz : is_zero x = true) by (apply is_zero_spec; now exists s).
  rewrite Hz. rewrite FloatAxioms.ltb_spec, div_spec, Hx.
  now destruct s.
Qed.

Lemma get_sign_pos x : (0 <? x)%float = true -> get_sign x = false.
Proof.
  intros H. pose proof H as Hp. apply ltb0_spec in Hp. unfold get_sign.
  assert (Hz : is_zero x = false).
  { destruct (is_zero x) eqn:E; [|reflexivity].
    apply is_zero_spec in E as [s Hs]. rewrite Hs in Hp. contradiction. }
  rewrite Hz. apply leb_ltb_false. now apply ltb_leb.
Qed.

(** No number lies strictly between a positive number and the next one. *)
Lemma ltb_successor c s x mc ec :
  Prim2SF c = S754_finite false mc ec ->
  Prim2SF s = S754_finite false (mc + 1) ec ->
  (c <? x)%float = true -> (s <=? x)%float = true.
Proof.
  intros Hc Hs Hlt. destruct (ltb_nonnan c x Hlt) as [Hnc Hnx].
  apply ltb_ival in Hlt; [|assumption|assumption].
  assert (Hns : fl_nonnan s) by (unfold fl_nonnan; now rewrite Hs).
  apply leb_ival; [assumption|assumption|].
  pose proof (Prim2SF_valid c) as Hvc. pose proof (Prim2SF_valid s) as Hvs.
  pose proof (Prim2SF_valid x) as Hvx.
  rewrite Hc in Hvc, Hlt. rewrite Hs in Hvs |- *. cbn [valid_binary] in Hvc, Hvs.
  cbn [ival cond_Zopp] in *.
  destruct (bounded_spec mc ec Hvc) as (Hec & Hmc & Hnc').
  pose proof (mag_bounds mc ec Hvc) as Hbc.
  pose proof (mag_bounds (mc + 1) ec Hvs) as Hbs.
  pose proof (pow2_gt0 (ec + 1074) ltac:(lia)) as Hpc.
  pose proof ival_inf_pos as HI.
  unfold fl_nonnan in Hnx.
  destruct (Prim2SF x) as [sx|sx| |sx m e]; [| | contradiction |].
  - cbn [ival] in *. lia.
  - destruct sx; cbn [ival cond_Zopp] in *; lia.
  - cbn [valid_binary] in Hvx.
    destruct (bounded_spec m e Hvx) as (He & Hm & Hn).
    pose proof (pow2_gt0 (e + 1074) ltac:(lia)) as Hpe.
    destruct sx; cbn [ival cond_Zopp] in *; [lia|].
    rewrite Pos2Z.inj_add. change (Z.pos 1) with 1.
    rewrite pow2_53 in Hm. rewrite pow2_52 in Hnc'.
    clear Hbc Hbs HI Hn Hmc Hvc Hvs Hvx.
    destruct (Z.lt_ge_cases e ec) as [Hlt'|Hge].
    + exfalso. specialize (Hnc' ltac:(lia)).
      pose proof (pow2_le (e + 1074 + 1) (ec + 1074) ltac:(lia)) as Hle.
      rewrite pow2_succ in Hle by lia.
      set (P := 2 ^ (e + 1074)) in *. set (Q := 2 ^ (ec + 1074)) in *.
      clearbody P Q.
      assert (H1 : Z.pos m * P < 9007199254740992 * P)
        by (apply Z.mul_lt_mono_pos_r; lia).
      assert (H2 : 4503599627370496 * Q <= Z.pos mc * Q)
        by (apply Z.mul_le_mono_nonneg_r; lia).
      lia.
    + assert (Hsplit : 2 ^ (e + 1074) = 2 ^ (e - ec) * 2 ^ (ec + 1074)).
      { rewrite <- pow2_split by lia. f_equal. lia. }
      rewrite Hsplit in Hlt |- *.
      pose proof (pow2_gt0 (e - ec) ltac:(lia)) as Hpj.
      set (J := 2 ^ (e - ec)) in *. set (Q := 2 ^ (ec + 1074)) in *.
      clearbody J Q. clear Hsplit Hpe.
      rewrite Z.mul_assoc in Hlt |- *.
      apply Z.mul_lt_mono_pos_r in Hlt; [|assumption].
      apply Z.mul_le_mono_nonneg_r; lia.
Qed.

End FloatOrder.

(** *** [Math.min], [Math.max] and the clamps *)

Lemma or0_nonnan (v : option safeval) : fl_nonnan (ToNumber (or0 v)).
Proof.
  unfold or0. destruct v as [[x|[]]|]; cbn [ToBoolean ToNumber]; try exact I.
  destruct (is_zero x || is_nan x) eqn:E; cbn [negb ToNumber]; [exact I|].
  apply orb_false_iff in E as [_ E]. now apply is_nan_false.
Qed.

Lemma Math_min_le (a b : float) :
  fl_nonnan a -> fl_nonnan b ->
  (Math_min a b <=? a)%float = true /\ (Math_min a b <=? b)%float = true.
Proof.
  intros Ha Hb. unfold Math_min.
  pose proof Ha as Hna. apply is_nan_false in Hna.
  pose proof Hb as Hnb. apply is_nan_false in Hnb.
  rewrite Hna, Hnb. cbn [orb].
  destruct (a <? b)%float eqn:E1.
  - split; [now apply leb_refl | now apply ltb_leb].
  - destruct (b <? a)%float eqn:E2.
    + split; [now apply ltb_leb | now apply leb_refl].
    + pose proof (ltb_false_leb a b Ha Hb E1). pose proof (ltb_false_leb b a Hb Ha E2).
      destruct (get_sign a); split; auto using leb_refl.
Qed.

(** [Math.max(x, 0)] is [+0] up to zero and [x] above. *)
Lemma Math_max_0 (x : float) :
  fl_nonnan x -> Math_max x 0 = if (x <=? 0)%float then 0%float else x.
Proof.
  intros Hx. unfold Math_max.
  pose proof Hx as Hn. apply is_nan_false in Hn. rewrite Hn. cbn [orb].
  change (is_nan 0) with false. cbv iota.
  destruct (x <? 0)%float eqn:E1.
  - now rewrite (ltb_leb _ _ E1).
  - destruct (0 <? x)%float eqn:E2.
    + destruct (x <=? 0)%float eqn:E3; [|reflexivity].
      apply leb_ltb_false in E3. congruence.
    + rewrite (ltb_false_leb 0 x I Hx E2).
      pose proof (ltb_false_leb x 0 Hx I E1) as H1.
      pose proof (ltb_false_leb 0 x I Hx E2) as H2.
      apply leb0_spec in H1.
      assert (Hz : exists s, Prim2SF x = S754_zero s).
      { apply leb_ival in H2; [|exact Hx|exact I].
        change (ival (Prim2SF 0)) with 0%Z in H2.
        pose proof (Prim2SF_valid x) as Hv.
        pose proof ival_inf_pos as HI.
        destruct (Prim2SF x) as [s|[]| |[] m e];
          [now exists s | contradiction | exfalso | contradiction
          | contradiction | exfalso].
        - cbn [ival cond_Zopp] in H2. lia.
        - cbn [valid_binary] in Hv. pose proof (mag_bounds m e Hv).
          cbn [ival cond_Zopp] in H2. lia. }
      destruct Hz as [s Hs]. rewrite (get_sign_zero x s Hs).
      destruct s; [reflexivity|].
      apply Prim2SF_inj. now rewrite Hs.
Qed.

(** [Math.min(y, cap)] for a [y] that is not negative. *)
Lemma Math_min_cap (y cap : float) :
  fl_nonneg y -> is_pos_const cap = true ->
  Math_min y cap = if (y <? cap)%float then y else cap.
Proof.
  intros Hy Hc. unfold Math_min.
  pose proof (fl_nonneg_nonnan y Hy) as Hny. pose proof (pos_const_nonnan cap Hc) as Hnc.
  pose proof Hny as Hn1. apply is_nan_false in Hn1.
  pose proof Hnc as Hn2. apply is_nan_false in Hn2.
  rewrite Hn1, Hn2. cbn [orb].
  destruct (y <? cap)%float eqn:E1; [reflexivity|].
  destruct (cap <? y)%float eqn:E2; [reflexivity|].
  assert (Hpos : (0 <? y)%float = true).
  { apply (ltb_leb_trans 0 cap y); [|now apply ltb_false_leb].
    apply ltb0_spec. destruct (pos_const_inv cap Hc) as (m & e & He).
    now rewrite He. }
  now rewrite (get_sign_pos y Hpos).
Qed.

Lemma clamp_credit_spec (v : option safeval) (cap : float) :
  is_pos_const cap = true ->
  clamp_credit v cap
  = (if (ToNumber (or0 v) <=? 0)%float then 0%float
     else if (ToNumber (or0 v) <? cap)%float then ToNumber (or0 v) else cap)
  /\ (0 <=? clamp_credit v cap)%float = true
  /\ (clamp_credit v cap <=? cap)%float = true.
Proof.
  intros Hc. pose proof (or0_nonnan v) as Hx.
  pose proof (pos_const_nonnan cap Hc) as Hnc.
  assert (Hcap : fl_nonneg cap).
  { destruct (pos_const_inv cap Hc) as (m & e & He). unfold fl_nonneg. now rewrite He. }
  assert (H0 : (0 <? cap)%float = true).
  { apply ltb0_spec. destruct (pos_const_inv cap Hc) as (m & e & He). now rewrite He. }
  unfold clamp_credit. set (x := ToNumber (or0 v)) in *. clearbody x.
  assert (Hmax : fl_nonneg (Math_max x 0)) by now apply Math_max_0_nonneg.
  split; [|split].
  - rewrite Math_max_0 in * by assumption.
    destruct (x <=? 0)%float eqn:E.
    + rewrite Math_min_cap by (try assumption; exact I). now rewrite H0.
    + now rewrite Math_min_cap by assumption.
  - apply leb0_spec. now apply Math_min_nonneg.
  - apply Math_min_le; [now apply fl_nonneg_nonnan | assumption].
Qed.

Lemma roi_formula_monotone (a b : float) :
  (a <=? b)%float = true ->
  ((a - 795) / 795 * 100 <=? (b - 795) / 795 * 100)%float = true.
Proof.
  intros Hab.
  apply mul_const_monotone; [reflexivity|].
  apply div_const_monotone; [reflexivity|].
  apply sub_const_monotone; [reflexivity|exact Hab].
Qed.

Lemma roi_of_floor (v : float) : (-100 <=? roi_of v)%float = true.
Proof.
  unfold roi_of. destruct (0 <? v)%float eqn:E; [|reflexivity].
  assert (H0 : ((0 - 795) / 795 * 100)%float = (-100)%float) by reflexivity.
  rewrite <- H0. apply roi_formula_monotone. now apply ltb_leb.
Qed.

(** The return grows with the total, whatever its sign. *)
Lemma roi_of_monotone_all (v1 v2 : float) :
  (v1 <=? v2)%float = true -> (roi_of v1 <=? roi_of v2)%float = true.
Proof.
  intros H. unfold roi_of at 1. destruct (0 <? v1)%float eqn:E.
  - unfold roi_of. rewrite (ltb_leb_trans 0 v1 v2 E H).
    now apply roi_formula_monotone.
  - apply roi_of_floor.
Qed.


Lemma fl_acc_cases (x : float) :
  fl_acc x -> fl_finite x \/ Prim2SF x = S754_infinity false.
Proof.
  unfold fl_acc, fl_finite.
  destruct (Prim2SF x) as [[]|[]| |[] m e]; simpl; tauto.
Qed.

(** Running sums grow with their terms. *)
Lemma add_acc_monotone (a a' b b' : float) :
  fl_acc a -> fl_acc a' -> fl_nonneg b -> fl_nonneg b' ->
  (a <=? a')%float = true -> (b <=? b')%float = true ->
  (a + b <=? a' + b')%float = true.
Proof.
  intros Ha Ha' Hb Hb' Hle Hle'.
  assert (Hnn : fl_nonnan (a + b)) by now apply fl_acc_nonnan, add_acc.
  destruct (fl_acc_cases a' Ha') as [Hfa|Hia];
    [destruct (fl_nonneg_cases b' Hb') as [Hfb|Hib]|].
  - apply add_mono; auto using fl_finite_is_finite.
    + destruct (fl_acc_cases a Ha) as [Hf|Hinf]; [now apply fl_finite_is_finite|].
      destruct (leb_nonnan _ _ Hle) as [Hx Hy].
      apply leb_ival in Hle; [|assumption|assumption].
      pose proof (ival_finite_bound _ (Prim2SF_valid a') Hfa) as Hby.
      rewrite Hinf in Hle. cbn [ival cond_Zopp] in Hle. lia.
    + destruct (fl_nonneg_cases b Hb) as [Hf|Hinf]; [now apply fl_finite_is_finite|].
      destruct (leb_nonnan _ _ Hle') as [Hx Hy].
      apply leb_ival in Hle'; [|assumption|assumption].
      pose proof (ival_finite_bound _ (Prim2SF_valid b') Hfb) as Hby.
      rewrite Hinf in Hle'. cbn [ival cond_Zopp] in Hle'. lia.
  - apply leb_inf_r; [exact Hnn|].
    rewrite add_spec, Hib. unfold fl_acc in Ha'.
    now destruct (Prim2SF a') as [[]|[]| |[] m e].
  - apply leb_inf_r; [exact Hnn|].
    rewrite add_spec, Hia. unfold fl_nonneg in Hb'.
    now destruct (Prim2SF b') as [s|[]| |[] m e].
Qed.

Lemma add_acc_0 (a : float) : fl_acc a -> (a + 0)%float = a.
Proof.
  intros Ha. apply Prim2SF_inj. rewrite add_spec.
  change (Prim2SF 0) with (S754_zero false). now apply SFadd_acc_zero.
Qed.

Lemma zero_leb (x : float) :
  is_zero x = true -> (0 <=? x)%float = true /\ (x <=? 0)%float = true.
Proof.
  intros H. apply is_zero_spec in H as [s Hs].
  rewrite !FloatAxioms.leb_spec, Hs. change (Prim2SF 0) with (S754_zero false).
  now destruct s.
Qed.

Lemma leb_false_ltb (x y : float) :
  fl_nonnan x -> fl_nonnan y -> (x <=? y)%float = false -> (y <? x)%float = true.
Proof.
  intros Hx Hy H. destruct (y <? x)%float eqn:E; [reflexivity|].
  apply ltb_false_leb in E; [congruence|assumption|assumption].
Qed.

(** The part of a value that a block adds: the value if it is above zero. *)
Lemma pos_part_monotone (v v' : float) :
  (v <=? v')%float = true ->
  ((if (0 <? v)%float then v else 0) <=? (if (0 <? v')%float then v' else 0))%float
  = true.
Proof.
  intros H. destruct (0 <? v)%float eqn:E.
  - now rewrite (ltb_leb_trans 0 v v' E H).
  - destruct (0 <? v')%float eqn:E'; [now apply ltb_leb | reflexivity].
Qed.

Lemma pos_part_nonneg (v : float) :
  (0 <=? (if (0 <? v)%float then v else 0))%float = true.
Proof. destruct (0 <? v)%float eqn:E; [now apply ltb_leb | reflexivity]. Qed.

Lemma pos_part_nonpos (v v' : float) :
  fl_nonpos v ->
  ((if (0 <? v)%float then v else 0) <=? (if (0 <? v')%float then v' else 0))%float
  = true.
Proof.
  intros H. destruct (0 <? v)%float eqn:E.
  - exfalso. exact (ltb0_nonpos v E H).
  - apply pos_part_nonneg.
Qed.

Lemma Math_min_monotone (a a' cap : float) :
  fl_nonneg a -> fl_nonneg a' -> is_pos_const cap = true ->
  (a <=? a')%float = true -> (Math_min a cap <=? Math_min a' cap)%float = true.
Proof.
  intros Ha Ha' Hc H. rewrite !Math_min_cap by assumption.
  destruct (a <? cap)%float eqn:E, (a' <? cap)%float eqn:E'.
  - exact H.
  - now apply ltb_leb.
  - pose proof (leb_ltb_trans a a' cap H E'). congruence.
  - apply leb_refl. now apply pos_const_nonnan.
Qed.

Lemma leb_nonneg (x y : float) :
  fl_nonneg x -> (x <=? y)%float = true -> fl_nonneg y.
Proof.
  intros Hx H. apply leb0_spec. apply leb0_spec in Hx.
  now apply (leb_transitive 0 x y).
Qed.

(** [v || 0] on numbers keeps their order. *)
Lemma or0_number_monotone (x y : float) :
  (x <=? y)%float = true ->
  (ToNumber (or0 (Some (SafeNumber x))) <=? ToNumber (or0 (Some (SafeNumber y))))%float
  = true.
Proof.
  intros H. destruct (leb_nonnan x y H) as [Hx Hy].
  apply is_nan_false in Hx, Hy. unfold or0. cbn [ToBoolean].
  rewrite Hx, Hy, !orb_false_r.
  destruct (is_zero x) eqn:Zx, (is_zero y) eqn:Zy; cbn [negb ToNumber].
  - reflexivity.
  - apply (leb_transitive 0 x y); [now apply zero_leb | exact H].
  - apply (leb_transitive x y 0); [exact H | now apply zero_leb].
  - exact H.
Qed.

Lemma or0_number_finite (x : float) :
  fl_finite x -> fl_finite (ToNumber (or0 (Some (SafeNumber x)))).
Proof.
  intros H. unfold or0. cbn [ToBoolean].
  destruct (negb (is_zero x || is_nan x)); cbn [ToNumber]; [exact H | exact I].
Qed.

Lemma clamp_credit_monotone (o o' : option safeval) (cap : float) :
  is_pos_const cap = true ->
  (ToNumber (or0 o) <=? ToNumber (or0 o'))%float = true ->
  (clamp_credit o cap <=? clamp_credit o' cap)%float = true.
Proof.
  intros Hc H. unfold clamp_credit.
  pose proof (or0_nonnan o) as Hx. pose proof (or0_nonnan o') as Hx'.
  set (x := ToNumber (or0 o)) in *. set (x' := ToNumber (or0 o')) in *.
  clearbody x x'.
  apply Math_min_monotone; try assumption; try now apply Math_max_0_nonneg.
  rewrite !Math_max_0 by assumption.
  destruct (x <=? 0)%float eqn:E, (x' <=? 0)%float eqn:E'.
  - reflexivity.
  - apply ltb_leb, leb_false_ltb; [assumption|exact I|assumption].
  - pose proof (leb_transitive x x' 0 H E'). congruence.
  - exact H.
Qed.

(** The value of the Lyft block, as far as it counts, grows with the rides. *)
Lemma lyft_monotone (x y : float) :
  fl_finite x -> fl_finite y -> (x <=? y)%float = true ->
  let total := fun v =>
    (lyftCredits_of v + lyftBonusPoints_of v * POINT_VALUES_avg)%float in
  ((if (0 <? total (Some (SafeNumber x)))%float then total (Some (SafeNumber x)) else 0)
   <=? (if (0 <? total (Some (SafeNumber y)))%float
        then total (Some (SafeNumber y)) else 0))%float = true.
Proof.
  intros Hfx Hfy H total. unfold total, lyftCredits_of, lyftBonusPoints_of.
  pose proof (or0_number_monotone x y H) as Hle.
  pose proof (or0_number_finite x Hfx) as Hr.
  set (r := ToNumber (or0 (Some (SafeNumber x)))) in *.
  set (r' := ToNumber (or0 (Some (SafeNumber y)))) in *. clearbody r r'.
  assert (H10 : is_pos_const 10 = true) by reflexivity.
  assert (H20 : is_pos_const 20 = true) by reflexivity.
  assert (H4 : is_pos_const 4 = true) by reflexivity.
  assert (H120 : is_pos_const 120 = true) by reflexivity.
  assert (Hcap : fl_nonneg 120) by exact I.
  assert (Havg : is_pos_const POINT_VALUES_avg = true) by reflexivity.
  destruct (nonneg_or_nonpos r Hr) as [Hn|Hn].
  - pose proof (leb_nonneg r r' Hn Hle) as Hn'.
    apply pos_part_monotone. apply add_monotone.
    + apply Math_min_nonneg; [now apply mul_const_nonneg | exact Hcap].
    + apply Math_min_nonneg; [now apply mul_const_nonneg | exact Hcap].
    + now repeat apply mul_const_nonneg.
    + now repeat apply mul_const_nonneg.
    + apply Math_min_monotone; try assumption; try now apply mul_const_nonneg.
      now apply mul_const_monotone.
    + now repeat apply mul_const_monotone.
  - apply pos_part_nonpos. apply add_nonpos.
    + rewrite Math_min_nonpos by (try assumption; now apply mul_const_nonpos).
      now apply mul_const_nonpos.
    + now repeat apply mul_const_nonpos.
Qed.

(** The value of the Peloton block grows with the equipment spend. *)
Lemma peloton_monotone (m : option safeval) (x y : float) :
  (x <=? y)%float = true ->
  (pelotonValue_of m (Some (SafeNumber x)) <=? pelotonValue_of m (Some (SafeNumber y)))%float
  = true.
Proof.
  intros H. unfold pelotonValue_of. cbv zeta. cbn [ToNumber].
  assert (H5 : is_pos_const 5000 = true) by reflexivity.
  assert (H9 : is_pos_const 9 = true) by reflexivity.
  assert (Havg : is_pos_const POINT_VALUES_avg = true) by reflexivity.
  assert (Hz : forall z, (0 <? z)%float = true ->
                 fl_nonneg (Math_min z 5000 * 9 * POINT_VALUES_avg)).
  { intros z Hz. repeat apply mul_const_nonneg; try assumption.
    apply Math_min_nonneg; [now apply ltb0_nonneg | exact I]. }
  assert (Hc : forall c : float, fl_acc c /\ fl_nonneg c ->
            ((if (0 <? x)%float then c + Math_min x 5000 * 9 * POINT_VALUES_avg else c)
             <=? (if (0 <? y)%float then c + Math_min y 5000 * 9 * POINT_VALUES_avg
                  else c))%float = true).
  { intros c [Hacc Hcn]. destruct (0 <? x)%float eqn:E.
    - rewrite (ltb_leb_trans 0 x y E H).
      apply add_monotone; try assumption; try now apply Hz.
      + apply Hz. exact (ltb_leb_trans 0 x y E H).
      + apply leb_refl. now apply fl_nonneg_nonnan.
      + repeat apply mul_const_monotone; try assumption.
        apply Math_min_monotone; try assumption; try now apply ltb0_nonneg.
        apply ltb0_nonneg. exact (ltb_leb_trans 0 x y E H).
    - destruct (0 <? y)%float eqn:E'.
      + rewrite <- (add_acc_0 c Hacc) at 1.
        apply add_monotone; try assumption; try exact I; try now apply Hz.
        * apply leb_refl. now apply fl_nonneg_nonnan.
        * apply leb0_spec. now apply Hz.
      + apply leb_refl. now apply fl_nonneg_nonnan. }
  destruct (ToBoolean m); apply Hc; split; fl_const.
Qed.

(** ** Properties of the engine *)

(** Closes a conjunction of closed equations by evaluation. *)
Ltac by_evaluation :=
  cbv zeta; repeat match goal with |- _ /\ _ => split end;
  intros; vm_compute; reflexivity.

(** *** The memoised flag on numbers *)

(** On an object whose four spending fields hold numbers no conversion is
    called: the memoised total is their sum, 0 if that is NaN, and the results
    are those of the callback under the flag. *)
Lemma compute_numbers (B : Conversions) (props : gmap string jsval) (a b c d : float) :
  props !! "chaseTravel" = Some (JSNumber a) ->
  props !! "flightsHotels" = Some (JSNumber b) ->
  props !! "dining" = Some (JSNumber c) ->
  props !! "otherSpending" = Some (JSNumber d) ->
  totalAnnualSpending B (JSObject props)
  = inr (PNumber (if isNaN (a + b + c + d) then 0%float else (a + b + c + d)%float))
  /\ qualifiesForHighSpender B (JSObject props) = inr (75000 <=? a + b + c + d)%float
  /\ compute B (JSObject props)
     = inr (calculateROI (JSObject props) (75000 <=? a + b + c + d)%float).
Proof.
  intros Ha Hb Hc Hd.
  assert (Ht : totalAnnualSpending B (JSObject props)
               = inr (PNumber (if isNaN (a + b + c + d) then 0%float
                               else (a + b + c + d)%float))).
  { unfold totalAnnualSpending, get_prop. rewrite Ha, Hb, Hc, Hd.
    cbn [default from_option id bind ret ToPrimitive plus ToNumber_prim].
    now destruct (isNaN (a + b + c + d)). }
  assert (Hq : qualifiesForHighSpender B (JSObject props)
               = inr (75000 <=? a + b + c + d)%float).
  { unfold qualifiesForHighSpender. rewrite Ht. cbn [bind ret ToNumber_prim].
    f_equal. unfold isNaN. destruct (is_nan (a + b + c + d)) eqn:E; [|reflexivity].
    now rewrite (is_nan_leb_r _ _ E). }
  split; [exact Ht|]. split; [exact Hq|].
  unfold compute. now rewrite Hq.
Qed.


(** *** The default profile *)

(** C1, as stated, fails: the default profile has twelve DashPass months, so
    its breakdown has a fourth entry and the total is not 600. *)
Lemma C1_default_breakdown_has_dashpass :
  (forall B : Conversions,
     (do r <- compute B (JSObject defaultInputs); ret (Object_keys (breakdown r)))
     = inr ["points"; "travelCredit"; "diningCredit"; "dashpass"])
  /\ (forall B : Conversions,
        (do r <- compute B (JSObject defaultInputs);
         ret (totalValue r, (totalValue r =? 600)%float))
        = inr (719.88%float, false)).
Proof. by_evaluation. Qed.

(** C1 (amended): for the default profile the breakdown has exactly the four
    keys points (0), travelCredit (300), diningCredit (300) and dashpass
    (12 * 9.99, with the band from its half), the total is their sum 719.88
    and the return is (719.88 - 795) / 795 * 100; with no DashPass month the
    breakdown has exactly the three keys points, travelCredit and
    diningCredit, the total is 600 and the return (600 - 795) / 795 * 100. *)
Theorem C1_default_profile (B : Conversions) :
  (do r <- compute B (JSObject defaultInputs);
   ret (entries r, totalValue r, totalCost r, roi r))
  = inr ([("points", (0, 0, 0)); ("travelCredit", (300, 300, 300));
          ("diningCredit", (300, 300, 300));
          ("dashpass", (12 * 9.99, 12 * 9.99 * 0.5, 12 * 9.99))]%float,
         (0 + 0 + 300 + 300 + 12 * 9.99)%float, 795%float,
         ((719.88 - 795) / 795 * 100)%float)
  /\ (do r <- compute B (JSObject (<["dashpassUsage" := JSNumber 0]> defaultInputs));
      ret (entries r, totalValue r, totalCost r, roi r))
     = inr ([("points", (0, 0, 0)); ("travelCredit", (300, 300, 300));
             ("diningCredit", (300, 300, 300))]%float,
            600%float, 795%float, ((600 - 795) / 795 * 100)%float).
Proof. by_evaluation. Qed.

(** *** Clamps *)

(** The Peloton value: the membership credit, and for an equipment spend
    above zero the bonus points of the spend, of 5000 at most. *)
Lemma pelotonValue_spec (m e : option safeval) :
  pelotonValue_of m e
  = (let pelotonValue := if ToBoolean m then (0 + 120)%float else 0%float in
     if (0 <? ToNumber e)%float then
       (pelotonValue
        + (if (ToNumber e <? 5000)%float then ToNumber e else 5000%float)
          * 9 * POINT_VALUES_avg)%float
     else pelotonValue)
  /\ (pelotonValue_of m e <=? 0 + 120 + 5000 * 9 * POINT_VALUES_avg)%float = true.
Proof.
  unfold pelotonValue_of. cbv zeta.
  destruct (0 <? ToNumber e)%float eqn:E.
  - pose proof (ltb0_nonneg _ E) as Hn.
    rewrite Math_min_cap by (try assumption; reflexivity).
    split; [reflexivity|].
    assert (Hb : ((if (ToNumber e <? 5000)%float then ToNumber e else 5000%float)
                  <=? 5000)%float = true).
    { destruct (ToNumber e <? 5000)%float eqn:E5; [now apply ltb_leb | reflexivity]. }
    assert (Hbn : fl_nonneg (if (ToNumber e <? 5000)%float then ToNumber e
                             else 5000%float)).
    { destruct (ToNumber e <? 5000)%float; [exact Hn | exact I]. }
    set (base := if (ToNumber e <? 5000)%float then ToNumber e else 5000%float) in *.
    clearbody base.
    assert (Hz : (base * 9 * POINT_VALUES_avg <=? 5000 * 9 * POINT_VALUES_avg)%float
                 = true)
      by (repeat apply mul_const_monotone; try reflexivity; exact Hb).
    assert (Hzn : fl_nonneg (base * 9 * POINT_VALUES_avg))
      by (repeat apply mul_const_nonneg; try reflexivity; exact Hbn).
    destruct (ToBoolean m); apply add_monotone; try assumption; fl_const.
  - split; [reflexivity|]. destruct (ToBoolean m); reflexivity.
Qed.

(** C8: the four fixed credits are their field clamped between 0 and the
    cap; the Peloton bonus points are earned on the equipment spend, on 5000
    at most. A travel credit usage of 1000 is valued at 300, one of 120 at
    120; a Peloton equipment spend of 9000 earns the bonus points of 5000,
    not of 9000. *)
Theorem C8_clamps :
  (forall (props : gmap string jsval) (qualifies : bool) (k field : string)
          (cap : float) (e : BenefitEntry.t),
     (k, (field, cap)) ∈ credit_caps ->
     obj_get k (breakdown (calculateROI (JSObject props) qualifies)) = Some e ->
     let x := ToNumber (or0 ((sanitize <$> props) !! field)) in
     BenefitEntry.value e
     = (if (x <=? 0)%float then 0%float else if (x <? cap)%float then x else cap)
     /\ (0 <=? BenefitEntry.value e)%float = true
     /\ (BenefitEntry.value e <=? cap)%float = true)
  /\ (forall (props : gmap string jsval) (qualifies : bool) (e : BenefitEntry.t),
        obj_get "peloton" (breakdown (calculateROI (JSObject props) qualifies))
        = Some e ->
        let x := ToNumber ((sanitize <$> props) !! "pelotonEquipment") in
        let membership :=
          if ToBoolean ((sanitize <$> props) !! "pelotonMembership")
          then (0 + 120)%float else 0%float in
        BenefitEntry.value e
        = (if (0 <? x)%float then
             (membership
              + (if (x <? 5000)%float then x else 5000%float) * 9 * POINT_VALUES_avg)%float
           else membership)
        /\ (BenefitEntry.value e <=? 0 + 120 + 5000 * 9 * POINT_VALUES_avg)%float = true)
  /\ (forall B : Conversions,
        (do r <- compute B
                   (JSObject (<["travelCreditUsage" := JSNumber 1000]> defaultInputs));
         ret (e ← obj_get "travelCredit" (breakdown r); Some (BenefitEntry.value e)))
        = inr (Some 300%float))
  /\ (forall B : Conversions,
        (do r <- compute B
                   (JSObject (<["travelCreditUsage" := JSNumber 120]> defaultInputs));
         ret (e ← obj_get "travelCredit" (breakdown r); Some (BenefitEntry.value e)))
        = inr (Some 120%float))
  /\ (forall B : Conversions,
        (do r <- compute B
                   (JSObject (<["pelotonEquipment" := JSNumber 9000]> defaultInputs));
         ret (e ← obj_get "peloton" (breakdown r);
              Some (BenefitEntry.value e,
                    (BenefitEntry.value e =? 9000 * 9 * POINT_VALUES_avg)%float)))
        = inr (Some ((0 + 5000 * 9 * POINT_VALUES_avg)%float, false)))
  /\ (forall B : Conversions,
        (do r <- compute B
                   (JSObject (<["pelotonEquipment" := JSNumber 2000]> defaultInputs));
         ret (e ← obj_get "peloton" (breakdown r); Some (BenefitEntry.value e)))
        = inr (Some (0 + 2000 * 9 * POINT_VALUES_avg)%float)).
Proof.
  split; [|split; [|by_evaluation]].
  - intros props qualifies k field cap e Hk. rewrite calculateROI_object. cbv zeta.
    destruct (isNaN _ || negb (isFinite _)); [discriminate|].
    rewrite run_blocks_taken. cbn [assemble breakdown].
    intros H. apply obj_get_taken in H.
    unfold blocks in H. cbv zeta in H. cbn [In] in H.
    unfold credit_caps in Hk.
    repeat (apply elem_of_cons in Hk as [Hk|Hk]);
      [injection Hk as -> -> ->..|now apply elem_of_nil in Hk];
      repeat (destruct H as [H|H];
              [first [discriminate H | injection H; clear H; intros; subst]|]);
      try contradiction;
      cbn [exact_entry BenefitEntry.value];
      match goal with
      | |- context [clamp_credit ?v ?c] =>
          destruct (clamp_credit_spec v c eq_refl) as (E1 & E2 & E3)
      end; repeat split; assumption.
  - intros props qualifies e. rewrite calculateROI_object. cbv zeta.
    destruct (isNaN _ || negb (isFinite _)); [discriminate|].
    rewrite run_blocks_taken. cbn [assemble breakdown].
    intros H. apply obj_get_taken in H.
    unfold blocks in H. cbv zeta in H. cbn [In] in H.
    repeat (destruct H as [H|H];
            [first [discriminate H | injection H; clear H; intros; subst]|]);
      try contradiction.
    cbn [BenefitEntry.value]. apply pelotonValue_spec.
Qed.

Lemma C8_witness :
  obj_get "travelCredit"
    (breakdown (calculateROI
                  (JSObject (<["travelCreditUsage" := JSNumber 1000]> defaultInputs))
                  false))
  = Some (BenefitEntry.mk 300 300 300 [Lit "$"; Num 300; Lit " travel credit used"])
  /\ (300 = (if (1000 <=? 0) then 0 else if (1000 <? 300) then 1000 else 300)
      /\ (0 <=? 300) = true /\ (300 <=? 300) = true)%float.
Proof.
  split; [vm_compute; reflexivity|].
  pose proof
    (proj1 C8_clamps (<["travelCreditUsage" := JSNumber 1000]> defaultInputs)
       false "travelCredit" "travelCreditUsage" 300%float
       (BenefitEntry.mk 300 300 300 [Lit "$"; Num 300; Lit " travel credit used"]))
    as H.
  assert (Hk : ("travelCredit", ("travelCreditUsage", 300%float)) ∈ credit_caps).
  { unfold credit_caps. apply elem_of_cons. now left. }
  specialize (H Hk ltac:(vm_compute; reflexivity)).
  vm_compute in H |- *. exact H.
Defined.

(** *** Negative spending *)

Lemma sanitize_finite (x : float) :
  is_finite x = true -> sanitize (JSNumber x) = SafeNumber x.
Proof.
  intros Hx. unfold sanitize, isNaN, isFinite. rewrite Hx.
  unfold is_finite in Hx. apply negb_true_iff, orb_false_iff in Hx as [-> _].
  reflexivity.
Qed.

(** C9: the sanitize step keeps a finite negative number as it is, and with
    [otherSpending = -1000] and every other field at zero the points entry and
    the total are negative. *)
Theorem C9_negative_spending_passes_through (B : Conversions) :
  (forall x : float, is_finite x = true -> (x <? 0)%float = true ->
     sanitize (JSNumber x) = SafeNumber x)
  /\ sanitize (JSNumber (-1000)) = SafeNumber (-1000)
  /\ (do r <- compute B (JSObject (<["otherSpending" := JSNumber (-1000)]> zeroInputs));
      ret (e ← obj_get "points" (breakdown r);
           Some (BenefitEntry.value e, (BenefitEntry.value e <? 0)%float,
                 totalValue r, (totalValue r <? 0)%float)))
     = inr (Some ((-17.5)%float, true, (-17.5)%float, true)).
Proof.
  split; [|split].
  - intros x Hx _. now apply sanitize_finite.
  - vm_compute. reflexivity.
  - vm_compute. reflexivity.
Qed.

(** *** Failures *)





(** *** Finiteness *)

Section FloatRange.
Local Open Scope Z_scope.



Lemma above_neg_infinity_spec (x : float) :
  above_neg_infinity x = true
  <-> fl_nonnan x /\ Prim2SF x <> S754_infinity true.
Proof.
  unfold above_neg_infinity, fl_nonnan. rewrite FloatAxioms.ltb_spec.
  change (Prim2SF neg_infinity) with (S754_infinity true).
  destruct (Prim2SF x) as [s|[]| |s m e]; cbn; intuition congruence.
Qed.

End FloatRange.

Lemma above_neg_infinity_nonnan (x : float) :
  above_neg_infinity x = true -> isNaN x = false.
Proof.
  intros H. apply above_neg_infinity_spec in H as [H _].
  unfold isNaN. now apply is_nan_false.
Qed.




















(** *** The return on investment *)



(** *** Totals *)

Lemma breakdown_nonneg (props : gmap string jsval) (qualifies : bool) :
  no_negative_spending props = true ->
  isNaN (totalPoints_of (sanitize <$> props)) = false ->
  Forall entry_nonneg
    (Object_values (taken (blocks (sanitize <$> props) qualifies))).
Proof.
  intros Hok Hnan. apply Forall_taken. rewrite blocks_head. constructor.
  - intros _. now apply points_entry_nonneg, totalPoints_nonneg.
  - apply blocks_tail_nonneg.
Qed.

(** C5: for every input, the total is the sum of the value fields of the
    breakdown entries, in their order, and the low and high aggregates behind
    [minROI] and [maxROI] are the sums of the min and of the max fields: the
    guards of the three [reduce] passes never change a term. *)
Theorem C5_totals_are_sums (inputs : jsval) (qualifies : bool) :
  let r := calculateROI inputs qualifies in
  let benefitValues := Object_values (breakdown r) in
  totalValue r = float_sum (column BenefitEntry.value r)
  /\ reduce_sum BenefitEntry.min benefitValues = float_sum (column BenefitEntry.min r)
  /\ reduce_sum BenefitEntry.max benefitValues = float_sum (column BenefitEntry.max r)
  /\ minROI r = roi_of (float_sum (column BenefitEntry.min r))
  /\ maxROI r = roi_of (float_sum (column BenefitEntry.max r)).
Proof.
  assert (Hfb : let r := fallback in
            let benefitValues := Object_values (breakdown r) in
            totalValue r = float_sum (column BenefitEntry.value r)
            /\ reduce_sum BenefitEntry.min benefitValues
               = float_sum (column BenefitEntry.min r)
            /\ reduce_sum BenefitEntry.max benefitValues
               = float_sum (column BenefitEntry.max r)
            /\ minROI r = roi_of (float_sum (column BenefitEntry.min r))
            /\ maxROI r = roi_of (float_sum (column BenefitEntry.max r))).
  { by_evaluation. }
  destruct inputs as [| |b|x|s|props]; try exact Hfb.
  rewrite calculateROI_object. cbv zeta.
  destruct (isNaN _ || negb (isFinite _)) eqn:Hbad; [exact Hfb|].
  apply orb_false_iff in Hbad as [_ Hfin]. apply negb_false_iff in Hfin.
  rewrite run_blocks_taken, taken_blocks.
  destruct (points_entry_finite _ Hfin) as (Fv & Fmin & Fmax).
  pose proof (Forall_taken entry_nonneg _ (blocks_tail_nonneg props qualifies)) as Hall.
  set (pe := points_entry (totalPoints_of (sanitize <$> props))) in *.
  set (rest := taken (tail (blocks (sanitize <$> props) qualifies))) in *.
  clearbody pe rest.
  unfold column, assemble. cbn [totalValue minROI maxROI breakdown].
  change (Object_values (("points", pe) :: rest)) with (pe :: Object_values rest).
  destruct (reduce_sum_signed BenefitEntry.value pe (Object_values rest) Fv) as [Ev Pv].
  { eapply Forall_impl; [exact Hall|]. now intros e (H & _ & _). }
  destruct (reduce_sum_signed BenefitEntry.min pe (Object_values rest) Fmin)
    as [Emin Pmin].
  { eapply Forall_impl; [exact Hall|]. now intros e (_ & H & _). }
  destruct (reduce_sum_signed BenefitEntry.max pe (Object_values rest) Fmax)
    as [Emax Pmax].
  { eapply Forall_impl; [exact Hall|]. now intros e (_ & _ & H). }
  rewrite !guardNaN_roi_of, Ev, Emin, Emax.
  rewrite guardNaN_id by now apply fl_acc_nonnan.
  repeat match goal with |- _ /\ _ => split end; reflexivity.
Qed.

(** *** The high-spender gate *)



(** With finite spending numbers the memoised total is the sanitized one. *)
Lemma qualifies_finite_spending (B : Conversions) (props : gmap string jsval)
    (a b c d : float) :
  props !! "chaseTravel" = Some (JSNumber a) ->
  props !! "flightsHotels" = Some (JSNumber b) ->
  props !! "dining" = Some (JSNumber c) ->
  props !! "otherSpending" = Some (JSNumber d) ->
  is_finite a = true -> is_finite b = true ->
  is_finite c = true -> is_finite d = true ->
  totalAnnualSpending B (JSObject props)
  = inr (PNumber (let total := (a + b + c + d)%float in
                  if isNaN total then 0%float else total))
  /\ sanitizedSpending props = (a + b + c + d)%float
  /\ qualifiesForHighSpender B (JSObject props)
     = inr (75000 <=? sanitizedSpending props)%float.
Proof.
  intros Ha Hb Hc Hd Fa Fb Fc Fd.
  destruct (compute_numbers B props a b c d Ha Hb Hc Hd) as (Ht & Hq & _).
  assert (Hs : sanitizedSpending props = (a + b + c + d)%float).
  { unfold sanitizedSpending. cbv zeta. rewrite !lookup_fmap, Ha, Hb, Hc, Hd.
    cbn [fmap option_fmap option_map]. now rewrite !sanitize_finite by assumption. }
  split; [exact Ht|]. split; [exact Hs|]. now rewrite Hs.
Qed.



(** *** Monotonicity of the points *)

(** C7, as stated, fails: raising [chaseTravel] from 1000 to [Infinity] makes
    the sanitize step read it as 0, and the points value drops from 140 to 0;
    raising it to 1e308 overflows the point total, and the fallback has no
    points entry at all. *)
Lemma C7_infinite_spending_drops_points :
  (1000 <=? infinity)%float = true
  /\ (forall B : Conversions,
        (do r <- compute B (JSObject (<["chaseTravel" := JSNumber 1000]> defaultInputs));
         ret (BenefitEntry.value <$> obj_get "points" (breakdown r)))
        = inr (Some 140%float))
  /\ (forall B : Conversions,
        (do r <- compute B
                   (JSObject (<["chaseTravel" := JSNumber infinity]> defaultInputs));
         ret (BenefitEntry.value <$> obj_get "points" (breakdown r)))
        = inr (Some 0%float))
  /\ (140 <=? 0)%float = false
  /\ (forall B : Conversions,
        (do r <- compute B (JSObject (<["chaseTravel" := JSNumber 1e308]> defaultInputs));
         ret (obj_get "points" (breakdown r))) = inr None).
Proof. by_evaluation. Qed.

Lemma totalPoints_formula (safeInputs : gmap string safeval) :
  totalPoints_of safeInputs
  = points_formula (ToNumber (safeInputs !! "chaseTravel"))
      (ToNumber (safeInputs !! "flightsHotels"))
      (ToNumber (safeInputs !! "dining"))
      (ToNumber (safeInputs !! "otherSpending")).
Proof. reflexivity. Qed.

Lemma points_formula_finite_inv (a b c d : float) :
  is_finite (points_formula a b c d) = true ->
  is_finite a = true /\ is_finite b = true /\ is_finite c = true
  /\ is_finite d = true.
Proof.
  unfold points_formula. intros H.
  destruct (pos_const_inv MULTIPLIERS_chaseTravel eq_refl) as (m1 & e1 & H1).
  destruct (pos_const_inv MULTIPLIERS_flightsHotels eq_refl) as (m2 & e2 & H2).
  destruct (pos_const_inv MULTIPLIERS_dining eq_refl) as (m3 & e3 & H3).
  destruct (pos_const_inv MULTIPLIERS_otherSpending eq_refl) as (m4 & e4 & H4).
  apply add_finite_inv in H as [H Hd]. apply add_finite_inv in H as [H Hc].
  apply add_finite_inv in H as [Ha Hb].
  split; [exact (mul_const_finite_inv _ _ _ _ H1 Ha)|].
  split; [exact (mul_const_finite_inv _ _ _ _ H2 Hb)|].
  split; [exact (mul_const_finite_inv _ _ _ _ H3 Hc)|].
  exact (mul_const_finite_inv _ _ _ _ H4 Hd).
Qed.

(** The point total does not decrease when a spending number grows. *)
Lemma points_formula_mono (a b c d a' b' c' d' : float) :
  is_finite (points_formula a b c d) = true ->
  is_finite (points_formula a' b' c' d') = true ->
  (a <=? a')%float = true -> (b <=? b')%float = true ->
  (c <=? c')%float = true -> (d <=? d')%float = true ->
  (points_formula a b c d <=? points_formula a' b' c' d')%float = true.
Proof.
  intros F F' Ha Hb Hc Hd.
  destruct (points_formula_finite_inv _ _ _ _ F) as (Fa & Fb & Fc & Fd).
  destruct (points_formula_finite_inv _ _ _ _ F') as (Fa' & Fb' & Fc' & Fd').
  unfold points_formula in *.
  destruct (pos_const_inv MULTIPLIERS_chaseTravel eq_refl) as (m1 & e1 & H1).
  destruct (pos_const_inv MULTIPLIERS_flightsHotels eq_refl) as (m2 & e2 & H2).
  destruct (pos_const_inv MULTIPLIERS_dining eq_refl) as (m3 & e3 & H3).
  destruct (pos_const_inv MULTIPLIERS_otherSpending eq_refl) as (m4 & e4 & H4).
  destruct (add_finite_inv _ _ F) as [Gabc Gd].
  destruct (add_finite_inv _ _ Gabc) as [Gab Gc].
  destruct (add_finite_inv _ _ Gab) as [Ga Gb].
  destruct (add_finite_inv _ _ F') as [Gabc' Gd'].
  destruct (add_finite_inv _ _ Gabc') as [Gab' Gc'].
  destruct (add_finite_inv _ _ Gab') as [Ga' Gb'].
  pose proof (mul_const_mono a a' _ m1 e1 H1 Fa Fa' Ha) as La.
  pose proof (mul_const_mono b b' _ m2 e2 H2 Fb Fb' Hb) as Lb.
  pose proof (mul_const_mono c c' _ m3 e3 H3 Fc Fc' Hc) as Lc.
  pose proof (mul_const_mono d d' _ m4 e4 H4 Fd Fd' Hd) as Ld.
  pose proof (add_mono _ _ _ _ Ga Ga' Gb Gb' La Lb) as Lab.
  pose proof (add_mono _ _ _ _ Gab Gab' Gc Gc' Lab Lc) as Labc.
  exact (add_mono _ _ _ _ Gabc Gabc' Gd Gd' Labc Ld).
Qed.

Lemma not_bad_finite (totalPoints : float) :
  isNaN totalPoints || negb (isFinite totalPoints) = false ->
  is_finite totalPoints = true.
Proof. intros H. apply orb_false_iff in H as [_ H]. now apply negb_false_iff in H. Qed.

Lemma points_of_result (props : gmap string jsval) (qualifies : bool)
    (e : BenefitEntry.t) :
  obj_get "points" (breakdown (calculateROI (JSObject props) qualifies)) = Some e ->
  is_finite (totalPoints_of (sanitize <$> props)) = true
  /\ e = points_entry (totalPoints_of (sanitize <$> props)).
Proof.
  rewrite calculateROI_object. cbv zeta.
  destruct (isNaN _ || negb (isFinite _)) eqn:Hbad; [discriminate|].
  rewrite run_blocks_taken. cbn [assemble breakdown]. rewrite obj_get_points.
  intros [= <-]. split; [now apply not_bad_finite | reflexivity].
Qed.

Lemma ToNumber_sanitized_field (props : gmap string jsval) (k : string) (x : float) :
  props !! k = Some (JSNumber x) -> is_finite x = true ->
  ToNumber ((sanitize <$> props) !! k) = x.
Proof.
  intros Hk Hx. rewrite lookup_fmap, Hk. cbn [fmap option_fmap option_map].
  now rewrite sanitize_finite.
Qed.

Lemma ToNumber_other_field (props : gmap string jsval) (k k' : string) (v : jsval) :
  k <> k' ->
  ToNumber ((sanitize <$> <[k := v]> props) !! k') = ToNumber ((sanitize <$> props) !! k').
Proof. intros Hne. now rewrite !lookup_fmap, lookup_insert_ne. Qed.

(** C7 (amended): when a spending field holding a finite number is raised to
    a larger finite number, the other fields being the same, and both results
    have a points entry (neither point total overflowed into the fallback),
    the points value does not decrease. *)
Theorem C7_points_monotone (props : gmap string jsval) (k : string)
    (x y : float) (qualifies qualifies' : bool) (e e' : BenefitEntry.t) :
  k ∈ spending_keys ->
  props !! k = Some (JSNumber x) ->
  is_finite x = true -> is_finite y = true -> (x <=? y)%float = true ->
  obj_get "points" (breakdown (calculateROI (JSObject props) qualifies)) = Some e ->
  obj_get "points"
    (breakdown (calculateROI (JSObject (<[k := JSNumber y]> props)) qualifies'))
  = Some e' ->
  (BenefitEntry.value e <=? BenefitEntry.value e')%float = true.
Proof.
  intros Hk Hx Fx Fy Hle He He'.
  apply points_of_result in He as [F ->], He' as [F' ->].
  cbn [points_entry BenefitEntry.value].
  destruct (pos_const_inv POINT_VALUES_avg eq_refl) as (m & ex & Havg).
  apply (mul_const_mono _ _ _ m ex Havg F F').
  rewrite !totalPoints_formula in *.
  pose proof (points_formula_finite_inv _ _ _ _ F) as (Fa & Fb & Fc & Fd).
  assert (Hy : ToNumber ((sanitize <$> <[k := JSNumber y]> props) !! k) = y).
  { apply ToNumber_sanitized_field; [apply lookup_insert_eq | assumption]. }
  pose proof (ToNumber_sanitized_field props k x Hx Fx) as Hxv.
  unfold spending_keys in Hk.
  repeat (apply elem_of_cons in Hk as [->|Hk]); [..|now apply elem_of_nil in Hk];
    rewrite Hy in *; rewrite Hxv in *;
    rewrite !(ToNumber_other_field props _ _ (JSNumber y)) in * by discriminate;
    apply points_formula_mono; try assumption;
    apply leb_refl, is_finite_nonnan; assumption.
Qed.

Lemma C7_witness :
  (BenefitEntry.value (points_entry 0) <=? BenefitEntry.value (points_entry 8000))%float
  = true.
Proof.
  apply (C7_points_monotone defaultInputs "chaseTravel" 0 1000 false false
           (points_entry 0) (points_entry 8000)).
  - apply (bool_decide_unpack _). reflexivity.
  - reflexivity.
  - reflexivity.
  - reflexivity.
  - reflexivity.
  - vm_compute. reflexivity.
  - vm_compute. reflexivity.
Defined.

(** *** Bands *)

(** C10, as stated, fails: with [otherSpending = -1000] the points entry has
    min -15 above its value -17.5 and its max -20 below it, and the return
    exceeds the high return. *)
Lemma C10_negative_points_invert_band :
  (forall B : Conversions,
     (do r <- compute B (JSObject (<["otherSpending" := JSNumber (-1000)]> defaultInputs));
      ret (entry_values <$> obj_get "points" (breakdown r),
           band_ordered <$> obj_get "points" (breakdown r),
           roi r, maxROI r, (roi r <=? maxROI r)%float))
     = inr (Some (-17.5, -15, -20)%float, Some false,
            (-11.650314465408805)%float, (-11.964779874213836)%float, false))
  /\ spending_not_negative
       (JSObject (<["otherSpending" := JSNumber (-1000)]> defaultInputs)) = false.
Proof. by_evaluation. Qed.

Lemma breakdown_bands (props : gmap string jsval) (qualifies : bool) :
  no_negative_spending props = true ->
  isNaN (totalPoints_of (sanitize <$> props)) = false ->
  Forall (fun e => band_ordered e = true)
    (Object_values (taken (blocks (sanitize <$> props) qualifies))).
Proof.
  intros Hok Hnan. apply Forall_taken. rewrite blocks_head. constructor.
  - intros _. now apply points_entry_band, totalPoints_nonneg.
  - apply blocks_tail_band.
Qed.

Lemma band_ordered_inv (e : BenefitEntry.t) :
  band_ordered e = true ->
  (BenefitEntry.min e <=? BenefitEntry.value e)%float = true
  /\ (BenefitEntry.value e <=? BenefitEntry.max e)%float = true.
Proof. unfold band_ordered. now rewrite andb_true_iff. Qed.

(** C10 (amended): for every input whose spending fields hold no negative
    number, the low return is at most the return, the return at most the high
    return, and every entry of the breakdown has its min at most its value
    and its value at most its max. *)
Theorem C10_bands_in_order (inputs : jsval) (qualifies : bool) :
  spending_not_negative inputs = true ->
  (minROI (calculateROI inputs qualifies) <=? roi (calculateROI inputs qualifies))%float
  = true
  /\ (roi (calculateROI inputs qualifies) <=? maxROI (calculateROI inputs qualifies))%float
     = true
  /\ Forall (fun e => band_ordered e = true)
       (Object_values (breakdown (calculateROI inputs qualifies))).
Proof.
  intros Hok.
  assert (Hfb : (minROI fallback <=? roi fallback)%float = true
                /\ (roi fallback <=? maxROI fallback)%float = true
                /\ Forall (fun e => band_ordered e = true)
                     (Object_values (breakdown fallback))).
  { split; [reflexivity|]. split; [reflexivity|]. constructor. }
  destruct inputs as [| |b|x|s|props];
    try (rewrite calculateROI_not_object by (intros p; discriminate); exact Hfb).
  cbn [spending_not_negative] in Hok.
  rewrite calculateROI_object. cbv zeta.
  destruct (isNaN _ || negb (isFinite _)) eqn:Hbad; [exact Hfb|].
  apply orb_false_iff in Hbad as [Hnan _].
  rewrite run_blocks_taken.
  pose proof (breakdown_nonneg props qualifies Hok Hnan) as Hall.
  pose proof (breakdown_bands props qualifies Hok Hnan) as Hband.
  set (bd := taken (blocks (sanitize <$> props) qualifies)) in *. clearbody bd.
  unfold assemble. cbn [roi minROI maxROI breakdown].
  destruct (reduce_sum_nonneg BenefitEntry.value (Object_values bd)) as [Ev Pv].
  { eapply Forall_impl; [exact Hall|]. now intros e (H & _ & _). }
  destruct (reduce_sum_nonneg BenefitEntry.min (Object_values bd)) as [Emin Pmin].
  { eapply Forall_impl; [exact Hall|]. now intros e (_ & H & _). }
  destruct (reduce_sum_nonneg BenefitEntry.max (Object_values bd)) as [Emax Pmax].
  { eapply Forall_impl; [exact Hall|]. now intros e (_ & _ & H). }
  rewrite !guardNaN_roi_of, Ev, Emin, Emax.
  assert (Hboth : Forall (fun e => entry_nonneg e /\ band_ordered e = true)
                    (Object_values bd)).
  { apply Forall_and. split; assumption. }
  split; [|split; [|exact Hband]].
  - apply roi_of_monotone; [now apply fl_plus_nonneg | now apply fl_plus_nonneg |].
    apply float_sum_monotone.
    eapply Forall_impl; [exact Hboth|].
    intros e ((Hv & Hmin & _) & Hb). apply band_ordered_inv in Hb as [Hlo _].
    split; [exact Hmin|]. split; [exact Hv|exact Hlo].
  - apply roi_of_monotone; [now apply fl_plus_nonneg | now apply fl_plus_nonneg |].
    apply float_sum_monotone.
    eapply Forall_impl; [exact Hboth|].
    intros e ((Hv & _ & Hmax) & Hb). apply band_ordered_inv in Hb as [_ Hhi].
    split; [exact Hv|]. split; [exact Hmax|exact Hhi].
Qed.

Lemma C10_witness :
  (minROI (calculateROI (JSObject defaultInputs) false)
   <=? roi (calculateROI (JSObject defaultInputs) false))%float = true
  /\ (roi (calculateROI (JSObject defaultInputs) false)
      <=? maxROI (calculateROI (JSObject defaultInputs) false))%float = true
  /\ Forall (fun e => band_ordered e = true)
       (Object_values (breakdown (calculateROI (JSObject defaultInputs) false))).
Proof.
  apply (C10_bands_in_order (JSObject defaultInputs) false). vm_compute. reflexivity.
Defined.

(** ** Further properties of the component *)

(** *** The validation helper *)

Lemma not_finite_nan (x : float) : is_finite x = true -> is_nan x = false.
Proof.
  unfold is_finite. intros H. apply negb_true_iff, orb_false_iff in H. tauto.
Qed.

Lemma sanitize_number (x : float) :
  sanitize (JSNumber x) = SafeNumber (if is_finite x then x else 0%float).
Proof.
  unfold sanitize, isNaN, isFinite. destruct (is_finite x) eqn:E.
  - now rewrite (not_finite_nan x E).
  - now rewrite orb_true_r.
Qed.

(** The engine reads NaN for a property of the sanitized object exactly when
    the object has no such property. *)
Lemma ToNumber_sanitized_nan (props : gmap string jsval) (k : string) :
  is_nan (ToNumber ((sanitize <$> props) !! k)) = true <-> props !! k = None.
Proof.
  rewrite lookup_fmap. destruct (props !! k) as [[| |[]|x|s|m]|];
    cbn [fmap option_fmap option_map sanitize ToNumber]; split;
    try reflexivity; try discriminate.
  unfold isNaN, isFinite. destruct (is_nan x) eqn:E; cbn [orb]; [discriminate|].
  destruct (negb (is_finite x)); [discriminate|]. now rewrite E.
Qed.

(** X1: [validateInputs] throws exactly on what is not an object; on an
    object it returns an object with the same keys but ["__proto__"], which
    the assignment drops; a finite number and a boolean are kept, and
    everything else (NaN, an infinity, a string, null, undefined, a nested
    object) is the number 0. So every number of the result is finite, and a
    property of the result reads as NaN in the engine only when the input has
    no such property. *)
Theorem X1_validateInputs_contract (inputs : jsval) :
  match validateInputs inputs with
  | inl e => is_object inputs = false /\ e = "Invalid inputs: must be an object"
  | inr safe =>
      exists props, inputs = JSObject props
        /\ dom safe = dom props ∖ {["__proto__"]}
        /\ (forall k x, safe !! k = Some (SafeNumber x) -> is_finite x = true)
        /\ (forall k v, k <> "__proto__" -> props !! k = Some v ->
              safe !! k = Some
                match v with
                | JSNumber x => SafeNumber (if is_finite x then x else 0%float)
                | JSBoolean b => SafeBoolean b
                | _ => SafeNumber 0
                end)
        /\ (forall k, k <> "__proto__" ->
              (is_nan (ToNumber (safe !! k)) = true <-> props !! k = None))
  end.
Proof.
  destruct inputs as [| |b|x|s|props]; try (split; reflexivity).
  cbn [validateInputs ret]. exists props. split; [reflexivity|].
  split; [now rewrite dom_fmap_L, dom_delete_L|]. split; [|split].
  - intros k x. rewrite lookup_fmap.
    destruct (delete "__proto__" props !! k) as [[| |b|y|s|m]|]; cbn;
      try discriminate; intros [= <-]; try reflexivity.
    unfold isNaN, isFinite.
    destruct (is_nan y || negb (is_finite y)) eqn:E; [reflexivity|].
    apply orb_false_iff in E as [_ E]. now apply negb_false_iff in E.
  - intros k v Hne Hk. rewrite lookup_fmap, lookup_delete_ne, Hk by congruence.
    cbn [fmap option_fmap option_map].
    f_equal. destruct v; try reflexivity. apply sanitize_number.
  - intros k Hne. rewrite ToNumber_sanitized_nan.
    now rewrite lookup_delete_ne by congruence.
Qed.

Lemma sanitize_to_js (v : jsval) : sanitize (to_js (sanitize v)) = sanitize v.
Proof.
  destruct v as [| |b|x|s|m]; try reflexivity.
  rewrite !sanitize_number. cbn [to_js]. rewrite sanitize_number.
  destruct (is_finite x) eqn:E; [now rewrite E | reflexivity].
Qed.

(** X2: sanitizing is idempotent, and for a given qualification flag the
    engine sees its input only through the sanitized object: run on the
    object [validateInputs] returned, it validates to the same object and
    gives the same result. In the component the flag is not given: it is
    memoised from the raw fields, so that with [chaseTravel = Infinity] and
    useShopsCredit the raw state qualifies, for 969.88 with the highSpender
    entry, and the sanitized state does not, for 719.88. *)
Theorem X2_engine_on_sanitized_input (props : gmap string jsval) (qualifies : bool) :
  (forall v, sanitize (to_js (sanitize v)) = sanitize v)
  /\ validateInputs
       (JSObject (to_js <$> (sanitize <$> delete "__proto__" props)))
     = validateInputs (JSObject props)
  /\ calculateROI
       (JSObject (to_js <$> (sanitize <$> delete "__proto__" props))) qualifies
     = calculateROI (JSObject props) qualifies
  /\ (forall B : Conversions,
        let raw :=
          with_fields [("chaseTravel", JSNumber infinity);
                       ("useShopsCredit", JSBoolean true)] defaultInputs in
        (do r <- compute B (JSObject raw);
         ret (totalValue r, Object_keys (breakdown r)))
        = inr (969.88%float,
               ["points"; "travelCredit"; "diningCredit"; "dashpass"; "highSpender"])
        /\ (do r <- compute B
                      (JSObject (to_js <$> (sanitize <$> delete "__proto__" raw)));
            ret (totalValue r, Object_keys (breakdown r)))
           = inr (719.88%float,
                  ["points"; "travelCredit"; "diningCredit"; "dashpass"])).
Proof.
  assert (E : sanitize <$> delete "__proto__"
                (to_js <$> (sanitize <$> delete "__proto__" props))
              = sanitize <$> delete "__proto__" props).
  { rewrite <- !fmap_delete, delete_delete_eq.
    rewrite <- !map_fmap_compose. apply map_fmap_ext. intros k v _.
    apply sanitize_to_js. }
  split; [exact sanitize_to_js|]. split; [|split].
  - cbn [validateInputs]. now rewrite E.
  - unfold calculateROI. rewrite !calculateROI_try_blocks. cbv zeta. now rewrite E.
  - intros B. cbv zeta. split; vm_compute; reflexivity.
Qed.

(** *** The fields the engine reads *)

Lemma calculateROI_agree (props props' : gmap string jsval) (qualifies : bool) :
  (forall k, k ∈ engine_keys -> (qualifies = false -> k ∉ highSpender_items) ->
     props !! k = props' !! k) ->
  calculateROI (JSObject props) qualifies = calculateROI (JSObject props') qualifies.
Proof.
  intros H. rewrite !calculateROI_object.
  destruct (blocks_agree (sanitize <$> props) (sanitize <$> props') qualifies)
    as [Ep Eb].
  { intros k H1 H2. rewrite !lookup_fmap. now rewrite (H k H1 H2). }
  now rewrite Ep, Eb.
Qed.

(** X3: the result depends on the input object only through the twenty-one
    properties the engine reads: two objects that agree on these give the
    same result, whatever else they hold. *)
Theorem X3_engine_reads_its_keys (props props' : gmap string jsval) (qualifies : bool) :
  (forall k, k ∈ engine_keys -> props !! k = props' !! k) ->
  calculateROI (JSObject props) qualifies = calculateROI (JSObject props') qualifies.
Proof. intros H. apply calculateROI_agree. intros k Hk _. now apply H. Qed.

Lemma X3_witness :
  calculateROI (JSObject defaultInputs) true
  = calculateROI (JSObject (<["nickname" := JSString "Ada"]> defaultInputs)) true.
Proof.
  apply (X3_engine_reads_its_keys defaultInputs
           (<["nickname" := JSString "Ada"]> defaultInputs) true).
  intros k Hk. rewrite lookup_insert_ne; [reflexivity|].
  intros <-. revert Hk. apply (bool_decide_unpack _). vm_compute. exact I.
Defined.

(** X4: without the high-spender qualification the four high-spender
    toggles are inert: setting one to any value leaves the result as it
    is. *)
Theorem X4_high_spender_toggles_inert (props : gmap string jsval) (k : string)
    (v : jsval) :
  k ∈ highSpender_items ->
  calculateROI (JSObject (<[k := v]> props)) false = calculateROI (JSObject props) false.
Proof.
  intros Hk. apply calculateROI_agree. intros k' _ Hk'.
  apply lookup_insert_ne. intros <-. now apply Hk'.
Qed.

Lemma X4_witness :
  calculateROI (JSObject (<["useSouthwestCredit" := JSBoolean true]> defaultInputs)) false
  = calculateROI (JSObject defaultInputs) false.
Proof.
  apply X4_high_spender_toggles_inert.
  apply (bool_decide_unpack _). vm_compute. exact I.
Defined.

(** *** The keys of the breakdown *)

Lemma taken_keys_sublist (bs : list block) :
  sublist (Object_keys (taken bs)) (block_keys bs).
Proof.
  induction bs as [|[c [k e]] bs IH]; [constructor|].
  unfold taken, Object_keys, block_keys in *. cbn [List.filter map fst snd].
  destruct c; cbn [map fst snd]; [now apply sublist_skip | now apply sublist_cons].
Qed.

(** X5: the breakdown of a result is empty (the fallback), or it starts with
    the entries points, travelCredit and diningCredit, followed by some of the
    ten optional entries in their fixed order; no key occurs twice. *)
Theorem X5_breakdown_keys (inputs : jsval) (qualifies : bool) :
  let keys := Object_keys (breakdown (calculateROI inputs qualifies)) in
  NoDup keys
  /\ (keys = []
      \/ exists rest, keys = (always_keys ++ rest)%list /\ sublist rest optional_keys).
Proof.
  cbv zeta.
  assert (Hfb : NoDup (Object_keys (breakdown fallback))
                /\ (Object_keys (breakdown fallback) = []
                    \/ exists rest, Object_keys (breakdown fallback)
                                    = (always_keys ++ rest)%list
                                    /\ sublist rest optional_keys)).
  { split; [constructor | now left]. }
  destruct inputs as [| |b|x|s|props]; try exact Hfb.
  rewrite calculateROI_object. cbv zeta.
  destruct (isNaN _ || negb (isFinite _)); [exact Hfb|].
  rewrite run_blocks_taken. cbn [assemble breakdown].
  pose proof (taken_keys_sublist (tail (blocks (sanitize <$> props) qualifies)))
    as Hsub.
  rewrite taken_blocks.
  set (bs := tail (blocks (sanitize <$> props) qualifies)) in *.
  assert (Hbs : exists b1 b2 rest,
             bs = (true, ("travelCredit", b1)) :: (true, ("diningCredit", b2)) :: rest
             /\ block_keys rest = optional_keys).
  { unfold bs, blocks. cbv zeta. cbn [tail]. eexists _, _, _. split; reflexivity. }
  destruct Hbs as (b1 & b2 & rest & Hbs & Hrest).
  rewrite Hbs in *. clearbody bs.
  assert (Hr : sublist (Object_keys (taken rest)) optional_keys).
  { rewrite <- Hrest. apply taken_keys_sublist. }
  assert (Hk : Object_keys (("points", points_entry (totalPoints_of (sanitize <$> props)))
                 :: taken ((true, ("travelCredit", b1))
                           :: (true, ("diningCredit", b2)) :: rest))
               = (always_keys ++ Object_keys (taken rest))%list) by reflexivity.
  rewrite Hk. split.
  - assert (Hs : sublist (always_keys ++ Object_keys (taken rest))%list
                   (always_keys ++ optional_keys)%list)
      by (apply sublist_app; [reflexivity|exact Hr]).
    assert (Hn : NoDup (always_keys ++ optional_keys)%list)
      by (apply (bool_decide_unpack _); vm_compute; exact I).
    eauto using sublist_NoDup.
  - right. exists (Object_keys (taken rest)). now split.
Qed.

(** X6: an optional entry is in the breakdown only with a value above zero:
    a category worth nothing, or less, is left out. *)
Theorem X6_optional_entries_positive (inputs : jsval) (qualifies : bool)
    (k : string) (e : BenefitEntry.t) :
  obj_get k (breakdown (calculateROI inputs qualifies)) = Some e ->
  k ∉ always_keys ->
  (0 <? BenefitEntry.value e)%float = true.
Proof.
  destruct inputs as [| |b|x|s|props]; try discriminate.
  rewrite calculateROI_object. cbv zeta.
  destruct (isNaN _ || negb (isFinite _)); [discriminate|].
  rewrite run_blocks_taken. cbn [assemble breakdown].
  intros H Hk. apply obj_get_taken in H.
  unfold blocks in H. cbv zeta in H. cbn [In] in H.
  assert (Hnk : forall k', k' ∈ always_keys -> k <> k') by (intros k' Hk' ->; auto).
  repeat (destruct H as [H|H];
          [injection H; clear H; intros; subst;
           first [ assumption
                 | exfalso; refine (Hnk _ _ eq_refl);
                   apply (bool_decide_unpack _); reflexivity ] |]).
  contradiction.
Qed.

Lemma X6_witness :
  (0 <? BenefitEntry.value
          (exact_entry 24 [Lit "Global Entry credit ($120 every 5 years)"]))%float = true.
Proof.
  apply (X6_optional_entries_positive
           (JSObject (<["globalEntryValue" := JSBoolean true]> defaultInputs)) false
           "globalEntry").
  - vm_compute. reflexivity.
  - apply (bool_decide_unpack _). vm_compute. exact I.
Defined.

(** X7: each of the four credits is its field clamped between 0 and its cap:
    [+0] for a field up to zero (or missing, or not a number), the field
    itself below the cap, the cap from there on; so the value lies between 0
    and the cap, and the band of the entry is the value itself. *)
Theorem X7_credits_are_clamped (props : gmap string jsval) (qualifies : bool)
    (k field : string) (cap : float) (e : BenefitEntry.t) :
  (k, (field, cap)) ∈ credit_caps ->
  obj_get k (breakdown (calculateROI (JSObject props) qualifies)) = Some e ->
  let x := ToNumber (or0 ((sanitize <$> props) !! field)) in
  BenefitEntry.value e
  = (if (x <=? 0)%float then 0%float else if (x <? cap)%float then x else cap)
  /\ (0 <=? BenefitEntry.value e)%float = true
  /\ (BenefitEntry.value e <=? cap)%float = true
  /\ BenefitEntry.min e = BenefitEntry.value e
  /\ BenefitEntry.max e = BenefitEntry.value e.
Proof.
  intros Hk. rewrite calculateROI_object. cbv zeta.
  destruct (isNaN _ || negb (isFinite _)); [discriminate|].
  rewrite run_blocks_taken. cbn [assemble breakdown].
  intros H. apply obj_get_taken in H.
  unfold blocks in H. cbv zeta in H. cbn [In] in H.
  unfold credit_caps in Hk.
  repeat (apply elem_of_cons in Hk as [Hk|Hk]);
    [injection Hk as -> -> ->..|now apply elem_of_nil in Hk];
    repeat (destruct H as [H|H];
            [first [discriminate H | injection H; clear H; intros; subst]|]);
    try contradiction;
    cbn [exact_entry BenefitEntry.value BenefitEntry.min BenefitEntry.max];
    match goal with
    | |- context [clamp_credit ?v ?c] =>
        destruct (clamp_credit_spec v c eq_refl) as (E1 & E2 & E3)
    end; repeat split; assumption.
Qed.

Lemma X7_witness :
  BenefitEntry.value (exact_entry 300 [Lit "$"; Num 300; Lit " travel credit used"])
  = 300%float.
Proof.
  apply (X7_credits_are_clamped
           (<["travelCreditUsage" := JSNumber 1000]> defaultInputs) false
           "travelCredit" "travelCreditUsage" 300
           (exact_entry 300 [Lit "$"; Num 300; Lit " travel credit used"])).
  - unfold credit_caps. apply elem_of_cons. now left.
  - vm_compute. reflexivity.
Defined.

(** *** The return on investment *)

(** X8: the three returns of a result are never below -100. *)
Theorem X8_roi_floor (inputs : jsval) (qualifies : bool) :
  (-100 <=? roi (calculateROI inputs qualifies))%float = true
  /\ (-100 <=? minROI (calculateROI inputs qualifies))%float = true
  /\ (-100 <=? maxROI (calculateROI inputs qualifies))%float = true.
Proof.
  assert (Hfb : (-100 <=? roi fallback)%float = true
                /\ (-100 <=? minROI fallback)%float = true
                /\ (-100 <=? maxROI fallback)%float = true).
  { split; [reflexivity|]. split; reflexivity. }
  destruct inputs as [| |b|x|s|props]; try exact Hfb.
  rewrite calculateROI_object. cbv zeta.
  destruct (isNaN _ || negb (isFinite _)); [exact Hfb|].
  unfold assemble. cbn [roi minROI maxROI]. rewrite !guardNaN_roi_of.
  split; [apply roi_of_floor|]. split; apply roi_of_floor.
Qed.

(** The return is positive exactly when the total exceeds the fee. *)
Lemma roi_of_sign (v : float) :
  (0 <? roi_of v)%float = (0 <? guardNaN v 0 - 795)%float.
Proof.
  unfold guardNaN, isNaN. destruct (is_nan v) eqn:Hn.
  { unfold roi_of. now rewrite (is_nan_ltb0 v Hn). }
  apply is_nan_false in Hn.
  destruct (795 <? v)%float eqn:E.
  - pose proof (ltb_successor 795 (next_up 795) v _ _ eq_refl eq_refl E) as Hs.
    assert (Hpos : (0 <? v)%float = true)
      by (apply (ltb_leb_trans 0 795 v); [reflexivity | now apply ltb_leb]).
    unfold roi_of. rewrite Hpos.
    rewrite (ltb_leb_trans 0 ((next_up 795 - 795) / 795 * 100) _ eq_refl
               (roi_formula_monotone _ _ Hs)).
    symmetry.
    apply (ltb_leb_trans 0 (next_up 795 - 795) _ eq_refl).
    apply sub_const_monotone; [reflexivity|exact Hs].
  - pose proof (ltb_false_leb 795 v I Hn E) as Hle.
    assert (R : (0 <? v - 795)%float = false).
    { apply leb_ltb_false.
      assert (H0 : (795 - 795)%float = 0%float) by reflexivity.
      rewrite <- H0. apply sub_const_monotone; [reflexivity|exact Hle]. }
    rewrite R. unfold roi_of. destruct (0 <? v)%float; [|reflexivity].
    apply leb_ltb_false.
    assert (H0 : ((795 - 795) / 795 * 100)%float = 0%float) by reflexivity.
    rewrite <- H0. now apply roi_formula_monotone.
Qed.

(** X9: what is rendered agrees with itself: the page recommends the card
    ([results.roi > 0]) exactly when the net value it shows
    ([results.totalValue - 795]) is positive. *)
Theorem X9_recommendation_matches_net_value (inputs : jsval) (qualifies : bool) :
  recommended (calculateROI inputs qualifies)
  = netValue_positive (calculateROI inputs qualifies).
Proof.
  destruct inputs as [| |b|x|s|props]; try reflexivity.
  rewrite calculateROI_object. cbv zeta.
  destruct (isNaN _ || negb (isFinite _)); [reflexivity|].
  unfold recommended, netValue_positive, netValue, assemble.
  cbn [roi totalValue]. rewrite guardNaN_roi_of. apply roi_of_sign.
Qed.

(** *** Missing fields *)

Lemma totalPoints_missing (safe : gmap string safeval) (k : string) :
  k ∈ spending_keys -> safe !! k = None -> is_nan (totalPoints_of safe) = true.
Proof.
  intros Hk Hnone. unfold spending_keys in Hk. unfold totalPoints_of.
  repeat (apply elem_of_cons in Hk as [->|Hk]); [..|now apply elem_of_nil in Hk];
    rewrite Hnone; cbn [ToNumber]; 
    repeat first [ reflexivity
                 | apply is_nan_mul_l
                 | apply is_nan_add_r; apply is_nan_mul_l; reflexivity
                 | apply is_nan_add_l ].
Qed.

(** X10: an object that lacks one of the four spending fields gets the
    fallback, whatever else it holds: the empty object for one. *)
Theorem X10_missing_spending_field (props : gmap string jsval) (qualifies : bool)
    (k : string) :
  k ∈ spending_keys -> props !! k = None ->
  calculateROI (JSObject props) qualifies = fallback.
Proof.
  intros Hk Hnone. rewrite calculateROI_object. cbv zeta.
  assert (Hn : is_nan (totalPoints_of (sanitize <$> props)) = true).
  { apply (totalPoints_missing _ k Hk). now rewrite lookup_fmap, Hnone. }
  unfold isNaN. now rewrite Hn.
Qed.

Lemma X10_witness : calculateROI (JSObject ∅) true = fallback.
Proof.
  apply (X10_missing_spending_field ∅ true "dining").
  - apply (bool_decide_unpack _). vm_compute. exact I.
  - reflexivity.
Defined.

(** *** The memoised spending total *)

Lemma sum4_nan (a b c d : float) :
  is_nan a = true \/ is_nan b = true \/ is_nan c = true \/ is_nan d = true ->
  is_nan (a + b + c + d) = true.
Proof.
  intros [H|[H|[H|H]]].
  - now apply is_nan_add_l, is_nan_add_l, is_nan_add_l.
  - now apply is_nan_add_l, is_nan_add_l, is_nan_add_r.
  - now apply is_nan_add_l, is_nan_add_r.
  - now apply is_nan_add_r.
Qed.

Lemma number_primitive (B : Conversions) (v : jsval) :
  adds_as_number v = true ->
  exists p, ToPrimitive B v = inr p /\ (forall s, p <> PString s)
            /\ (v = JSUndefined -> is_nan (ToNumber_prim B p) = true).
Proof.
  destruct v as [| |b|x|s|m]; try discriminate; intros _; eexists;
    (split; [reflexivity|]); (split; [discriminate|]); try discriminate.
  reflexivity.
Qed.

Lemma plus_numbers (B : Conversions) (p q : prim) :
  (forall s, p <> PString s) -> (forall s, q <> PString s) ->
  plus B p q = PNumber (ToNumber_prim B p + ToNumber_prim B q).
Proof.
  intros Hp Hq. destruct p as [| |b|x|s]; try (now destruct (Hp s));
    destruct q as [| |b'|x'|s']; try (now destruct (Hq s')); reflexivity.
Qed.

(** The memoised total never reads as NaN. *)
Lemma totalAnnualSpending_nonnan (B : Conversions) (inputs : jsval) (total : prim) :
  totalAnnualSpending B inputs = inr total ->
  is_nan (ToNumber_prim B total) = false.
Proof.
  unfold totalAnnualSpending.
  destruct inputs as [| |b|x|s|props]; try discriminate;
    cbn [get_prop bind ret]; intros [= <-]; try reflexivity.
  repeat match goal with
         | |- context [bind (ToPrimitive B ?v) _] =>
             destruct (ToPrimitive B v) as [?|?]; cbn [bind ret];
             try reflexivity
         end.
  match goal with
  | |- context [isNaN ?t] => unfold isNaN; destruct (is_nan t) eqn:E
  end; [reflexivity | exact E].
Qed.

(** X11: the memoised total never reads as NaN, whatever the fields hold and
    whatever the conversions return. On [undefined] and [null] the
    dependency array throws; for every object the total is defined; for any
    other input it is 0 and the qualification fails. An object that lacks a
    spending field, and whose spending fields hold no text and no object,
    has the total 0 and does not qualify. *)
Theorem X11_spending_total (B : Conversions) :
  (forall inputs total, totalAnnualSpending B inputs = inr total ->
     is_nan (ToNumber_prim B total) = false)
  /\ (forall inputs,
        match inputs with
        | JSUndefined | JSNull =>
            totalAnnualSpending B inputs = inl "TypeError"
            /\ qualifiesForHighSpender B inputs = inl "TypeError"
        | JSObject _ =>
            exists total, totalAnnualSpending B inputs = inr total
              /\ qualifiesForHighSpender B inputs
                 = inr (75000 <=? ToNumber_prim B total)%float
        | _ =>
            totalAnnualSpending B inputs = inr (PNumber 0)
            /\ qualifiesForHighSpender B inputs = inr false
        end)
  /\ (forall props k, k ∈ spending_keys -> props !! k = None ->
        spending_adds_as_numbers props = true ->
        totalAnnualSpending B (JSObject props) = inr (PNumber 0)
        /\ qualifiesForHighSpender B (JSObject props) = inr false).
Proof.
  split; [exact (totalAnnualSpending_nonnan B)|]. split.
  - intros [| |b|x|s|props]; try (split; reflexivity).
    unfold qualifiesForHighSpender, totalAnnualSpending.
    cbn [get_prop bind ret]. now eexists.
  - intros props k Hk Hnone Hall.
    assert (Ht : totalAnnualSpending B (JSObject props) = inr (PNumber 0)).
    { unfold spending_adds_as_numbers in Hall. cbn [forallb spending_keys] in Hall.
      apply andb_prop in Hall as [Ha Hall]. apply andb_prop in Hall as [Hb Hall].
      apply andb_prop in Hall as [Hc Hall]. apply andb_prop in Hall as [Hd _].
      destruct (number_primitive B _ Ha) as (a & Ea & Na & Ua).
      destruct (number_primitive B _ Hb) as (b & Eb & Nb & Ub).
      destruct (number_primitive B _ Hc) as (c & Ec & Nc & Uc).
      destruct (number_primitive B _ Hd) as (d & Ed & Nd & Ud).
      unfold totalAnnualSpending. cbn [get_prop bind ret].
      rewrite Ea, Eb, Ec, Ed. cbn [bind ret].
      rewrite (plus_numbers B a b Na Nb).
      repeat match goal with
             | |- context [plus B (PNumber ?x) ?q] =>
                 rewrite (plus_numbers B (PNumber x) q)
                   by (assumption || (intros ?; discriminate))
             end.
      cbn [ToNumber_prim].
      assert (Hn : is_nan (ToNumber_prim B a + ToNumber_prim B b
                           + ToNumber_prim B c + ToNumber_prim B d) = true).
      { apply sum4_nan. unfold spending_keys in Hk.
        repeat (apply elem_of_cons in Hk as [->|Hk]); [..|now apply elem_of_nil in Hk];
          rewrite Hnone in *; cbn [default from_option id] in *.
        - left. now apply Ua.
        - right. left. now apply Ub.
        - right. right. left. now apply Uc.
        - right. right. right. now apply Ud. }
      unfold isNaN. now rewrite Hn. }
    split; [exact Ht|]. unfold qualifiesForHighSpender. now rewrite Ht.
Qed.

Lemma X11_witness :
  is_nan (ToNumber_prim (constant_conversions 0) (PNumber 0)) = false
  /\ totalAnnualSpending (constant_conversions 0) (JSObject ∅) = inr (PNumber 0)
  /\ qualifiesForHighSpender (constant_conversions 0) (JSObject ∅) = inr false.
Proof.
  split.
  - apply (proj1 (X11_spending_total (constant_conversions 0)) (JSBoolean true)).
    reflexivity.
  - apply (proj2 (proj2 (X11_spending_total (constant_conversions 0))) ∅ "dining").
    + apply (bool_decide_unpack _). vm_compute. exact I.
    + reflexivity.
    + reflexivity.
Defined.

(** *** The state of the form *)

Lemma handleInputChange_other (B : Conversions) (field : string) (value : jsval)
    (inputs : gmap string jsval) :
  field ∉ spending_keys ->
  handleInputChange B field value inputs = <[field := value]> inputs.
Proof.
  intros H. unfold handleInputChange. now rewrite (bool_decide_eq_false_2 _ H).
Qed.

Lemma handleInputChange_text (B : Conversions) (field text : string)
    (inputs : gmap string jsval) :
  field ∈ spending_keys ->
  handleInputChange B field (JSString text) inputs
  = <[field := JSNumber (if isNaN (StringToNumber B text) then 0%float
                         else StringToNumber B text)]> inputs.
Proof.
  intros H. unfold handleInputChange. now rewrite (bool_decide_eq_true_2 _ H).
Qed.

Lemma holds_number_insert (bound : option float) (inputs : gmap string jsval)
    (k k' : string) (v : jsval) :
  holds_number bound (<[k := v]> inputs) k'
  = if String.eqb k k' then
      match v with
      | JSNumber x =>
          negb (is_nan x)
          && match bound with Some m => (x <=? m)%float | None => true end
      | _ => false
      end
    else holds_number bound inputs k'.
Proof.
  unfold holds_number. destruct (String.eqb_spec k k') as [->|Hne].
  - now rewrite lookup_insert_eq.
  - now rewrite lookup_insert_ne.
Qed.

Lemma holds_boolean_insert (inputs : gmap string jsval) (k k' : string) (v : jsval) :
  holds_boolean (<[k := v]> inputs) k'
  = if String.eqb k k' then match v with JSBoolean _ => true | _ => false end
    else holds_boolean inputs k'.
Proof.
  unfold holds_boolean. destruct (String.eqb_spec k k') as [->|Hne].
  - now rewrite lookup_insert_eq.
  - now rewrite lookup_insert_ne.
Qed.

Ltac eval_eqb :=
  repeat match goal with
         | |- context [String.eqb ?a ?b] =>
             let r := eval vm_compute in (String.eqb a b) in
             change (String.eqb a b) with r
         end;
  cbv beta iota.

Ltac open_well_formed :=
  unfold well_formed, spending_keys, travel_items, service_items,
    highSpender_items, plain_toggles, service_toggles in *;
  cbn [forallb app fst snd] in *.

Ltac split_fields :=
  repeat match goal with
         | H : (_ && _)%bool = true |- _ => apply andb_prop in H; destruct H
         end;
  repeat match goal with
         | |- (_ && _)%bool = true => apply andb_true_intro; split
         end;
  first [assumption | reflexivity].

Ltac cases_of H :=
  repeat (apply elem_of_cons in H as [H|H]); [..|now apply elem_of_nil in H].

Lemma well_formed_spending (inputs : gmap string jsval) (k : string) (x : float) :
  well_formed inputs = true -> k ∈ spending_keys -> is_nan x = false ->
  well_formed (<[k := JSNumber x]> inputs) = true.
Proof.
  intros Hwf Hk Hx. unfold spending_keys in Hk. cases_of Hk; subst k;
    open_well_formed; rewrite !holds_number_insert, !holds_boolean_insert;
    eval_eqb; rewrite ?Hx; cbn [negb]; split_fields.
Qed.

Lemma well_formed_item (inputs : gmap string jsval) (k : string)
    (m : option float) (x : float) :
  well_formed inputs = true -> (k, m) ∈ (travel_items ++ service_items)%list ->
  is_nan x = false ->
  match m with Some b => (x <=? b)%float | None => true end = true ->
  well_formed (<[k := JSNumber x]> inputs) = true.
Proof.
  intros Hwf Hk Hx Hb. unfold travel_items, service_items in Hk.
  cbn [app] in Hk. cases_of Hk; injection Hk as -> ->;
    open_well_formed; rewrite !holds_number_insert, !holds_boolean_insert;
    eval_eqb; rewrite ?Hx; cbn [negb]; split_fields.
Qed.

Lemma well_formed_toggle (inputs : gmap string jsval) (k : string) (b : bool) :
  well_formed inputs = true -> k ∈ (highSpender_items ++ plain_toggles)%list ->
  well_formed (<[k := JSBoolean b]> inputs) = true.
Proof.
  intros Hwf Hk.
  unfold highSpender_items, plain_toggles, service_toggles in Hk.
  cbn [app] in Hk. cases_of Hk; subst k;
    open_well_formed; rewrite !holds_number_insert, !holds_boolean_insert;
    eval_eqb; split_fields.
Qed.

Lemma item_max_elem (items : list (string * option float)) (key : string)
    (m : option float) :
  item_max items key = Some m -> (key, m) ∈ items.
Proof.
  induction items as [|[k m'] items IH]; [discriminate|]. cbn [item_max].
  destruct (String.eqb_spec key k) as [->|_].
  - intros [= ->]. apply elem_of_cons. now left.
  - intros H. apply elem_of_cons. right. now apply IH.
Qed.

Lemma item_not_spending (k : string) (m : option float) :
  (k, m) ∈ (travel_items ++ service_items)%list -> k ∉ spending_keys.
Proof.
  intros Hk. unfold travel_items, service_items in Hk. cbn [app] in Hk.
  cases_of Hk; injection Hk as -> ->;
    apply (bool_decide_unpack _); vm_compute; exact I.
Qed.

Lemma toggle_not_spending (k : string) :
  k ∈ (highSpender_items ++ plain_toggles)%list -> k ∉ spending_keys.
Proof.
  intros Hk. unfold highSpender_items, plain_toggles, service_toggles in Hk.
  cbn [app] in Hk.
  cases_of Hk; subst k; apply (bool_decide_unpack _); vm_compute; exact I.
Qed.

Lemma num_or0_nonnan (x : float) : is_nan (num_or0 x) = false.
Proof.
  unfold num_or0. destruct (is_zero x || is_nan x) eqn:E; [reflexivity|].
  now apply orb_false_iff in E as [_ E].
Qed.

Lemma Math_min_is_nan (a b : float) :
  is_nan a = false -> is_nan b = false -> is_nan (Math_min a b) = false.
Proof.
  intros Ha Hb. unfold Math_min. rewrite Ha, Hb. cbn [orb].
  destruct (a <? b)%float; [assumption|].
  destruct (b <? a)%float; [assumption|]. now destruct (get_sign a).
Qed.

Lemma capped_item (k : string) (m : option float) (x : float) :
  (k, m) ∈ (travel_items ++ service_items)%list -> is_nan x = false ->
  is_nan (capped m x) = false
  /\ match m with Some b => (capped m x <=? b)%float | None => true end = true.
Proof.
  intros Hk Hx. unfold travel_items, service_items in Hk. cbn [app] in Hk.
  cases_of Hk; injection Hk as -> ->; cbn [capped]; try (split; [assumption|reflexivity]);
    match goal with
    | |- context [truthy (JSNumber ?b)] =>
        change (truthy (JSNumber b)) with true; cbv iota;
        (split; [now apply Math_min_is_nan
                |apply (Math_min_le b x); [exact I | now apply is_nan_false]])
    end.
Qed.

Lemma step_well_formed (B : Conversions) (inputs : gmap string jsval) (ev : event) :
  well_formed inputs = true -> well_formed (step B inputs ev) = true.
Proof.
  intros Hwf. destruct ev as [key text|key text|key text|key]; cbn [step].
  - destruct (bool_decide (key ∈ spending_keys)) eqn:E; [|assumption].
    apply bool_decide_eq_true_1 in E. unfold spending_onChange.
    rewrite handleInputChange_text by assumption.
    apply well_formed_spending; try assumption.
    unfold isNaN. now destruct (is_nan (StringToNumber B text)) eqn:En.
  - destruct (item_max travel_items key) as [m|] eqn:E; [|assumption].
    apply item_max_elem in E.
    assert (Hk : (key, m) ∈ (travel_items ++ service_items)%list)
      by (apply elem_of_app; now left).
    unfold travel_onChange. cbv zeta.
    rewrite handleInputChange_other by (now apply (item_not_spending key m)).
    destruct (capped_item key m (num_or0 (parseInt B text)) Hk (num_or0_nonnan _)).
    now apply (well_formed_item inputs key m).
  - destruct (item_max service_items key) as [m|] eqn:E; [|assumption].
    apply item_max_elem in E.
    assert (Hk : (key, m) ∈ (travel_items ++ service_items)%list)
      by (apply elem_of_app; now right).
    unfold service_onChange. cbv zeta.
    rewrite handleInputChange_other by (now apply (item_not_spending key m)).
    destruct (capped_item key m (num_or0 (StringToNumber B text)) Hk (num_or0_nonnan _)).
    now apply (well_formed_item inputs key m).
  - assert (Ht : forall k, k ∈ (highSpender_items ++ plain_toggles)%list ->
                 well_formed (toggle_onClick B k inputs) = true).
    { intros k Hk. unfold toggle_onClick.
      rewrite handleInputChange_other by (now apply toggle_not_spending).
      now apply well_formed_toggle. }
    destruct (bool_decide (key ∈ plain_toggles)) eqn:E1.
    { apply bool_decide_eq_true_1 in E1. apply Ht, elem_of_app. now right. }
    destruct (bool_decide (key ∈ highSpender_items)) eqn:E2; [|assumption].
    apply bool_decide_eq_true_1 in E2.
    destruct (qualifiesForHighSpender B (JSObject inputs)) as [e|[]]; try assumption.
    apply Ht, elem_of_app. now left.
Qed.

Lemma run_well_formed (B : Conversions) (evs : list event)
    (inputs : gmap string jsval) :
  well_formed inputs = true -> well_formed (run B evs inputs) = true.
Proof.
  unfold run. revert inputs.
  induction evs as [|ev evs IH]; intros inputs Hwf; [assumption|].
  cbn [fold_left]. now apply IH, step_well_formed.
Qed.

Lemma reachable_well_formed (B : Conversions) (evs : list event) :
  well_formed (run B evs defaultInputs) = true.
Proof. apply run_well_formed. vm_compute. reflexivity. Qed.

(** X12: whatever the user types and clicks, and whatever the conversions
    of the texts give, the state of the form keeps its shape: the spending
    fields hold numbers that are not NaN, the other text fields numbers that
    are not NaN and not above their [max], the check boxes booleans. *)
Theorem X12_form_state_keeps_its_shape (B : Conversions) (evs : list event) :
  well_formed (run B evs defaultInputs) = true.
Proof. apply run_well_formed. vm_compute. reflexivity. Qed.

Lemma well_formed_number (inputs : gmap string jsval) (k : string) :
  well_formed inputs = true -> k ∈ spending_keys ->
  exists x, inputs !! k = Some (JSNumber x) /\ is_nan x = false.
Proof.
  intros Hwf Hk. unfold spending_keys in Hk. open_well_formed.
  repeat match goal with
         | H : (_ && _)%bool = true |- _ => apply andb_prop in H; destruct H
         end.
  cases_of Hk; subst k; unfold holds_number in *;
    match goal with
    | |- context [inputs !! ?key] =>
        destruct (inputs !! key) as [[| |b|x|s|o]|]; try discriminate
    end;
    eexists; (split; [reflexivity|]);
    match goal with
    | H : (negb (is_nan _) && true)%bool = true |- _ =>
        apply andb_prop in H as [H _]; now apply negb_true_iff in H
    end.
Qed.

Lemma well_formed_boolean (inputs : gmap string jsval) (k : string) :
  well_formed inputs = true -> k ∈ (highSpender_items ++ plain_toggles)%list ->
  exists b, inputs !! k = Some (JSBoolean b).
Proof.
  intros Hwf Hk.
  unfold highSpender_items, plain_toggles, service_toggles in Hk. cbn [app] in Hk.
  open_well_formed.
  repeat match goal with
         | H : (_ && _)%bool = true |- _ => apply andb_prop in H; destruct H
         end.
  cases_of Hk; subst k; unfold holds_boolean in *;
    match goal with
    | |- context [inputs !! ?key] =>
        destruct (inputs !! key) as [[| |b|x|s|o]|]; try discriminate
    end;
    eexists; reflexivity.
Qed.

(** X13: in every state of the form the memoised qualification is defined
    (no field holds a text, so [+] adds numbers), it is the comparison of
    75000 with the sum of the four spending fields, and the results are those
    of the engine under that flag. *)
Theorem X13_qualification_in_the_form (B : Conversions) (evs : list event) :
  exists a b c d : float,
    run B evs defaultInputs !! "chaseTravel" = Some (JSNumber a)
    /\ run B evs defaultInputs !! "flightsHotels" = Some (JSNumber b)
    /\ run B evs defaultInputs !! "dining" = Some (JSNumber c)
    /\ run B evs defaultInputs !! "otherSpending" = Some (JSNumber d)
    /\ qualifiesForHighSpender B (JSObject (run B evs defaultInputs))
       = inr (75000 <=? a + b + c + d)%float
    /\ compute B (JSObject (run B evs defaultInputs))
       = inr (calculateROI (JSObject (run B evs defaultInputs))
                (75000 <=? a + b + c + d)%float).
Proof.
  pose proof (reachable_well_formed B evs) as Hwf.
  set (s := run B evs defaultInputs) in *. clearbody s.
  assert (Hin : forall k, bool_decide (k ∈ spending_keys) = true ->
                exists x, s !! k = Some (JSNumber x) /\ is_nan x = false).
  { intros k Hk. apply bool_decide_eq_true_1 in Hk. now apply well_formed_number. }
  destruct (Hin "chaseTravel" eq_refl) as (a & Ha & _).
  destruct (Hin "flightsHotels" eq_refl) as (b & Hb & _).
  destruct (Hin "dining" eq_refl) as (c & Hc & _).
  destruct (Hin "otherSpending" eq_refl) as (d & Hd & _).
  exists a, b, c, d. repeat (split; [assumption|]).
  destruct (compute_numbers B s a b c d Ha Hb Hc Hd) as (_ & Hq & Hr).
  now split.
Qed.

Lemma qualifies_insert_other (B : Conversions) (s : gmap string jsval) (k : string)
    (v : jsval) :
  k ∉ spending_keys ->
  qualifiesForHighSpender B (JSObject (<[k := v]> s))
  = qualifiesForHighSpender B (JSObject s).
Proof.
  intros Hk.
  assert (Hne : forall k', bool_decide (k' ∈ spending_keys) = true ->
                <[k := v]> s !! k' = s !! k').
  { intros k' Hk'. apply bool_decide_eq_true_1 in Hk'.
    apply lookup_insert_ne. now intros ->. }
  unfold qualifiesForHighSpender, totalAnnualSpending. cbn [get_prop bind ret].
  now rewrite !Hne by reflexivity.
Qed.

Lemma toggle_onClick_twice (B : Conversions) (inputs : gmap string jsval)
    (key : string) :
  well_formed inputs = true -> key ∈ (highSpender_items ++ plain_toggles)%list ->
  toggle_onClick B key (toggle_onClick B key inputs) = inputs.
Proof.
  intros Hwf Hk. destruct (well_formed_boolean inputs key Hwf Hk) as (b & Hb).
  pose proof (toggle_not_spending key Hk) as Hn.
  unfold toggle_onClick. rewrite !handleInputChange_other by assumption.
  rewrite lookup_insert_eq, Hb. cbn [default from_option id truthy].
  rewrite insert_insert_eq, negb_involutive. now apply insert_id.
Qed.

(** X14: clicking a check box twice gives back the state, for every key and
    every state of the shape above. *)
Theorem X14_toggle_twice (B : Conversions) (inputs : gmap string jsval)
    (key : string) :
  well_formed inputs = true ->
  step B (step B inputs (Toggle key)) (Toggle key) = inputs.
Proof.
  intros Hwf. cbn [step].
  destruct (bool_decide (key ∈ plain_toggles)) eqn:E1.
  { apply bool_decide_eq_true_1 in E1. apply toggle_onClick_twice; [assumption|].
    apply elem_of_app. now right. }
  destruct (bool_decide (key ∈ highSpender_items)) eqn:E2; [|reflexivity].
  apply bool_decide_eq_true_1 in E2.
  assert (Hk : key ∈ (highSpender_items ++ plain_toggles)%list)
    by (apply elem_of_app; now left).
  destruct (qualifiesForHighSpender B (JSObject inputs)) as [e|[]] eqn:Eq;
    try (now rewrite Eq).
  assert (Hq : qualifiesForHighSpender B (JSObject (toggle_onClick B key inputs))
               = inr true).
  { unfold toggle_onClick.
    rewrite handleInputChange_other by now apply toggle_not_spending.
    now rewrite qualifies_insert_other by now apply toggle_not_spending. }
  rewrite Hq. now apply toggle_onClick_twice.
Qed.

Lemma X14_witness :
  step (constant_conversions 0)
    (step (constant_conversions 0) defaultInputs (Toggle "appleServices"))
    (Toggle "appleServices")
  = defaultInputs.
Proof.
  apply (X14_toggle_twice (constant_conversions 0) defaultInputs "appleServices").
  vm_compute. reflexivity.
Defined.

Lemma well_formed_dashpass (inputs : gmap string jsval) :
  well_formed inputs = true ->
  exists x, inputs !! "dashpassUsage" = Some (JSNumber x)
            /\ is_nan x = false /\ (x <=? 12)%float = true.
Proof.
  intros Hwf. open_well_formed.
  repeat match goal with
         | H : (_ && _)%bool = true |- _ => apply andb_prop in H; destruct H
         end.
  unfold holds_number in *.
  destruct (inputs !! "dashpassUsage") as [[| |b|x|s|o]|]; try discriminate.
  exists x. split; [reflexivity|].
  match goal with
  | H : (negb (is_nan x) && _)%bool = true |- _ =>
      apply andb_prop in H as [Hnan Hle]; apply negb_true_iff in Hnan;
      split; [exact Hnan | exact Hle]
  end.
Qed.

(** X15: through the form DashPass is worth at most twelve months: the
    engine does not cap the months, the field does, so in every state of the
    form the entry, when there is one, is positive and at most 12 * 9.99. *)
Theorem X15_dashpass_at_most_twelve_months (B : Conversions) (evs : list event)
    (qualifies : bool) (e : BenefitEntry.t) :
  obj_get "dashpass"
    (breakdown (calculateROI (JSObject (run B evs defaultInputs)) qualifies))
  = Some e ->
  (0 <? BenefitEntry.value e)%float = true
  /\ (BenefitEntry.value e <=? 12 * 9.99)%float = true
  /\ BenefitEntry.max e = BenefitEntry.value e.
Proof.
  destruct (well_formed_dashpass _ (reachable_well_formed B evs))
    as (x & Hx & Hn & Hle).
  set (s := run B evs defaultInputs) in *. clearbody s.
  rewrite calculateROI_object. cbv zeta.
  destruct (isNaN _ || negb (isFinite _)); [discriminate|].
  rewrite run_blocks_taken. cbn [assemble breakdown].
  intros H. apply obj_get_taken in H.
  unfold blocks in H. cbv zeta in H. cbn [In] in H.
  repeat (destruct H as [H|H];
          [first [discriminate H | injection H; clear H; intros; subst]|]);
    try contradiction.
  cbn [BenefitEntry.value BenefitEntry.max].
  split; [assumption|]. split; [|reflexivity].
  apply mul_const_monotone; [reflexivity|].
  rewrite lookup_fmap, Hx. cbn [fmap option_fmap option_map sanitize].
  unfold isNaN, isFinite. rewrite Hn. cbn [orb].
  unfold or0. cbn [ToBoolean].
  destruct (is_finite x); cbn [negb];
    match goal with
    | |- context [negb (is_zero ?y || is_nan ?y)] =>
        destruct (negb (is_zero y || is_nan y))
    end; cbn [ToNumber]; first [assumption | reflexivity].
Qed.

Lemma X15_witness :
  exists e,
    obj_get "dashpass" (breakdown (calculateROI (JSObject defaultInputs) false))
    = Some e
    /\ (BenefitEntry.value e <=? 12 * 9.99)%float = true.
Proof.
  eexists. split; [reflexivity|].
  eapply (X15_dashpass_at_most_twelve_months (constant_conversions 0) [] false).
  reflexivity.
Defined.

(** *** The labels of the rows *)

Lemma letter_not_whitespace (c : Ascii.ascii) :
  is_letter c = true -> is_whitespace c = false.
Proof.
  destruct c as [[] [] [] [] [] [] [] []]; vm_compute; intros;
    first [reflexivity | discriminate].
Qed.

Lemma letter_not_space (c : Ascii.ascii) :
  is_letter c = true -> is_space c = false.
Proof.
  destruct c as [[] [] [] [] [] [] [] []]; vm_compute; intros;
    first [reflexivity | discriminate].
Qed.

Lemma whitespace_space (c : Ascii.ascii) :
  (is_letter c || is_space c)%bool = true -> is_whitespace c = is_space c.
Proof.
  destruct c as [[] [] [] [] [] [] [] []]; vm_compute; intros;
    first [reflexivity | discriminate].
Qed.

Lemma upper_char_space (c : Ascii.ascii) : is_space (upper_char c) = is_space c.
Proof. destruct c as [[] [] [] [] [] [] [] []]; vm_compute; reflexivity. Qed.

Lemma remove_trimStart (s : string) :
  all_chars (fun c => is_letter c || is_space c)%bool s = true ->
  remove_chars is_space (trimStart s) = remove_chars is_space s
  /\ all_chars (fun c => is_letter c || is_space c)%bool (trimStart s) = true.
Proof.
  induction s as [|c s IH]; [now split|]. cbn [all_chars trimStart remove_chars].
  intros H. apply andb_prop in H as [Hc Hs].
  rewrite (whitespace_space c Hc). destruct (is_space c) eqn:E.
  - now apply IH.
  - cbn [remove_chars all_chars]. now rewrite E, Hc, Hs.
Qed.

Lemma remove_rev_onto (p : Ascii.ascii -> bool) (s acc : string) :
  remove_chars p (string_rev_onto s acc)
  = string_rev_onto (remove_chars p s) (remove_chars p acc).
Proof.
  revert acc. induction s as [|c s IH]; intros acc; [reflexivity|].
  cbn [string_rev_onto remove_chars]. rewrite IH. cbn [remove_chars].
  now destruct (p c).
Qed.

Lemma all_chars_rev_onto (p : Ascii.ascii -> bool) (s acc : string) :
  all_chars p s = true -> all_chars p acc = true ->
  all_chars p (string_rev_onto s acc) = true.
Proof.
  revert acc. induction s as [|c s IH]; intros acc Hs Ha; [assumption|].
  cbn [all_chars] in Hs. apply andb_prop in Hs as [Hc Hs].
  cbn [string_rev_onto]. apply IH; [assumption|]. cbn [all_chars].
  now rewrite Hc, Ha.
Qed.

Lemma rev_onto_rev_onto (s a b : string) :
  string_rev_onto (string_rev_onto s a) b = string_rev_onto a (s ++ b)%string.
Proof.
  revert a b. induction s as [|c s IH]; intros a b; [reflexivity|].
  cbn [string_rev_onto]. rewrite IH. reflexivity.
Qed.

Lemma string_rev_involutive (s : string) : string_rev (string_rev s) = s.
Proof.
  unfold string_rev. rewrite rev_onto_rev_onto. cbn [string_rev_onto].
  induction s as [|c s IH]; [reflexivity|].
  change (String c (s ++ "")%string = String c s). now rewrite IH.
Qed.

Lemma remove_trim (s : string) :
  all_chars (fun c => is_letter c || is_space c)%bool s = true ->
  remove_chars is_space (trim s) = remove_chars is_space s.
Proof.
  intros H. destruct (remove_trimStart s H) as [E1 H1].
  assert (H2 : all_chars (fun c => is_letter c || is_space c)%bool
                 (string_rev (trimStart s)) = true)
    by now apply all_chars_rev_onto.
  destruct (remove_trimStart _ H2) as [E2 _].
  unfold trim. unfold string_rev at 1. rewrite remove_rev_onto, E2.
  unfold string_rev at 1. rewrite remove_rev_onto, E1. cbn [remove_chars].
  apply (string_rev_involutive (remove_chars is_space s)).
Qed.

Lemma remove_toUpperCase (s : string) :
  remove_chars is_space (toUpperCase s) = toUpperCase (remove_chars is_space s).
Proof.
  induction s as [|c s IH]; [reflexivity|]. cbn [toUpperCase remove_chars].
  rewrite upper_char_space. destruct (is_space c); [assumption|].
  cbn [toUpperCase]. now rewrite IH.
Qed.

Lemma remove_replace_capitals (key : string) :
  all_chars is_letter key = true ->
  remove_chars is_space (replace_capitals key) = key
  /\ all_chars (fun c => is_letter c || is_space c)%bool (replace_capitals key) = true.
Proof.
  induction key as [|c key IH]; [now split|]. cbn [all_chars replace_capitals].
  intros H. apply andb_prop in H as [Hc Hk]. destruct (IH Hk) as [E A].
  pose proof (letter_not_space c Hc) as Hs.
  destruct (is_capital c); cbn [remove_chars all_chars];
    change (is_space Ascii.Space) with true; cbv iota;
    rewrite ?Hs, E, A, Hc; now split.
Qed.

(** X16: the label of a row spells its key: for a key made of letters,
    deleting the spaces of the label leaves the key in capitals; the case
    written out for [highSpender] is what the rule gives anyway. *)
Theorem X16_label_spells_the_key (key : string) :
  all_chars is_letter key = true ->
  remove_chars is_space (label key) = toUpperCase key
  /\ label key = toUpperCase (trim (replace_capitals key)).
Proof.
  intros H. unfold label. destruct (String.eqb_spec key "highSpender") as [->|_].
  - split; reflexivity.
  - split; [|reflexivity]. destruct (remove_replace_capitals key H) as [E A].
    now rewrite remove_toUpperCase, remove_trim, E.
Qed.

Lemma X16_witness :
  remove_chars is_space (label "doorDashCredits") = toUpperCase "doorDashCredits"
  /\ label "doorDashCredits"
     = toUpperCase (trim (replace_capitals "doorDashCredits")).
Proof. apply (X16_label_spells_the_key "doorDashCredits"). reflexivity. Defined.

(** *** Raising a benefit *)

(** The column sum of the blocks that run is the sum of what every block
    adds. *)
Lemma fold_contributions (bs : list block) (a : float) :
  Forall (fun b : block => b.1 = true -> entry_nonneg b.2.2) bs -> fl_acc a ->
  fold_left (fun sum x => (sum + x)%float)
    (map BenefitEntry.value (Object_values (taken bs))) a
  = fold_left (fun sum x => (sum + x)%float) (map contribution bs) a.
Proof.
  intros Hbs. revert a. induction Hbs as [|[c [k e]] bs Hb _ IH]; intros a Ha.
  - reflexivity.
  - unfold taken. cbn [List.filter fst snd map Object_values fold_left contribution].
    destruct c; cbn [List.filter fst snd map Object_values fold_left].
    + apply IH. apply add_acc; [exact Ha|]. now apply Hb.
    + change (contribution (false, (k, e))) with 0%float.
      rewrite (add_acc_0 a Ha). now apply IH.
Qed.

Lemma fold_contributions_monotone (bs bs' : list block) (a a' : float) :
  Forall (fun b : block => b.1 = true -> entry_nonneg b.2.2) bs ->
  Forall (fun b : block => b.1 = true -> entry_nonneg b.2.2) bs' ->
  Forall2 block_le bs bs' ->
  fl_acc a -> fl_acc a' -> (a <=? a')%float = true ->
  (fold_left (fun sum x => (sum + x)%float) (map contribution bs) a
   <=? fold_left (fun sum x => (sum + x)%float) (map contribution bs') a')%float
  = true
  /\ fl_acc (fold_left (fun sum x => (sum + x)%float) (map contribution bs) a)
  /\ fl_acc (fold_left (fun sum x => (sum + x)%float) (map contribution bs') a').
Proof.
  intros Hbs Hbs' H2. revert a a' Hbs Hbs'.
  induction H2 as [|b b' bs bs' Hb H2 IH]; intros a a' Hbs Hbs' Ha Ha' Hle.
  - now repeat split.
  - apply Forall_cons_iff in Hbs as [Hn Hbs]. apply Forall_cons_iff in Hbs' as [Hn' Hbs'].
    assert (Hc : forall b0 : block, (b0.1 = true -> entry_nonneg b0.2.2) ->
                 fl_nonneg (contribution b0)).
    { intros [c [k e]] Hb0. unfold contribution. cbn [fst snd] in *.
      destruct c; [now apply Hb0 | exact I]. }
    cbn [map fold_left]. apply IH; try assumption; try (apply add_acc; auto).
    apply add_acc_monotone; auto.
    destruct Hb as [<-|Hb]; [|exact Hb].
    apply leb_refl, fl_nonneg_nonnan. auto.
Qed.

(** Two objects with finite point totals, the first not above the second,
    and whose blocks after the first add no more in the first than in the
    second: the total and the return of the first are not above those of the
    second. *)
Lemma totals_monotone (props props' : gmap string jsval) (qualifies qualifies' : bool) :
  isFinite (totalPoints_of (sanitize <$> props)) = true ->
  isFinite (totalPoints_of (sanitize <$> props')) = true ->
  (totalPoints_of (sanitize <$> props) <=? totalPoints_of (sanitize <$> props'))%float
  = true ->
  Forall2 block_le (tail (blocks (sanitize <$> props) qualifies))
    (tail (blocks (sanitize <$> props') qualifies')) ->
  (totalValue (assemble (taken (blocks (sanitize <$> props) qualifies)))
   <=? totalValue (assemble (taken (blocks (sanitize <$> props') qualifies'))))%float
  = true
  /\ (roi (assemble (taken (blocks (sanitize <$> props) qualifies)))
      <=? roi (assemble (taken (blocks (sanitize <$> props') qualifies'))))%float
     = true.
Proof.
  intros Hfin Hfin' Hp H2. rewrite !taken_blocks.
  pose proof (points_entry_finite _ Hfin) as (Hpe & _).
  pose proof (points_entry_finite _ Hfin') as (Hpe' & _).
  assert (Hpp : (BenefitEntry.value (points_entry (totalPoints_of (sanitize <$> props)))
                 <=? BenefitEntry.value
                       (points_entry (totalPoints_of (sanitize <$> props'))))%float
                = true).
  { cbn [points_entry BenefitEntry.value]. now apply mul_const_monotone. }
  set (pe := points_entry (totalPoints_of (sanitize <$> props))) in *.
  set (pe' := points_entry (totalPoints_of (sanitize <$> props'))) in *.
  pose proof (blocks_tail_nonneg props qualifies) as Hn.
  pose proof (blocks_tail_nonneg props' qualifies') as Hn'.
  set (bs := tail (blocks (sanitize <$> props) qualifies)) in *.
  set (bs' := tail (blocks (sanitize <$> props') qualifies')) in *.
  clearbody pe pe' bs bs'.
  assert (Hv : forall l : list block,
             Forall (fun b : block => b.1 = true -> entry_nonneg b.2.2) l ->
             Forall (fun e => fl_nonneg (BenefitEntry.value e))
               (Object_values (taken l))).
  { intros l Hl. eapply Forall_impl; [exact (Forall_taken entry_nonneg l Hl)|].
    now intros e (He & _). }
  assert (Hsum : forall (p : BenefitEntry.t) (l : list block),
             fl_finite (BenefitEntry.value p) ->
             Forall (fun b : block => b.1 = true -> entry_nonneg b.2.2) l ->
             reduce_sum BenefitEntry.value (Object_values (("points", p) :: taken l))
             = fold_left (fun sum x => (sum + x)%float) (map contribution l)
                 (0 + BenefitEntry.value p)%float).
  { intros p l Hp0 Hl.
    destruct (reduce_sum_signed BenefitEntry.value p (Object_values (taken l))
                Hp0 (Hv l Hl)) as [E _].
    change (Object_values (("points", p) :: taken l))
      with (p :: Object_values (taken l)).
    rewrite E. unfold float_sum. cbn [map fold_left].
    apply fold_contributions; [exact Hl | now apply add_zero_acc]. }
  assert (Hacc : fl_acc (0 + BenefitEntry.value pe)) by now apply add_zero_acc.
  assert (Hacc' : fl_acc (0 + BenefitEntry.value pe')) by now apply add_zero_acc.
  assert (H0 : (0 + BenefitEntry.value pe <=? 0 + BenefitEntry.value pe')%float = true).
  { apply add_mono; try reflexivity; try assumption; now apply fl_finite_is_finite. }
  destruct (fold_contributions_monotone bs bs' _ _ Hn Hn' H2 Hacc Hacc' H0)
    as (Hle & Ha & Ha').
  unfold assemble. cbn [totalValue roi]. rewrite !guardNaN_roi_of.
  rewrite (Hsum pe bs Hpe Hn), (Hsum pe' bs' Hpe' Hn').
  assert (Hg : forall z, fl_acc z -> guardNaN z 0 = z).
  { intros z Hz. apply guardNaN_id. now apply fl_acc_nonnan. }
  rewrite !Hg by assumption.
  split; [exact Hle | now apply roi_of_monotone_all].
Qed.

Lemma assemble_monotone (props props' : gmap string jsval) (qualifies : bool) :
  totalPoints_of (sanitize <$> props) = totalPoints_of (sanitize <$> props') ->
  Forall2 block_le (tail (blocks (sanitize <$> props) qualifies))
    (tail (blocks (sanitize <$> props') qualifies)) ->
  (totalValue (calculateROI (JSObject props) qualifies)
   <=? totalValue (calculateROI (JSObject props') qualifies))%float = true
  /\ (roi (calculateROI (JSObject props) qualifies)
      <=? roi (calculateROI (JSObject props') qualifies))%float = true.
Proof.
  intros Hp H2. rewrite !calculateROI_object. cbv zeta. rewrite <- Hp.
  destruct (isNaN _ || negb (isFinite _)) eqn:Hbad; [split; reflexivity|].
  apply orb_false_iff in Hbad as [_ Hfin]. apply negb_false_iff in Hfin.
  rewrite !run_blocks_taken.
  apply totals_monotone; try assumption; try (now rewrite <- Hp).
  rewrite <- Hp. apply leb_refl, fl_finite_nonnan. now apply is_finite_spec.
Qed.

Lemma peloton_toggle_monotone (e : option safeval) :
  (pelotonValue_of (Some (SafeBoolean false)) e
   <=? pelotonValue_of (Some (SafeBoolean true)) e)%float = true.
Proof.
  unfold pelotonValue_of. cbv zeta. cbn [ToBoolean].
  destruct (0 <? ToNumber e)%float eqn:E; [|reflexivity].
  assert (Hz : fl_nonneg (Math_min (ToNumber e) 5000 * 9 * POINT_VALUES_avg)).
  { repeat apply mul_const_nonneg; try reflexivity.
    apply Math_min_nonneg; [now apply ltb0_nonneg | exact I]. }
  apply add_monotone; try assumption; try exact I; try reflexivity.
  apply leb_refl. now apply fl_nonneg_nonnan.
Qed.

Ltac rewrite_others safe H :=
  repeat match goal with
         | |- context [safe !! ?key] => rewrite (H key) by discriminate
         end.

(** The blocks pair by pair, after [prepare] has rewritten the fields both
    sides share: a block that is then the same on both sides is set aside. *)
Ltac split_blocks prepare :=
  repeat (apply List.Forall2_cons;
          [prepare;
           match goal with
           | |- block_le ?b ?b' => first [constr_eq b b'; left; reflexivity | right]
           end|]);
  [..|apply List.Forall2_nil];
  cbn [contribution fst snd BenefitEntry.value exact_entry].

(** Raising a number field raises what its block adds and leaves the other
    blocks as they are. *)
Lemma tail_blocks_number (safe safe' : gmap string safeval) (qualifies : bool)
    (k : string) (x y : float) :
  k ∈ number_fields ->
  (forall k', k' <> k -> safe !! k' = safe' !! k') ->
  safe !! k = Some (SafeNumber x) -> safe' !! k = Some (SafeNumber y) ->
  fl_finite x -> fl_finite y -> (x <=? y)%float = true ->
  Forall2 block_le (tail (blocks safe qualifies)) (tail (blocks safe' qualifies)).
Proof.
  intros Hk Hagree Hs Hs' Hfx Hfy H.
  pose proof (or0_number_monotone x y H) as Hor.
  pose proof (lyft_monotone x y Hfx Hfy H) as Hlyft. cbv zeta beta in Hlyft.
  unfold number_fields, travel_items, service_items in Hk.
  cbn [app map fst] in Hk.
  cases_of Hk; subst k; unfold blocks; cbv zeta; cbn [tail];
    split_blocks ltac:(rewrite_others safe Hagree; rewrite ?Hs, ?Hs');
    first [ apply clamp_credit_monotone; [reflexivity | exact Hor]
          | apply pos_part_monotone;
            first [ apply clamp_credit_monotone; [reflexivity | exact Hor]
                  | apply mul_const_monotone; [reflexivity | exact Hor]
                  | now apply peloton_monotone ]
          | exact Hlyft ].
Qed.

(** So does ticking a check box. *)
Lemma tail_blocks_toggle (safe safe' : gmap string safeval) (qualifies : bool)
    (k : string) (a b : bool) :
  k ∈ toggle_fields ->
  (forall k', k' <> k -> safe !! k' = safe' !! k') ->
  safe !! k = Some (SafeBoolean a) -> safe' !! k = Some (SafeBoolean b) ->
  implb a b = true ->
  Forall2 block_le (tail (blocks safe qualifies)) (tail (blocks safe' qualifies)).
Proof.
  intros Hk Hagree Hs Hs' H.
  unfold toggle_fields, highSpender_items, plain_toggles, service_toggles in Hk.
  cbn [app] in Hk.
  assert (Hsame : a = b -> Forall2 block_le (tail (blocks safe qualifies))
                             (tail (blocks safe' qualifies))).
  { intros <-.
    assert (E : blocks safe qualifies = blocks safe' qualifies).
    { apply blocks_agree. intros k' _ _.
      destruct (String.eqb_spec k' k) as [->|Hne]; [congruence | now apply Hagree]. }
    rewrite E. induction (tail (blocks safe' qualifies)) as [|b0 l IH];
      constructor; [now left | exact IH]. }
  destruct a, b; try discriminate H; try (now apply Hsame).
  cases_of Hk; subst k; unfold blocks; cbv zeta; cbn [tail];
    split_blocks ltac:(rewrite_others safe Hagree; rewrite ?Hs, ?Hs');
    first [ apply pos_part_monotone, peloton_toggle_monotone
          | unfold doorDash_of, highSpenderValue_of; cbn [ToBoolean];
            repeat match goal with
                   | |- context [ToBoolean ?o] => destruct (ToBoolean o)
                   end;
            destruct qualifies; reflexivity ].
Qed.

Lemma field_not_spending (k : string) :
  k ∈ (number_fields ++ toggle_fields)%list -> k ∉ spending_keys.
Proof.
  intros Hk.
  unfold number_fields, toggle_fields, travel_items, service_items,
    highSpender_items, plain_toggles, service_toggles in Hk.
  cbn [app map fst] in Hk.
  cases_of Hk; subst k; apply (bool_decide_unpack _); vm_compute; exact I.
Qed.

Lemma totalPoints_insert_other (props : gmap string jsval) (k : string) (v : jsval) :
  k ∉ spending_keys ->
  totalPoints_of (sanitize <$> <[k := v]> props) = totalPoints_of (sanitize <$> props).
Proof.
  intros Hk.
  assert (Hne : forall k', bool_decide (k' ∈ spending_keys) = true ->
                (sanitize <$> <[k := v]> props) !! k' = (sanitize <$> props) !! k').
  { intros k' Hk'. apply bool_decide_eq_true_1 in Hk'.
    rewrite !lookup_fmap, lookup_insert_ne; [reflexivity|]. now intros ->. }
  unfold totalPoints_of. now rewrite !Hne by reflexivity.
Qed.

(** X17: raising a benefit never lowers the result: with a benefit field at
    a larger finite number, or a check box ticked, everything else the same,
    the total and the return are at least what they were. *)
Theorem X17_raising_a_benefit (props : gmap string jsval) (qualifies : bool)
    (k : string) (v v' : jsval) :
  field_le k v v' = true ->
  (totalValue (calculateROI (JSObject (<[k := v]> props)) qualifies)
   <=? totalValue (calculateROI (JSObject (<[k := v']> props)) qualifies))%float
  = true
  /\ (roi (calculateROI (JSObject (<[k := v]> props)) qualifies)
      <=? roi (calculateROI (JSObject (<[k := v']> props)) qualifies))%float
     = true.
Proof.
  intros H.
  assert (Hagree : forall k', k' <> k ->
            (sanitize <$> <[k := v]> props) !! k'
            = (sanitize <$> <[k := v']> props) !! k').
  { intros k' Hne. now rewrite !lookup_fmap, !lookup_insert_ne by congruence. }
  assert (Hget : forall u, (sanitize <$> <[k := u]> props) !! k = Some (sanitize u)).
  { intros u. now rewrite lookup_fmap, lookup_insert_eq. }
  unfold field_le in H.
  destruct v as [| |a|x|s|o], v' as [| |b|y|s'|o']; try discriminate H.
  - apply andb_prop in H as [Hk H]. apply bool_decide_eq_true_1 in Hk.
    assert (Hn : k ∉ spending_keys)
      by (apply field_not_spending, elem_of_app; now right).
    apply assemble_monotone.
    + now rewrite !totalPoints_insert_other.
    + apply (tail_blocks_toggle _ _ qualifies k a b Hk Hagree (Hget _) (Hget _) H).
  - apply andb_prop in H as [H Hle]. apply andb_prop in H as [H Hfy].
    apply andb_prop in H as [Hk Hfx]. apply bool_decide_eq_true_1 in Hk.
    assert (Hn : k ∉ spending_keys)
      by (apply field_not_spending, elem_of_app; now left).
    apply assemble_monotone.
    + now rewrite !totalPoints_insert_other.
    + apply (tail_blocks_number _ _ qualifies k x y Hk Hagree).
      * now rewrite Hget, sanitize_number, Hfx.
      * now rewrite Hget, sanitize_number, Hfy.
      * now apply is_finite_spec.
      * now apply is_finite_spec.
      * exact Hle.
Qed.

Lemma X17_witness :
  (totalValue
     (calculateROI (JSObject (<["priorityPassVisits" := JSNumber 0]> defaultInputs)) false)
   <=? totalValue
         (calculateROI (JSObject (<["priorityPassVisits" := JSNumber 4]> defaultInputs))
            false))%float = true
  /\ (roi
        (calculateROI (JSObject (<["priorityPassVisits" := JSNumber 0]> defaultInputs))
           false)
      <=? roi
            (calculateROI (JSObject (<["priorityPassVisits" := JSNumber 4]> defaultInputs))
               false))%float = true.
Proof.
  apply (X17_raising_a_benefit defaultInputs false "priorityPassVisits"
           (JSNumber 0) (JSNumber 4)).
  vm_compute. reflexivity.
Defined.

(** *** Spending more *)

Lemma add_const_r_monotone (c x y : float) :
  is_finite c = true -> (x <=? y)%float = true -> (x + c <=? y + c)%float = true.
Proof.
  intros Hc. apply (monotone_ext (fun z => (z + c)%float)).
  - intros u v Hu Hv Huv. apply add_mono; try assumption.
    now apply leb_refl, is_finite_nonnan.
  - intros z s Hz. apply is_finite_spec in Hc. rewrite add_spec, Hz.
    now destruct (Prim2SF c) as [[]|[]| |[] m e], s.
Qed.

Lemma add_const_l_monotone (c x y : float) :
  is_finite c = true -> (x <=? y)%float = true -> (c + x <=? c + y)%float = true.
Proof.
  intros Hc. apply (monotone_ext (fun z => (c + z)%float)).
  - intros u v Hu Hv Huv. apply add_mono; try assumption.
    now apply leb_refl, is_finite_nonnan.
  - intros z s Hz. apply is_finite_spec in Hc. rewrite add_spec, Hz.
    now destruct (Prim2SF c) as [[]|[]| |[] m e], s.
Qed.

Lemma add_any_l_monotone (u c c' : float) :
  fl_nonnan u -> is_finite c = true -> is_finite c' = true ->
  (c <=? c')%float = true -> (u + c <=? u + c')%float = true.
Proof.
  intros Hu Hc Hc' H. destruct (nonnan_cases u Hu) as [Hf|[s Hs]].
  - apply add_mono; try assumption; try now apply fl_finite_is_finite.
    now apply leb_refl.
  - assert (E : forall z, is_finite z = true ->
                  Prim2SF (u + z)%float = S754_infinity s).
    { intros z Hz. apply is_finite_spec in Hz. rewrite add_spec, Hs.
      now destruct (Prim2SF z) as [[]|[]| |[] m e], s. }
    rewrite FloatAxioms.leb_spec, (E c Hc), (E c' Hc'). now destruct s.
Qed.

(** The blocks after the first do not read the spending fields; with the
    qualification they can only add more. *)
Lemma tail_blocks_spending (safe safe' : gmap string safeval)
    (qualifies qualifies' : bool) (k : string) :
  k ∈ spending_keys ->
  (forall k', k' <> k -> safe !! k' = safe' !! k') ->
  implb qualifies qualifies' = true ->
  Forall2 block_le (tail (blocks safe qualifies)) (tail (blocks safe' qualifies')).
Proof.
  intros Hk Hagree H. unfold spending_keys in Hk.
  destruct qualifies, qualifies'; try discriminate H;
    cases_of Hk; subst k; unfold blocks; cbv zeta; cbn [tail];
    split_blocks ltac:(rewrite_others safe Hagree);
    unfold highSpenderValue_of;
    repeat match goal with
           | |- context [ToBoolean ?o] => destruct (ToBoolean o)
           end;
    reflexivity.
Qed.

Lemma totalPoints_spending_le (props : gmap string jsval) (k : string) (x y : float) :
  k ∈ spending_keys ->
  is_finite x = true -> is_finite y = true -> (x <=? y)%float = true ->
  is_finite (totalPoints_of (sanitize <$> <[k := JSNumber x]> props)) = true ->
  is_finite (totalPoints_of (sanitize <$> <[k := JSNumber y]> props)) = true ->
  (totalPoints_of (sanitize <$> <[k := JSNumber x]> props)
   <=? totalPoints_of (sanitize <$> <[k := JSNumber y]> props))%float = true.
Proof.
  intros Hk Fx Fy Hle F F'. rewrite !totalPoints_formula in *.
  pose proof (points_formula_finite_inv _ _ _ _ F) as (Fa & Fb & Fc & Fd).
  assert (Hv : forall z, is_finite z = true ->
                 ToNumber ((sanitize <$> <[k := JSNumber z]> props) !! k) = z).
  { intros z Fz. apply ToNumber_sanitized_field; [apply lookup_insert_eq | assumption]. }
  unfold spending_keys in Hk.
  cases_of Hk; subst k;
    rewrite (Hv x Fx) in *; rewrite (Hv y Fy) in *;
    rewrite !(ToNumber_other_field props _ _ (JSNumber y)) in * by discriminate;
    rewrite !(ToNumber_other_field props _ _ (JSNumber x)) in * by discriminate;
    apply points_formula_mono; try assumption;
    apply leb_refl, is_finite_nonnan; assumption.
Qed.

Lemma not_fallback_finite (props : gmap string jsval) (qualifies : bool) :
  calculateROI (JSObject props) qualifies <> fallback ->
  isFinite (totalPoints_of (sanitize <$> props)) = true
  /\ calculateROI (JSObject props) qualifies
     = assemble (taken (blocks (sanitize <$> props) qualifies)).
Proof.
  rewrite calculateROI_object. cbv zeta.
  destruct (isNaN _ || negb (isFinite _)) eqn:Hbad; [contradiction|].
  intros _. rewrite run_blocks_taken. split; [now apply not_bad_finite | reflexivity].
Qed.

Lemma spending_monotone (props : gmap string jsval) (k : string) (x y : float)
    (qualifies qualifies' : bool) :
  k ∈ spending_keys ->
  is_finite x = true -> is_finite y = true -> (x <=? y)%float = true ->
  implb qualifies qualifies' = true ->
  calculateROI (JSObject (<[k := JSNumber x]> props)) qualifies <> fallback ->
  calculateROI (JSObject (<[k := JSNumber y]> props)) qualifies' <> fallback ->
  (totalValue (calculateROI (JSObject (<[k := JSNumber x]> props)) qualifies)
   <=? totalValue (calculateROI (JSObject (<[k := JSNumber y]> props)) qualifies'))%float
  = true
  /\ (roi (calculateROI (JSObject (<[k := JSNumber x]> props)) qualifies)
      <=? roi (calculateROI (JSObject (<[k := JSNumber y]> props)) qualifies'))%float
     = true.
Proof.
  intros Hk Fx Fy Hle Hq Hr Hr'.
  apply not_fallback_finite in Hr as [F ->], Hr' as [F' ->].
  apply totals_monotone; try assumption.
  - now apply totalPoints_spending_le.
  - apply (tail_blocks_spending _ _ _ _ k Hk); [|exact Hq].
    intros k' Hne. now rewrite !lookup_fmap, !lookup_insert_ne by congruence.
Qed.

(** X18: spending more never lowers the result: with a spending field at a
    larger finite number, everything else the same, and the qualification
    kept or gained, the total and the return are at least what they were,
    provided neither point total overflows into the fallback. *)
Theorem X18_spending_more (props : gmap string jsval) (k : string) (x y : float)
    (qualifies qualifies' : bool) :
  k ∈ spending_keys ->
  is_finite x = true -> is_finite y = true -> (x <=? y)%float = true ->
  implb qualifies qualifies' = true ->
  calculateROI (JSObject (<[k := JSNumber x]> props)) qualifies <> fallback ->
  calculateROI (JSObject (<[k := JSNumber y]> props)) qualifies' <> fallback ->
  (totalValue (calculateROI (JSObject (<[k := JSNumber x]> props)) qualifies)
   <=? totalValue (calculateROI (JSObject (<[k := JSNumber y]> props)) qualifies'))%float
  = true
  /\ (roi (calculateROI (JSObject (<[k := JSNumber x]> props)) qualifies)
      <=? roi (calculateROI (JSObject (<[k := JSNumber y]> props)) qualifies'))%float
     = true.
Proof. apply spending_monotone. Qed.

Lemma X18_witness :
  (totalValue (calculateROI (JSObject (<["dining" := JSNumber 1000]> defaultInputs)) false)
   <=? totalValue
         (calculateROI (JSObject (<["dining" := JSNumber 2000]> defaultInputs)) true))%float
  = true
  /\ (roi (calculateROI (JSObject (<["dining" := JSNumber 1000]> defaultInputs)) false)
      <=? roi (calculateROI (JSObject (<["dining" := JSNumber 2000]> defaultInputs))
                 true))%float
     = true.
Proof.
  apply (X18_spending_more defaultInputs "dining" 1000 2000 false true);
    try reflexivity.
  - apply (bool_decide_unpack _). reflexivity.
  - vm_compute. discriminate.
  - vm_compute. discriminate.
Defined.

(** The memoised qualification is kept when a spending number grows, the
    spending fields holding finite numbers. *)
Lemma qualifies_monotone (B : Conversions) (props : gmap string jsval) (k : string)
    (x y : float) :
  k ∈ spending_keys ->
  (forall k', k' ∈ spending_keys -> k' <> k ->
     exists z, props !! k' = Some (JSNumber z) /\ is_finite z = true) ->
  is_finite x = true -> is_finite y = true -> (x <=? y)%float = true ->
  exists q q',
    qualifiesForHighSpender B (JSObject (<[k := JSNumber x]> props)) = inr q
    /\ qualifiesForHighSpender B (JSObject (<[k := JSNumber y]> props)) = inr q'
    /\ implb q q' = true.
Proof.
  intros Hk Hothers Fx Fy Hle.
  assert (Hget : forall k', bool_decide (k' ∈ spending_keys) = true ->
            exists z z', is_finite z = true /\ is_finite z' = true
              /\ (z <=? z')%float = true
              /\ <[k := JSNumber x]> props !! k' = Some (JSNumber z)
              /\ <[k := JSNumber y]> props !! k' = Some (JSNumber z')).
  { intros k' Hk'. apply bool_decide_eq_true_1 in Hk'.
    destruct (String.eqb_spec k' k) as [->|Hne].
    - exists x, y. rewrite !lookup_insert_eq. now repeat split.
    - destruct (Hothers k' Hk' Hne) as (z & Hz & Fz). exists z, z.
      rewrite !lookup_insert_ne by congruence.
      repeat split; try assumption. now apply leb_refl, is_finite_nonnan. }
  destruct (Hget "chaseTravel" eq_refl) as (a & a' & Fa & Fa' & La & Ha & Ha').
  destruct (Hget "flightsHotels" eq_refl) as (b & b' & Fb & Fb' & Lb & Hb & Hb').
  destruct (Hget "dining" eq_refl) as (c & c' & Fc & Fc' & Lc & Hc & Hc').
  destruct (Hget "otherSpending" eq_refl) as (d & d' & Fd & Fd' & Ld & Hd & Hd').
  destruct (qualifies_finite_spending B _ a b c d Ha Hb Hc Hd Fa Fb Fc Fd)
    as (_ & Es & Eq).
  destruct (qualifies_finite_spending B _ a' b' c' d' Ha' Hb' Hc' Hd' Fa' Fb' Fc' Fd')
    as (_ & Es' & Eq').
  rewrite Es in Eq. rewrite Es' in Eq'.
  exists (75000 <=? a + b + c + d)%float, (75000 <=? a' + b' + c' + d')%float.
  split; [exact Eq|]. split; [exact Eq'|].
  assert (Hsum : (a + b + c + d <=? a' + b' + c' + d')%float = true).
  { pose proof (add_const_l_monotone a' b b' Fa' Lb) as L2.
    destruct (leb_nonnan _ _ L2) as [_ N2].
    pose proof (add_any_l_monotone (a' + b') c c' N2 Fc Fc' Lc) as L3.
    destruct (leb_nonnan _ _ L3) as [_ N3].
    apply (leb_transitive _ (a' + b + c + d)%float).
    { now repeat apply add_const_r_monotone. }
    apply (leb_transitive _ (a' + b' + c + d)%float).
    { now repeat apply add_const_r_monotone. }
    apply (leb_transitive _ (a' + b' + c' + d)%float).
    { now apply add_const_r_monotone. }
    now apply add_any_l_monotone. }
  destruct (75000 <=? a + b + c + d)%float eqn:E; [|reflexivity].
  cbn [implb]. now apply (leb_transitive 75000 (a + b + c + d)%float).
Qed.

(** X19: in the component, where the qualification is recomputed from the
    spending, entering a larger spending number never lowers the result,
    also when it crosses the threshold of 75000 and the high-spender benefits
    come in: the spending fields holding finite numbers, the results are
    defined, and unless a point total overflows into the fallback the total
    and the return are at least what they were. *)
Theorem X19_spending_more_in_the_component (B : Conversions)
    (props : gmap string jsval) (k : string) (x y : float) :
  k ∈ spending_keys ->
  (forall k', k' ∈ spending_keys -> k' <> k ->
     exists z, props !! k' = Some (JSNumber z) /\ is_finite z = true) ->
  is_finite x = true -> is_finite y = true -> (x <=? y)%float = true ->
  exists r r',
    compute B (JSObject (<[k := JSNumber x]> props)) = inr r
    /\ compute B (JSObject (<[k := JSNumber y]> props)) = inr r'
    /\ (r <> fallback -> r' <> fallback ->
        (totalValue r <=? totalValue r')%float = true
        /\ (roi r <=? roi r')%float = true).
Proof.
  intros Hk Hothers Fx Fy Hle.
  destruct (qualifies_monotone B props k x y Hk Hothers Fx Fy Hle)
    as (q & q' & E & E' & Hq).
  unfold compute. rewrite E, E'. cbn [bind ret].
  eexists. eexists. split; [reflexivity|]. split; [reflexivity|].
  intros Hr Hr'. now apply spending_monotone.
Qed.

Lemma X19_witness :
  exists r r',
    compute (constant_conversions 0)
      (JSObject (<["chaseTravel" := JSNumber 70000]>
                   (<["useShopsCredit" := JSBoolean true]> defaultInputs)))
    = inr r
    /\ compute (constant_conversions 0)
         (JSObject (<["chaseTravel" := JSNumber 80000]>
                      (<["useShopsCredit" := JSBoolean true]> defaultInputs)))
       = inr r'
    /\ (r <> fallback -> r' <> fallback ->
        (totalValue r <=? totalValue r')%float = true
        /\ (roi r <=? roi r')%float = true).
Proof.
  apply (X19_spending_more_in_the_component (constant_conversions 0)
           (<["useShopsCredit" := JSBoolean true]> defaultInputs) "chaseTravel"
           70000 80000); try reflexivity.
  - apply (bool_decide_unpack _). reflexivity.
  - intros k' Hk' Hne. unfold spending_keys in Hk'.
    cases_of Hk'; subst k'; [contradiction|..]; exists 0%float; split; reflexivity.
Defined.

